(** * podcastfy: text_to_speech.py

    A shallow embedding of [TextToSpeech] (src/podcastfy/text_to_speech.py):
    the markup sanitizer [clean_tss_markup], the turn segmenter [split_qa],
    the natural-sort merge of the sequential back ends and the two-track
    overlay of the Google back end.

    Text is a list of characters.  A character is a code point below 256
    (Rocq's [ascii]); the character classes below are Python's classes for
    [str] on that range. *)

From Stdlib Require Import List Ascii Bool Arith NArith ZArith QArith Lia.
From Stdlib Require String.
From Stdlib Require Import Permutation Sorted.
Import ListNotations String.StringSyntax.
Delimit Scope string_scope with string.
Bind Scope string_scope with String.string.
Close Scope Q_scope.

Definition text := list ascii.

(** A literal of the source, written as a Rocq string. *)
Definition str (s : String.string) : text := String.list_ascii_of_string s.

Fixpoint text_eqb (a b : text) : bool :=
  match a, b with
  | [], [] => true
  | x :: a', y :: b' => Ascii.eqb x y && text_eqb a' b'
  | _, _ => false
  end.

(** ** Character classes of Python's [str] and [re] (code points 0..255) *)

Module Chars.

Definition code (c : ascii) : N := N_of_ascii c.

Definition between (lo hi : N) (c : ascii) : bool :=
  ((lo <=? code c) && (code c <=? hi))%N.

(** [str.isspace], [\s], and what [str.split()] and [str.strip()] remove:
    TAB LF VT FF CR, FS GS RS US, SPACE, NEL (0x85), NBSP (0xA0). *)
Definition is_space (c : ascii) : bool :=
  between 9 13 c || between 28 32 c || (code c =? 133)%N || (code c =? 160)%N.

(** [\d]: the decimal digits. *)
Definition is_decimal (c : ascii) : bool := between 48 57 c.

(** One character of [str.isdigit]: the decimal digits and the
    superscripts 2, 3 (0xB2, 0xB3) and 1 (0xB9). *)
Definition is_digit (c : ascii) : bool :=
  is_decimal c || between 178 179 c || (code c =? 185)%N.

Definition is_alpha (c : ascii) : bool :=
  between 65 90 c || between 97 122 c
  || (code c =? 170)%N || (code c =? 181)%N || (code c =? 186)%N
  || between 192 214 c || between 216 246 c || between 248 255 c.

(** [\w]: alphanumeric (letters, digits, the fractions 0xBC..0xBE) or
    the underscore. *)
Definition is_word (c : ascii) : bool :=
  is_alpha c || is_digit c || between 188 190 c || (code c =? 95)%N.

Definition LF : ascii := ascii_of_N 10.
Definition SPACE : ascii := ascii_of_N 32.

End Chars.

(** ** String methods of Python used by the module *)

Module PyStr.
Import Chars.

Fixpoint startswith (p s : text) : bool :=
  match p, s with
  | [], _ => true
  | a :: p', b :: s' => Ascii.eqb a b && startswith p' s'
  | _ :: _, [] => false
  end.

(** [s.endswith(p)] *)
Definition endswith (s p : text) : bool :=
  startswith (rev p) (rev s).

(** [s.lstrip()], [s.rstrip()], [s.strip()] *)
Fixpoint lstrip (s : text) : text :=
  match s with
  | c :: s' => if is_space c then lstrip s' else s
  | [] => []
  end.

Definition rstrip (s : text) : text := rev (lstrip (rev s)).

Definition strip (s : text) : text := rstrip (lstrip s).

(** [s.split()]: the maximal runs of non-space characters.  [w] is the
    run being read, in reverse. *)
Fixpoint split_ws_aux (w : text) (s : text) : list text :=
  match s with
  | [] => match w with [] => [] | _ => [rev w] end
  | c :: s' =>
      if is_space c
      then match w with [] => split_ws_aux [] s' | _ => rev w :: split_ws_aux [] s' end
      else split_ws_aux (c :: w) s'
  end.

Definition split_ws (s : text) : list text := split_ws_aux [] s.

(** [sep.join(l)] *)
Fixpoint join (sep : text) (l : list text) : text :=
  match l with
  | [] => []
  | [x] => x
  | x :: l' => x ++ sep ++ join sep l'
  end.

(** [s.isdigit()]: non-empty and made of digit characters. *)
Definition isdigit (s : text) : bool :=
  match s with [] => false | _ => forallb is_digit s end.

(** [int(s)] for a string without sign, blanks or underscores: defined on
    non-empty strings of decimal digits; [None] stands for [ValueError]. *)
Fixpoint int_aux (acc : N) (s : text) : option N :=
  match s with
  | [] => Some acc
  | c :: s' =>
      if is_decimal c then int_aux (acc * 10 + (code c - 48))%N s' else None
  end.

Definition int (s : text) : option N :=
  match s with [] => None | _ => int_aux 0%N s end.

(** [str(n)] for a non-negative integer (the [{counter}] of an f-string). *)
Definition digit_char (d : N) : ascii := ascii_of_N (48 + d).

Fixpoint str_of_N_aux (fuel : nat) (n : N) (acc : text) : text :=
  match fuel with
  | O => acc
  | S f =>
      let acc' := digit_char (n mod 10) :: acc in
      if (n <? 10)%N then acc' else str_of_N_aux f (n / 10)%N acc'
  end.

Definition str_of_N (n : N) : text :=
  str_of_N_aux (S (N.to_nat (N.log2 n))) n [].

End PyStr.

(** ** The fragment of Python's [re] that the module's patterns use

    A backtracking matcher: alternatives are tried in order, greedy
    repetitions take as much as they can first, lazy ones as little.
    Every repetition in the source's patterns ranges over a set of single
    characters, so repetition is defined on character sets. *)

Module Re.
Import Chars.

Inductive regex : Type :=
| Lit (l : text)                    (* literal characters *)
| OneOf (p : ascii -> bool)         (* one character of a set: [.], [\s], [\d], [[^>]] *)
| Cat (a b : regex)                 (* ab *)
| Or (a b : regex)                  (* a|b *)
| Opt (a : regex)                   (* a? *)
| Star (p : ascii -> bool)          (* x*, greedy *)
| Plus (p : ascii -> bool)          (* x+, greedy *)
| LazyStar (p : ascii -> bool)      (* x*? *)
| Group (i : nat) (a : regex)       (* (a), the i-th capturing group *)
| Ahead (a : regex)                 (* (?=a) *)
| NotAhead (a : regex)              (* (?!a) *)
| WordBoundary                      (* \b *)
| EndOfString.                      (* $ without MULTILINE *)

(** Captured groups, most recent first. *)
Definition caps := list (nat * text).

Fixpoint group (i : nat) (cs : caps) : text :=
  match cs with
  | [] => []
  | (j, t) :: cs' => if Nat.eqb i j then t else group i cs'
  end.

Definition orelse {R} (a : option R) (b : option R) : option R :=
  match a with Some x => Some x | None => b end.

Fixpoint strip_prefix (p s : text) : option text :=
  match p, s with
  | [], _ => Some s
  | a :: p', b :: s' => if Ascii.eqb a b then strip_prefix p' s' else None
  | _ :: _, [] => None
  end.

Definition last_char (prev : option ascii) (consumed : text) : option ascii :=
  match rev consumed with
  | c :: _ => Some c
  | [] => prev
  end.

Definition word_at (c : option ascii) : bool :=
  match c with Some a => is_word a | None => false end.

(** A continuation receives the character before the current position,
    the rest of the text and the groups captured so far. *)
Definition cont (R : Type) := option ascii -> text -> caps -> option R.

Fixpoint star {R} (p : ascii -> bool) (prev : option ascii) (s : text)
    (cs : caps) (k : cont R) : option R :=
  match s with
  | c :: s' =>
      if p c then orelse (star p (Some c) s' cs k) (k prev s cs)
      else k prev s cs
  | [] => k prev s cs
  end.

Fixpoint lazy_star {R} (p : ascii -> bool) (prev : option ascii) (s : text)
    (cs : caps) (k : cont R) : option R :=
  match k prev s cs with
  | Some x => Some x
  | None =>
      match s with
      | c :: s' => if p c then lazy_star p (Some c) s' cs k else None
      | [] => None
      end
  end.

Fixpoint rmatch (r : regex) {R : Type} (prev : option ascii) (s : text)
    (cs : caps) (k : cont R) {struct r} : option R :=
  match r with
  | Lit l =>
      match strip_prefix l s with
      | Some s' => k (last_char prev l) s' cs
      | None => None
      end
  | OneOf p =>
      match s with
      | c :: s' => if p c then k (Some c) s' cs else None
      | [] => None
      end
  | Cat a b =>
      rmatch a prev s cs (fun prev' s' cs' => rmatch b prev' s' cs' k)
  | Or a b =>
      orelse (rmatch a prev s cs k) (rmatch b prev s cs k)
  | Opt a =>
      orelse (rmatch a prev s cs k) (k prev s cs)
  | Star p => star p prev s cs k
  | Plus p =>
      match s with
      | c :: s' => if p c then star p (Some c) s' cs k else None
      | [] => None
      end
  | LazyStar p => lazy_star p prev s cs k
  | Group i a =>
      rmatch a prev s cs
        (fun prev' s' cs' =>
           k prev' s' ((i, firstn (length s - length s') s) :: cs'))
  | Ahead a =>
      match rmatch a prev s cs (fun _ _ cs' => Some cs') with
      | Some cs' => k prev s cs'
      | None => None
      end
  | NotAhead a =>
      match rmatch a prev s cs (fun _ _ _ => Some tt) with
      | Some _ => None
      | None => k prev s cs
      end
  | WordBoundary =>
      if xorb (word_at prev) (word_at (hd_error s)) then k prev s cs else None
  | EndOfString =>
      match s with
      | [] => k prev s cs
      | [c] => if Ascii.eqb c LF then k prev s cs else None
      | _ => None
      end
  end.

(** One match found by a search: the text skipped before it, the matched
    text, its groups, and the text after it. *)
Record found := Found {
  skipped : text;
  matched : text;
  groups : caps;
  after : text
}.

Definition match_here (r : regex) (prev : option ascii) (s : text)
  : option (text * caps) :=
  rmatch r prev s [] (fun _ s' cs => Some (s', cs)).

(** [re.search]: the leftmost position at which the pattern matches. *)
Fixpoint search (r : regex) (prev : option ascii) (s : text) : option found :=
  match match_here r prev s with
  | Some (s', cs) => Some (Found [] (firstn (length s - length s') s) cs s')
  | None =>
      match s with
      | [] => None
      | c :: t =>
          match search r (Some c) t with
          | Some f => Some (Found (c :: skipped f) (matched f) (groups f) (after f))
          | None => None
          end
      end
  end.

(** The successive non-overlapping matches, left to right, and the text
    left after the last one.  After an empty match the scan steps over
    one character.  (None of the module's patterns matches the empty
    string.) *)
Definition push_char (c : ascii) (r : list found * text) : list found * text :=
  match r with
  | ([], tl) => ([], c :: tl)
  | (f :: fs, tl) =>
      (Found (c :: skipped f) (matched f) (groups f) (after f) :: fs, tl)
  end.

Fixpoint finditer (fuel : nat) (r : regex) (prev : option ascii) (s : text)
  : list found * text :=
  match fuel with
  | O => ([], s)
  | S fuel' =>
      match search r prev s with
      | None => ([], s)
      | Some f =>
          match matched f, after f with
          | [], [] => ([f], [])
          | [], c :: rest =>
              let '(fs, tl) := push_char c (finditer fuel' r (Some c) rest) in
              (f :: fs, tl)
          | _ :: _, rest =>
              let '(fs, tl) :=
                finditer fuel' r (last_char prev (skipped f ++ matched f)) rest in
              (f :: fs, tl)
          end
      end
  end.

Definition matches (r : regex) (s : text) : list found * text :=
  finditer (S (length s)) r None s.

(** [re.sub(r, repl, s)], the replacement given as a function of the
    groups. *)
Definition sub (r : regex) (repl : caps -> text) (s : text) : text :=
  let '(fs, tl) := matches r s in
  concat (map (fun f => skipped f ++ repl (groups f)) fs) ++ tl.

(** [re.findall(r, s)] for a pattern with two groups. *)
Definition findall2 (r : regex) (s : text) : list (text * text) :=
  map (fun f => (group 1 (groups f), group 2 (groups f))) (fst (matches r s)).

(** [re.split(r, s)] for a pattern with one group: the pieces between the
    matches, each followed by the group of the match that ends it. *)
Definition split1 (r : regex) (s : text) : list text :=
  let '(fs, tl) := matches r s in
  concat (map (fun f => [skipped f; group 1 (groups f)]) fs) ++ [tl].

(** Alternation of literals: [(?:a|b|c)]. *)
Fixpoint any_of (l : list text) : regex :=
  match l with
  | [] => NotAhead (Lit [])
  | [x] => Lit x
  | x :: l' => Or (Lit x) (any_of l')
  end.

Definition any_char : ascii -> bool := fun _ => true.   (* [.] with DOTALL *)
Definition not_char (c : ascii) : ascii -> bool := fun x => negb (Ascii.eqb x c).

End Re.

(** ** TextToSpeech *)

Module TextToSpeech.
Import Chars PyStr Re.

(** [split_qa] (lines 274-301); [ending_message] is [self.ending_message]. *)
Definition qa_pattern : regex :=
  Cat (Lit (str "<Person1>"))
 (Cat (Group 1 (LazyStar any_char))
 (Cat (Lit (str "</Person1>"))
 (Cat (Star is_space)
 (Cat (Lit (str "<Person2>"))
 (Cat (Group 2 (LazyStar any_char))
      (Lit (str "</Person2>"))))))).

Definition normalize (s : text) : text :=
  strip (join [SPACE] (split_ws s)).

Definition split_qa (ending_message : text) (input_text : text)
  : list (text * text) :=
  let input_text := input_text ++ str "<Person2>" ++ ending_message ++ str "</Person2>" in
  let matches := findall2 qa_pattern input_text in
  map (fun '(person1, person2) => (normalize person1, normalize person2)) matches.

(** [clean_tss_markup] (lines 303-339). *)
Definition supported_tags : list text :=
  map str ["speak"; "break"; "lang"; "p"; "phoneme"; "s"; "say-as"; "sub"]%string.

Definition default_tags : list text := map str ["Person1"; "Person2"]%string.

Definition unsupported_pattern (additional_tags : list text) : regex :=
  Cat (Lit (str "<"))
 (Cat (Opt (Lit (str "/")))
 (Cat (NotAhead (Cat (any_of (supported_tags ++ additional_tags)) WordBoundary))
 (Cat (Plus (not_char ">"))
      (Lit (str ">"))))).

Definition blank_lines_pattern : regex :=
  Cat (Lit [LF]) (Cat (Star is_space) (Lit [LF])).

Definition closing_pattern (additional_tags : list text) (tag : text) : regex :=
  Cat (Lit (str "<" ++ tag ++ str ">"))
 (Cat (Group 1 (LazyStar any_char))
      (Ahead (Or (Cat (Lit (str "<"))
                 (Cat (any_of additional_tags) (Lit (str ">"))))
                 EndOfString))).

Definition close_tag (additional_tags : list text) (cleaned_text tag : text) : text :=
  sub (closing_pattern additional_tags tag)
      (fun cs => str "<" ++ tag ++ str ">" ++ group 1 cs ++ str "</" ++ tag ++ str ">")
      cleaned_text.

(** The names in [additional_tags] are matched as literal texts.  The
    source pastes them into its patterns as they are, which comes to the
    same for names without characters that are special in a regular
    expression, such as the default ones. *)
Definition clean_tss_markup_with (additional_tags : list text) (input_text : text) : text :=
  let cleaned_text := sub (unsupported_pattern additional_tags) (fun _ => []) input_text in
  let cleaned_text := sub blank_lines_pattern (fun _ => [LF]) cleaned_text in
  let cleaned_text := fold_left (close_tag additional_tags) additional_tags cleaned_text in
  strip cleaned_text.

Definition clean_tss_markup (input_text : text) : text :=
  clean_tss_markup_with default_tags input_text.

(** *** Exceptions and results

    [inl e] is a raised exception, [inr x] a returned value. *)
Inductive exn : Type :=
| ValueError (literal : text)        (* [int()] on a string it cannot read *)
| TypeError                          (* [<] between an [int] and a [str] *)
| FileNotFoundError (name : text)
| ServiceError (msg : text).         (* raised by a speech service *)

Definition result (A : Type) : Type := (exn + A)%type.

Definition bind {A B} (m : result A) (f : A -> result B) : result B :=
  match m with inl e => inl e | inr x => f x end.

Notation "x <- m ;; f" := (bind m (fun x => f))
  (at level 61, m at next level, right associativity).

Fixpoint mapM {A B} (f : A -> result B) (l : list A) : result (list B) :=
  match l with
  | [] => inr []
  | x :: l' => y <- f x ;; ys <- mapM f l' ;; inr (y :: ys)
  end.

(** [str(e)] *)
Definition exn_text (e : exn) : text :=
  match e with
  | ValueError l => str "invalid literal for int() with base 10: '" ++ l ++ str "'"
  | TypeError => str "'<' not supported between instances of 'int' and 'str'"
  | FileNotFoundError n => str "No such file or directory: '" ++ n ++ str "'"
  | ServiceError m => m
  end.

(** *** [natural_sort_key] (lines 74-75) *)
Inductive key_part : Type :=
| KInt (n : N)
| KStr (s : text).

Definition digits_pattern : regex := Group 1 (Plus is_decimal).

Definition key_of_piece (t : text) : result key_part :=
  if isdigit t
  then match int t with Some n => inr (KInt n) | None => inl (ValueError t) end
  else inr (KStr t).

Definition natural_sort_key (filename : text) : result (list key_part) :=
  mapM key_of_piece (split1 digits_pattern filename).

(** Python's [==] and [<] on the parts and on lists of parts. *)
Definition part_eqb (a b : key_part) : bool :=
  match a, b with
  | KInt m, KInt n => N.eqb m n
  | KStr s, KStr t => text_eqb s t
  | _, _ => false
  end.

Fixpoint text_ltb (a b : text) : bool :=
  match a, b with
  | _, [] => false
  | [], _ :: _ => true
  | x :: a', y :: b' =>
      if (code x <? code y)%N then true
      else if (code x =? code y)%N then text_ltb a' b' else false
  end.

Definition part_lt (a b : key_part) : result bool :=
  match a, b with
  | KInt m, KInt n => inr (N.ltb m n)
  | KStr s, KStr t => inr (text_ltb s t)
  | _, _ => inl TypeError
  end.

Fixpoint key_lt (a b : list key_part) : result bool :=
  match a, b with
  | _, [] => inr false
  | [], _ :: _ => inr true
  | x :: a', y :: b' => if part_eqb x y then key_lt a' b' else part_lt x y
  end.

(** [sorted(l, key=key)]: the keys are computed once, left to right; the
    sort is stable and compares keys with [<] only. *)
Fixpoint insert_keyed {A} (x : list key_part * A) (l : list (list key_part * A))
  : result (list (list key_part * A)) :=
  match l with
  | [] => inr [x]
  | y :: l' =>
      b <- key_lt (fst y) (fst x) ;;
      if b : bool then (r <- insert_keyed x l' ;; inr (y :: r)) else inr (x :: l)
  end.

Fixpoint sort_keyed {A} (l : list (list key_part * A))
  : result (list (list key_part * A)) :=
  match l with
  | [] => inr []
  | x :: l' => r <- sort_keyed l' ;; insert_keyed x r
  end.

Definition sorted {A} (key : A -> result (list key_part)) (l : list A)
  : result (list A) :=
  kl <- mapM (fun x => k <- key x ;; inr (k, x)) l ;;
  sl <- sort_keyed kl ;;
  inr (map snd sl).

(** *** Audio and files

    An [AudioSegment] of the sequential back ends is its sequence of
    frames: [AudioSegment.empty()] is [[]], [+] is concatenation and the
    duration is the number of frames.  A file holds the segment that
    [AudioSegment.from_file] decodes from it.  [temp_dir] maps the names
    in [temp_audio_dir] to their contents ([temp_audio_dir] ends with the
    path separator, as in the shipped configuration, so that
    [f"{temp_audio_dir}{counter}.{audio_format}"] is the file
    [{counter}.{audio_format}] of that directory). *)
Definition AudioSegment := list Z.

Definition files := list (text * AudioSegment).

Record world : Type := World {
  temp_dir : files;       (* the files of [temp_audio_dir] *)
  outputs : files;        (* the files outside [temp_audio_dir], by path *)
  log : list text         (* the lines given to [logger] *)
}.

Fixpoint lookup (name : text) (fs : files) : option AudioSegment :=
  match fs with
  | [] => None
  | (n, d) :: fs' => if text_eqb n name then Some d else lookup name fs'
  end.

(** [open(name, "wb").write(data)]: replaces the file or creates it. *)
Fixpoint write_file (name : text) (data : AudioSegment) (fs : files) : files :=
  match fs with
  | [] => [(name, data)]
  | (n, d) :: fs' =>
      if text_eqb n name then (n, data) :: fs' else (n, d) :: write_file name data fs'
  end.

(** [os.remove(name)] *)
Definition remove_file (name : text) (fs : files) : files :=
  filter (fun f => negb (text_eqb (fst f) name)) fs.

Definition names (fs : files) : list text := map fst fs.

Definition from_file (fs : files) (name : text) : result AudioSegment :=
  match lookup name fs with
  | Some d => inr d
  | None => inl (FileNotFoundError name)
  end.

Definition log_line (l : text) (w : world) : world :=
  World (temp_dir w) (outputs w) (log w ++ [l]).

(** [segment.export(path)] for a [path] outside [temp_audio_dir]. *)
Definition export (path : text) (data : AudioSegment) (w : world) : world :=
  World (temp_dir w) (write_file path data (outputs w)) (log w).

(** The configuration.  The directory [temp_audio_dir] enters through the
    paths that name its entries: [in_temp_audio_dir path] is [Some name]
    when the operating system resolves [path] to the entry [name] of that
    directory, and [None] for every other path. *)
Record config : Type := Config {
  audio_format : text;
  in_temp_audio_dir : text -> option text;
  ending_message : text;
  tts_model : text;
  question_voice : text;
  answer_voice : text
}.

(** A speech service: model, voice, text to audio, or an exception. *)
Definition service := text -> text -> text -> result AudioSegment.

(** A loop over a list whose body may raise: the state reached when the
    exception is raised is kept. *)
Fixpoint for_each {X S} (body : X -> S -> S * result unit) (l : list X) (s : S)
  : S * result unit :=
  match l with
  | [] => (s, inr tt)
  | x :: l' =>
      match body x s with
      | (s', inr _) => for_each body l' s'
      | (s', inl e) => (s', inl e)
      end
  end.

Section Pipeline.
(** [os.listdir]: the names of a directory, in an order of its own. *)
Variable listdir : files -> list text.
Variable cfg : config.

Definition extension : text := str "." ++ audio_format cfg.

(** [combined.export(output_file)] (line 87): there is one file system,
    and an [output_file] that names an entry of [temp_audio_dir] is
    written there, where a later listing finds it and [os.remove] can
    delete it. *)
Definition export_file (path : text) (data : AudioSegment) (w : world) : world :=
  match in_temp_audio_dir cfg path with
  | Some name => World (write_file name data (temp_dir w)) (outputs w) (log w)
  | None => export path data w
  end.

(** *** [__merge_audio_files] (lines 64-91) *)
Definition selected (w : world) : list text :=
  filter (fun f => endswith f extension) (listdir (temp_dir w)).

Definition merge_step (w : world) (file : text) (combined : result AudioSegment)
  : result AudioSegment :=
  c <- combined ;;
  if endswith file extension
  then (d <- from_file (temp_dir w) file ;; inr (c ++ d))
  else inr c.

Definition merge_try (output_file : text) (w : world) : world * result unit :=
  match sorted natural_sort_key (selected w) with
  | inl e => (w, inl e)
  | inr audio_files =>
      match fold_left (fun c f => merge_step w f c) audio_files (inr []) with
      | inl e => (w, inl e)
      | inr combined =>
          (log_line (str "Merged audio saved to " ++ output_file)
             (export_file output_file combined w), inr tt)
      end
  end.

Definition merge_audio_files (output_file : text) (w : world) : world * result unit :=
  match merge_try output_file w with
  | (w', inl e) =>
      (log_line (str "Error merging audio files: " ++ exn_text e) w', inl e)
  | r => r
  end.

(** The local variables of a conversion: [counter] and [audio_files]. *)
Record run : Type := Run {
  run_world : world;
  counter : N;
  audio_files : list text
}.

Definition save (data : AudioSegment) (r : run) : run :=
  let counter := (counter r + 1)%N in
  let file_name := str_of_N counter ++ extension in
  Run (World (write_file file_name data (temp_dir (run_world r)))
             (outputs (run_world r)) (log (run_world r)))
      counter (audio_files r ++ [file_name]).

Definition cleanup (audio_files : list text) (w : world) : world :=
  World (fold_left (fun fs f => remove_file f fs) audio_files (temp_dir w))
        (outputs w) (log w).

(** The tail shared by the two sequential conversions (lines 141-148,
    177-184): merge, remove the clips of this run, log. *)
Definition finish (output_file : text) (r : run) : world * result unit :=
  match merge_audio_files output_file (run_world r) with
  | (w, inl e) => (w, inl e)
  | (w, inr _) =>
      (log_line (str "Audio saved to " ++ output_file)
         (cleanup (audio_files r) w), inr tt)
  end.

(** The [try ... except Exception as e: logger.error(...); raise]
    around each conversion. *)
Definition logged (name : text) (r : world * result unit) : world * result unit :=
  match r with
  | (w, inl e) =>
      (log_line (str "Error converting text to speech with " ++ name ++ str ": "
                   ++ exn_text e) w, inl e)
  | _ => r
  end.

(** *** [__convert_to_speech_openai] (lines 154-188) *)
Variable openai_create : service.

Definition openai_line (line : text * text) (r : run) : run * result unit :=
  let '(speaker, content) := line in
  match openai_create (tts_model cfg) speaker content with
  | inl e =>
      (Run (run_world r) (counter r + 1)%N (audio_files r), inl e)
  | inr response => (save response r, inr tt)
  end.

Definition openai_turn (turn : text * text) (r : run) : run * result unit :=
  let '(question, answer) := turn in
  for_each openai_line
    [(question_voice cfg, question); (answer_voice cfg, answer)] r.

Definition convert_to_speech_openai (input : text) (output_file : text) (w : world)
  : world * result unit :=
  logged (str "OpenAI")
    (let qa_pairs := split_qa (ending_message cfg) input in
     match for_each openai_turn qa_pairs (Run w 0%N []) with
     | (r, inl e) => (run_world r, inl e)
     | (r, inr _) => finish output_file r
     end).

(** *** [__convert_to_speech_elevenlabs] (lines 114-152) *)
Variable elevenlabs_generate : service.

Definition elevenlabs_turn (turn : text * text) (r : run) : run * result unit :=
  let '(question, answer) := turn in
  match elevenlabs_generate (tts_model cfg) (question_voice cfg) question with
  | inl e => (r, inl e)
  | inr question_audio =>
      match elevenlabs_generate (tts_model cfg) (answer_voice cfg) answer with
      | inl e => (r, inl e)
      | inr answer_audio => (save answer_audio (save question_audio r), inr tt)
      end
  end.

Definition convert_to_speech_elevenlabs (input : text) (output_file : text) (w : world)
  : world * result unit :=
  logged (str "ElevenLabs")
    (let qa_pairs := split_qa (ending_message cfg) input in
     match for_each elevenlabs_turn qa_pairs (Run w 0%N []) with
     | (r, inl e) => (run_world r, inl e)
     | (r, inr _) => finish output_file r
     end).

End Pipeline.

(** *** The overlay of [__convert_to_speech_google] (lines 207-260)

    A track is the sequence of what was appended to it: a synthesized
    clip with its [duration_seconds], or [AudioSegment.silent(duration)]
    with the milliseconds asked for.  Seconds are exact rationals.  Each
    line comes with the clip the service returned for it and the overlap
    [random.uniform(0.2, 0.4)] drew for it. *)
Inductive piece : Type :=
| Clip (duration_seconds : Q)
| Silent (duration : Q).

Definition track := list piece.

Record overlay : Type := Overlay {
  combined_q : track;
  combined_a : track;
  last_overlap_duration : Q
}.

Inductive kind : Type := question | answer.

Definition silence_duration (duration_seconds overlap_duration last_overlap_duration : Q) : Q :=
  (duration_seconds - overlap_duration - last_overlap_duration)%Q.

Definition overlay_line (k : kind) (line : Q * Q) (s : overlay) : overlay :=
  let '(duration_seconds, overlap_duration) := line in
  let audio_segment := Clip duration_seconds in
  let silence :=
    Silent (silence_duration duration_seconds overlap_duration (last_overlap_duration s) * 1000)%Q in
  match k with
  | question =>
      Overlay (combined_q s ++ [audio_segment]) (combined_a s ++ [silence]) overlap_duration
  | answer =>
      Overlay (combined_q s ++ [silence]) (combined_a s ++ [audio_segment]) overlap_duration
  end.

Definition overlay_turn (s : overlay) (turn : (Q * Q) * (Q * Q)) : overlay :=
  let '(q, a) := turn in
  overlay_line answer a (overlay_line question q s).

Definition overlay_start : overlay := Overlay [] [] 0%Q.

Definition overlay_turns (turns : list ((Q * Q) * (Q * Q))) : overlay :=
  fold_left overlay_turn turns overlay_start.




End TextToSpeech.

Import Chars PyStr Re TextToSpeech.

(** * Notions used to state the properties *)

Definition is_suffix (s' s : text) : Prop := exists m, s = m ++ s'.

Definition cons_first (c : ascii) (l : list text) : list text :=
  match l with
  | [] => [[c]]
  | x :: l' => (c :: x) :: l'
  end.

(** [p] occurs in [s]. *)
Fixpoint occurs (p s : text) : bool :=
  startswith p s || match s with [] => false | _ :: s' => occurs p s' end.

(** Some [<Person1>] of the text has no [</Person1>] anywhere after it. *)
Fixpoint unclosed_person1 (s : text) : bool :=
  (startswith (str "<Person1>") s && negb (occurs (str "</Person1>") s))
  || match s with [] => false | _ :: s' => unclosed_person1 s' end.

(** ** Balance of the speaker tags *)

Definition open_tag (tag : text) : text := str "<" ++ tag ++ str ">".
Definition closing_tag (tag : text) : text := str "</" ++ tag ++ str ">".

Definition Person1 : text := str "Person1".
Definition Person2 : text := str "Person2".

(** A preserved tag opens at the head of [s]. *)
Definition opening (s : text) : bool :=
  startswith (open_tag Person1) s || startswith (open_tag Person2) s.

(** Where [$] matches: at the end of the text, or before a final newline. *)
Definition at_end (s : text) : bool :=
  match s with
  | [] => true
  | [c] => Ascii.eqb c LF
  | _ => false
  end.

Definition boundary (s : text) : bool := opening s || at_end s.

(** Reading [s] from its head, the closing tag [closer] comes before any
    opening preserved tag and before the end of the text. *)
Fixpoint closed_next (closer s : text) : bool :=
  if startswith closer s then true
  else if opening s then false
  else match s with [] => false | _ :: s' => closed_next closer s' end.

(** Every [<tag>] of [s] is closed that way. *)
Fixpoint balanced (tag s : text) : bool :=
  (if startswith (open_tag tag) s
   then closed_next (closing_tag tag) (skipn (length (open_tag tag)) s)
   else true)
  && match s with [] => true | _ :: s' => balanced tag s' end.

(** The text from the head of [s] to its first boundary, and the text
    from that boundary on. *)
Fixpoint content_to_boundary (s : text) : text :=
  if boundary s then []
  else match s with [] => [] | c :: s' => c :: content_to_boundary s' end.

Fixpoint rest_at_boundary (s : text) : text :=
  if boundary s then s
  else match s with [] => [] | _ :: s' => rest_at_boundary s' end.

(** The closing pass as a left-to-right scan: [inside] tells that a
    [<tag>] was read and no boundary since; at the next boundary the
    closing tag is written. *)
Fixpoint close_scan (tag : text) (inside : bool) (s : text) : text :=
  (if inside && boundary s then closing_tag tag else [])
  ++ match s with
     | [] => []
     | c :: s' =>
         c :: close_scan tag
                (startswith (open_tag tag) s || (inside && negb (boundary s))) s'
     end.

(** A word without [<] and without newline. *)
Definition plain (w : text) : Prop :=
  Forall (fun c => c <> "<"%char /\ c <> LF) w.

Definition spaces (w : text) : Prop := Forall (fun c => is_space c = true) w.
Definition spaceless (w : text) : Prop := Forall (fun c => is_space c = false) w.

(** ** The overlay: what the properties speak of *)





(** ** Failures of the speech service *)

(** The calls of a sequential conversion, in order: for each turn the
    question with the question voice, then the answer with the answer
    voice. *)
Definition calls_of (cfg : config) (qa_pairs : list (text * text)) : list (text * text) :=
  flat_map (fun t => [(question_voice cfg, fst t); (answer_voice cfg, snd t)]) qa_pairs.

(** The first call that fails, counted from [n], and its exception. *)
Fixpoint first_failure (svc : service) (model : text) (calls : list (text * text))
    (n : nat) : option (nat * exn) :=
  match calls with
  | [] => None
  | (voice, content) :: rest =>
      match svc model voice content with
      | inl e => Some (n, e)
      | inr _ => first_failure svc model rest (S n)
      end
  end.


(** A service that fails on one text and returns one frame otherwise. *)
Definition fails_on (bad : text) : service :=
  fun _ _ input =>
    if text_eqb input bad then inl (ServiceError (str "timeout")) else inr [0%Z].

Definition example_config : config :=
  Config (str "mp3") (strip_prefix (str "data/audio/tmp/"))
         (str "Bye") (str "tts-1") (str "echo") (str "shimmer").

Definition example_transcript : text :=
  str "<Person1>Hi</Person1><Person2>Hello</Person2><Person1>Thanks</Person1>".

Definition empty_world : world := World [] [] [].

(** ** Natural sort: what the properties speak of *)

Fixpoint take_while (p : ascii -> bool) (s : text) : text :=
  match s with
  | c :: s' => if p c then c :: take_while p s' else []
  | [] => []
  end.

Fixpoint drop_while (p : ascii -> bool) (s : text) : text :=
  match s with
  | c :: s' => if p c then drop_while p s' else s
  | [] => []
  end.

Definition all_decimal (s : text) : Prop := Forall (fun c => is_decimal c = true) s.
Definition no_decimal (s : text) : Prop := Forall (fun c => is_decimal c = false) s.

(** The shape of what [re.split(r'(\d+)', s)] returns: texts without
    decimal digits, separated by non-empty runs of decimal digits. *)
Inductive pieces : list text -> Prop :=
| pieces_last t : no_decimal t -> pieces [t]
| pieces_more t d l :
    no_decimal t -> d <> [] -> all_decimal d -> pieces l -> pieces (t :: d :: l).

(** The shape of a sort key: strings and integers in turn, a string
    first and last. *)
Inductive key_shape : list key_part -> Prop :=
| key_shape_last s : key_shape [KStr s]
| key_shape_more s n k : key_shape k -> key_shape (KStr s :: KInt n :: k).

(** No character that [str.isdigit] accepts and [int] refuses (the
    superscript digits). *)
Definition no_superscript (s : text) : bool :=
  forallb (fun c => negb (is_digit c) || is_decimal c) s.


(** The file written for the [n]-th call. *)
Definition clip_name (cfg : config) (n : N) : text := str_of_N n ++ extension cfg.

(** The contents of the files in the order of their names. *)
Fixpoint contents (fs : files) (l : list text) : list AudioSegment :=
  match l with
  | [] => []
  | f :: l' =>
      match lookup f fs with
      | Some d => d :: contents fs l'
      | None => contents fs l'
      end
  end.

(** The order of two keyed elements in a sorted list: the key of the
    second is not less than the key of the first. *)
Definition keyed_le {A} (p q : list key_part * A) : Prop :=
  key_lt (fst q) (fst p) = inr false.

Definition ordered_by {A} (key : A -> result (list key_part)) (a b : A) : Prop :=
  exists ka kb, key a = inr ka /\ key b = inr kb /\ key_lt kb ka = inr false.

(** [a] may come before [b] in a list sorted with [natural_sort_key]: both
    have a key and the key of [b] is not less than the key of [a]. *)
Definition key_le (a b : text) : Prop := ordered_by natural_sort_key a b.


(** ** Sequential assembly: what the properties speak of *)

(** [n] consecutive numbers from [first]. *)
Fixpoint numbers (first : N) (n : nat) : list N :=
  match n with
  | O => []
  | S n' => first :: numbers (first + 1)%N n'
  end.

(** The state after the clips were saved one after the other. *)
Definition saved (cfg : config) (clips : list AudioSegment) (r : run) : run :=
  fold_left (fun r d => save cfg d r) clips r.

(** One call of the service, with the model of the configuration. *)
Definition call (svc : service) (cfg : config) (c : text * text) : result AudioSegment :=
  svc (tts_model cfg) (fst c) (snd c).

(** ** The sanitizer pass by pass: what the properties speak of *)

(** The three passes of [clean_tss_markup] before [strip]. *)
Definition remove_unsupported (s : text) : text :=
  sub (unsupported_pattern default_tags) (fun _ => []) s.

Definition collapse_blank_lines (s : text) : text :=
  sub blank_lines_pattern (fun _ => [LF]) s.

Definition close_tags (s : text) : text :=
  fold_left (close_tag default_tags) default_tags s.

(** The text before the first [>] of [s], and the text after it. *)
Fixpoint to_gt (s : text) : option (text * text) :=
  match s with
  | [] => None
  | c :: s' =>
      if Ascii.eqb c ">" then Some ([], s')
      else match to_gt s' with
           | Some (b, r) => Some (c :: b, r)
           | None => None
           end
  end.

(** One of [names] is at the head of [s] and a word boundary follows. *)
Definition name_ahead (names : list text) (s : text) : bool :=
  existsb (fun name =>
             match strip_prefix name s with
             | Some s' => negb (word_at (hd_error s'))
             | None => false
             end) names.

Definition tag_names : list text := supported_tags ++ default_tags.

(** A tag with the body [b] (the text between [<] and the first [>]) is
    removed by the first pass. *)
Definition removable (b : text) : bool :=
  match b with
  | [] => false
  | d :: _ => Ascii.eqb d "/" || negb (name_ahead tag_names (b ++ str ">"))
  end.

Definition no_lt (b : text) : bool := forallb (fun c => negb (Ascii.eqb c "<")) b.

(** Tags are not nested and none is left open: after every [<] comes a
    [>] with no [<] in between. *)
Fixpoint flat (s : text) : bool :=
  match s with
  | [] => true
  | c :: s' =>
      (if Ascii.eqb c "<"
       then match to_gt s' with Some (b, _) => no_lt b | None => false end
       else true)
      && flat s'
  end.

(** Flat, and no tag of the text is removable. *)
Fixpoint reduced (s : text) : bool :=
  match s with
  | [] => true
  | c :: s' =>
      (if Ascii.eqb c "<"
       then match to_gt s' with
            | Some (b, _) => no_lt b && negb (removable b)
            | None => false
            end
       else true)
      && reduced s'
  end.

(** A tag name that ends in a word character. *)
Definition ends_in_word (name : text) : Prop :=
  exists c, last_char None name = Some c /\ is_word c = true /\ name <> [].

(** The text after the last newline of the white space at the head of
    [s], if that white space has a newline. *)
Fixpoint after_last_lf (s : text) : option text :=
  match s with
  | [] => None
  | c :: s' =>
      if is_space c
      then match after_last_lf s' with
           | Some r => Some r
           | None => if Ascii.eqb c LF then Some s' else None
           end
      else None
  end.

(** No newline of [s] is followed by white space with another newline:
    the second pass finds nothing to replace. *)
Fixpoint no_blank_lines (s : text) : bool :=
  match s with
  | [] => true
  | c :: s' =>
      (if Ascii.eqb c LF
       then match after_last_lf s' with Some _ => false | None => true end
       else true)
      && no_blank_lines s'
  end.

(** The closing passes as one scan: [pending] is the speaker tag that
    was opened and not closed since. *)
Definition opened (s : text) : option text :=
  if startswith (open_tag Person1) s then Some Person1
  else if startswith (open_tag Person2) s then Some Person2
  else None.

Definition closer_of (pending : option text) : text :=
  match pending with Some tag => closing_tag tag | None => [] end.

Fixpoint close_all (pending : option text) (s : text) : text :=
  (if boundary s then closer_of pending else [])
  ++ match s with
     | [] => []
     | c :: s' =>
         c :: close_all
                (match opened s with
                 | Some tag => Some tag
                 | None => if boundary s then None else pending
                 end) s'
     end.

(** The tag pending after the two scans read the same text. *)
Definition pending_of (i1 i2 : bool) : option text :=
  if i1 then Some Person1 else if i2 then Some Person2 else None.

(** The text does not end in white space. *)
Definition no_trailing_space (m : text) : Prop :=
  forall m' c, m = m' ++ [c] -> is_space c = false.

(** The closing tag of [pending] is one of the two speaker tags. *)
Definition speaker (pending : option text) : Prop :=
  match pending with Some tag => In tag default_tags | None => True end.

(** ** Turns of a transcript: what the properties speak of *)

(** A word: not empty and without white space. *)
Definition word (w : text) : Prop := w <> [] /\ spaceless w.

(** Words separated by single spaces. *)
Definition tidy (t : text) : Prop :=
  exists l, Forall word l /\ t = join [SPACE] l.

(** A text without [<]. *)
Definition no_tag (t : text) : Prop := ~ In "<"%char t.

(** A turn written with its four tags, [sep] between the two lines. *)
Definition turn_text (sep : text) (t : text * text) : text :=
  str "<Person1>" ++ fst t ++ str "</Person1>" ++ sep
  ++ str "<Person2>" ++ snd t ++ str "</Person2>".

(** A transcript of complete turns, [sep] after each line. *)
Definition script (sep : text) (l : list (text * text)) : text :=
  flat_map (fun t => turn_text sep t ++ sep) l.

(** A transcript whose speaker tags are not closed. *)
Definition open_script (l : list (text * text)) : text :=
  flat_map (fun t => open_tag Person1 ++ fst t ++ open_tag Person2 ++ snd t) l.

(** What [split_qa] makes of the two texts of a turn. *)
Definition normalize_turn (t : text * text) : text * text :=
  (normalize (fst t), normalize (snd t)).

(** ** The files of the Google conversion (lines 262-268) *)

(** [s.replace(old, new)]: the occurrences of [old] are replaced from the
    left, without overlap; [skip] counts the characters of an occurrence
    still to be passed.  For an empty [old], [new] is put before every
    character and at the end. *)
Fixpoint replace_aux (old new : text) (skip : nat) (s : text) : text :=
  match s with
  | [] => []
  | c :: s' =>
      match skip with
      | S k => replace_aux old new k s'
      | O =>
          if startswith old s
          then new ++ replace_aux old new (length old - 1) s'
          else c :: replace_aux old new 0 s'
      end
  end.

Definition replace (old new s : text) : text :=
  match old with
  | [] => new ++ flat_map (fun c => c :: new) s
  | _ :: _ => replace_aux old new 0 s
  end.

Section GoogleExport.
(** What the audio library makes of a track ([export] writes it) and of
    two segments laid over each other ([overlay]). *)
Variable render : track -> AudioSegment.
Variable mix : AudioSegment -> AudioSegment -> AudioSegment.

Definition question_file (output_file : text) : text :=
  replace (str ".mp3") (str "_question.mp3") output_file.

Definition answer_file (output_file : text) : text :=
  replace (str ".mp3") (str "_answer.mp3") output_file.

Definition google_export (output_file : text) (s : overlay) (w : world) : world :=
  let w := export (question_file output_file) (render (combined_q s)) w in
  let w := export (answer_file output_file) (render (combined_a s)) w in
  let w := export output_file (mix (render (combined_q s)) (render (combined_a s))) w in
  log_line (str "Audio saved to " ++ output_file) w.

End GoogleExport.


(** ** [convert_to_speech] (lines 93-112) *)

Section Dispatch.
Variable listdir : files -> list text.
Variable cfg : config.
Variable openai_create : service.
Variable elevenlabs_generate : service.
(** The Google conversion as a whole: it draws random numbers and calls
    its own client. *)
Variable convert_to_speech_google : text -> text -> world -> world * result unit.

(** [model] is [self.model]; for a model that is none of the three the
    method does nothing after sanitizing. *)
Definition convert_to_speech (model text output_file : text) (w : world)
  : world * result unit :=
  let cleaned_text := clean_tss_markup text in
  if text_eqb model (str "elevenlabs")
  then convert_to_speech_elevenlabs listdir cfg elevenlabs_generate
         cleaned_text output_file w
  else if text_eqb model (str "openai")
  then convert_to_speech_openai listdir cfg openai_create cleaned_text output_file w
  else if text_eqb model (str "google")
  then convert_to_speech_google cleaned_text output_file w
  else (w, inr tt).

End Dispatch.

(* ====== END OF DEFINITIONS ====== *)

(** * Facts about the matcher *)

Section MatcherFacts.

Lemma is_suffix_refl s : is_suffix s s.
Proof. now exists []. Qed.

Lemma is_suffix_cons c s' s : is_suffix s' s -> is_suffix s' (c :: s).
Proof. intros [m ->]. now exists (c :: m). Qed.

Lemma is_suffix_trans a b c : is_suffix a b -> is_suffix b c -> is_suffix a c.
Proof. intros [m ->] [n ->]. exists (n ++ m). now rewrite app_assoc. Qed.

Lemma is_suffix_length s' s : is_suffix s' s -> length s' <= length s.
Proof. intros [m ->]. rewrite length_app. lia. Qed.

Lemma is_suffix_firstn s' s :
  is_suffix s' s -> firstn (length s - length s') s ++ s' = s.
Proof.
  intros [m ->]. rewrite length_app.
  replace (length m + length s' - length s') with (length m + 0) by lia.
  rewrite firstn_app_2. simpl. now rewrite app_nil_r.
Qed.

Lemma firstn_suffix (m s' : text) :
  firstn (length (m ++ s') - length s') (m ++ s') = m.
Proof.
  rewrite length_app.
  replace (length m + length s' - length s') with (length m + 0) by lia.
  rewrite firstn_app_2. simpl. now rewrite app_nil_r.
Qed.

Lemma strip_prefix_Some p s s' : strip_prefix p s = Some s' <-> s = p ++ s'.
Proof.
  revert s. induction p as [|a p IH]; intros s; simpl.
  - split; congruence.
  - destruct s as [|b s]; [split; discriminate|].
    destruct (Ascii.eqb_spec a b) as [->|ne].
    + rewrite IH. split; congruence.
    + split; [discriminate|]. intros [= e _]. now symmetry in e.
Qed.

Lemma strip_prefix_app p s : strip_prefix p (p ++ s) = Some s.
Proof. now apply strip_prefix_Some. Qed.

Lemma strip_prefix_startswith p s :
  strip_prefix p s = if startswith p s then Some (skipn (length p) s) else None.
Proof.
  revert s. induction p as [|a p IH]; intros s; simpl; [reflexivity|].
  destruct s as [|b s]; [reflexivity|]. destruct (Ascii.eqb a b); simpl; auto.
Qed.

Lemma startswith_true p s : startswith p s = true <-> exists t, s = p ++ t.
Proof.
  revert s. induction p as [|a p IH]; intros s; simpl.
  - split; eauto.
  - destruct s as [|b s].
    + split; [discriminate|]. intros [t e]. discriminate.
    + destruct (Ascii.eqb_spec a b) as [->|ne]; simpl.
      * rewrite IH. split; intros [t e]; exists t; congruence.
      * split; [discriminate|]. intros [t [= e _]]. now symmetry in e.
Qed.

Lemma startswith_app p s : startswith p (p ++ s) = true.
Proof. apply startswith_true. eauto. Qed.

(** Whatever the matcher returns was returned by its continuation, at a
    suffix of the text. *)
Lemma star_sound R p prev s cs (k : cont R) x :
  star p prev s cs k = Some x ->
  exists prev' s' cs', k prev' s' cs' = Some x /\ is_suffix s' s.
Proof.
  revert prev. induction s as [|c s IH]; intros prev; simpl.
  - intros H. exists prev, [], cs. split; [assumption|apply is_suffix_refl].
  - destruct (p c).
    + unfold orelse. destruct (star p (Some c) s cs k) eqn:E.
      * intros [= <-]. destruct (IH _ E) as (p' & s' & cs' & H1 & H2).
        exists p', s', cs'. split; [assumption|now apply is_suffix_cons].
      * intros H. exists prev, (c :: s), cs. split; [assumption|apply is_suffix_refl].
    + intros H. exists prev, (c :: s), cs. split; [assumption|apply is_suffix_refl].
Qed.

Lemma lazy_star_sound R p prev s cs (k : cont R) x :
  lazy_star p prev s cs k = Some x ->
  exists prev' s' cs', k prev' s' cs' = Some x /\ is_suffix s' s.
Proof.
  revert prev. induction s as [|c s IH]; intros prev; simpl.
  - destruct (k prev [] cs) eqn:E; [|discriminate].
    intros [= <-]. exists prev, [], cs. split; [assumption|apply is_suffix_refl].
  - destruct (k prev (c :: s) cs) eqn:E.
    + intros [= <-]. exists prev, (c :: s), cs. split; [assumption|apply is_suffix_refl].
    + destruct (p c); [|discriminate]. intros H.
      destruct (IH _ H) as (p' & s' & cs' & H1 & H2).
      exists p', s', cs'. split; [assumption|now apply is_suffix_cons].
Qed.

Lemma rmatch_sound r : forall R prev s cs (k : cont R) x,
  rmatch r prev s cs k = Some x ->
  exists prev' s' cs', k prev' s' cs' = Some x /\ is_suffix s' s.
Proof.
  induction r; intros R prev s cs k x; simpl.
  - destruct (strip_prefix l s) eqn:E; [|discriminate]. intros H.
    apply strip_prefix_Some in E. subst s. do 3 eexists. split; [eassumption|].
    now exists l.
  - destruct s as [|c s]; [discriminate|]. destruct (p c); [|discriminate].
    intros H. do 3 eexists. split; [eassumption|]. now exists [c].
  - intros H. apply IHr1 in H. destruct H as (p1 & s1 & c1 & H & S1).
    apply IHr2 in H. destruct H as (p2 & s2 & c2 & H & S2).
    exists p2, s2, c2. split; [assumption|]. eapply is_suffix_trans; eassumption.
  - unfold orelse. destruct (rmatch r1 prev s cs k) eqn:E.
    + intros [= <-]. eapply IHr1; eassumption.
    + apply IHr2.
  - unfold orelse. destruct (rmatch r prev s cs k) eqn:E.
    + intros [= <-]. eapply IHr; eassumption.
    + intros H. do 3 eexists. split; [eassumption|apply is_suffix_refl].
  - apply star_sound.
  - destruct s as [|c s]; [discriminate|]. destruct (p c); [|discriminate].
    intros H. apply star_sound in H. destruct H as (p' & s' & cs' & H1 & H2).
    exists p', s', cs'. split; [assumption|now apply is_suffix_cons].
  - apply lazy_star_sound.
  - intros H. apply IHr in H. destruct H as (p1 & s1 & c1 & H & S1).
    do 3 eexists. split; [eassumption|assumption].
  - destruct (rmatch r prev s cs (fun _ _ cs' => Some cs')); [|discriminate].
    intros H. do 3 eexists. split; [eassumption|apply is_suffix_refl].
  - destruct (rmatch r prev s cs (fun _ _ _ => Some tt)); [discriminate|].
    intros H. do 3 eexists. split; [eassumption|apply is_suffix_refl].
  - destruct (xorb _ _); [|discriminate].
    intros H. do 3 eexists. split; [eassumption|apply is_suffix_refl].
  - destruct s as [|c [|d s]].
    + intros H. do 3 eexists. split; [eassumption|apply is_suffix_refl].
    + destruct (Ascii.eqb c LF); [|discriminate].
      intros H. do 3 eexists. split; [eassumption|apply is_suffix_refl].
    + discriminate.
Qed.

Lemma match_here_suffix r prev s s' cs :
  match_here r prev s = Some (s', cs) -> is_suffix s' s.
Proof.
  unfold match_here. intros H. apply rmatch_sound in H.
  destruct H as (p' & s1 & c1 & [= -> ->] & H). exact H.
Qed.

End MatcherFacts.

(** * The scan for successive matches, one character at a time

    For a pattern whose matches do not depend on the character before
    them and are never empty, [sub], [findall] and [split] obey equations
    that read the text from left to right. *)

Section Iteration.

Variable r : regex.
Hypothesis prev_free : forall prev s, match_here r prev s = match_here r None s.
Hypothesis nonempty :
  forall s s' cs, match_here r None s = Some (s', cs) -> length s' < length s.

Lemma Some_inj (A : Type) (a b : A) : Some a = Some b -> a = b.
Proof. congruence. Qed.

Lemma search_prev prev s : search r prev s = search r None s.
Proof.
  revert prev. induction s as [|c s IH]; intros prev; simpl; rewrite prev_free.
  - reflexivity.
  - destruct (match_here r None (c :: s)) as [[s' cs]|]; reflexivity.
Qed.

Lemma search_sound prev s f :
  search r prev s = Some f ->
  s = skipped f ++ matched f ++ after f /\ length (after f) < length s.
Proof.
  revert prev f. induction s as [|c s IH]; intros prev f; cbn [search];
    rewrite prev_free.
  - destruct (match_here r None []) as [[s' cs]|] eqn:E; [|discriminate].
    apply nonempty in E. simpl in E. lia.
  - destruct (match_here r None (c :: s)) as [[s' cs]|] eqn:E.
    + intros H. apply Some_inj in H. subst f. cbn [skipped matched after app]. split.
      * symmetry. apply is_suffix_firstn. eapply match_here_suffix; eassumption.
      * apply nonempty in E. exact E.
    + destruct (search r (Some c) s) as [g|] eqn:G; [|discriminate].
      intros [= <-]. cbn [skipped matched after].
      destruct (IH _ _ G) as [H1 H2]. split.
      * simpl. now rewrite <- H1.
      * simpl. lia.
Qed.

Lemma search_matched prev s f : search r prev s = Some f -> matched f <> [].
Proof.
  revert prev f. induction s as [|c s IH]; intros prev f; cbn [search];
    rewrite prev_free.
  - destruct (match_here r None []) as [[s' cs]|] eqn:E; [|discriminate].
    apply nonempty in E. simpl in E. lia.
  - destruct (match_here r None (c :: s)) as [[s' cs]|] eqn:E.
    + intros H. apply Some_inj in H. subst f. cbn [matched].
      pose proof (nonempty _ _ _ E) as L.
      pose proof (match_here_suffix _ _ _ _ _ E) as [m e]. rewrite e in *.
      rewrite firstn_suffix. intros ->. simpl in L. lia.
    + destruct (search r (Some c) s) as [g|] eqn:G; [|discriminate].
      intros [= <-]. cbn [matched]. eapply IH; eassumption.
Qed.

Lemma finditer_fuel n : forall m s p p',
  length s < n -> length s < m -> finditer n r p s = finditer m r p' s.
Proof.
  induction n as [|n IH]; intros m s p p' Hn Hm; [lia|].
  destruct m as [|m]; [lia|]. simpl.
  rewrite (search_prev p), (search_prev p').
  destruct (search r None s) as [f|] eqn:E; [|reflexivity].
  pose proof (search_matched _ _ _ E) as M.
  destruct (search_sound _ _ _ E) as [_ L].
  destruct (matched f) as [|x mf]; [congruence|].
  rewrite (IH m (after f) _ (last_char p' (skipped f ++ x :: mf))) by lia.
  reflexivity.
Qed.

Lemma finditer_norm n p s : length s < n -> finditer n r p s = matches r s.
Proof. intros H. unfold matches. apply finditer_fuel; lia. Qed.

Lemma finditer_S n p s :
  finditer (S n) r p s =
  match search r p s with
  | None => ([], s)
  | Some f =>
      match matched f, after f with
      | [], [] => ([f], [])
      | [], c :: rest =>
          let '(fs, tl) := push_char c (finditer n r (Some c) rest) in (f :: fs, tl)
      | _ :: _, rest =>
          let '(fs, tl) :=
            finditer n r (last_char p (skipped f ++ matched f)) rest in
          (f :: fs, tl)
      end
  end.
Proof. reflexivity. Qed.

Lemma search_here prev s :
  search r prev s =
  match match_here r None s with
  | Some (s', cs) => Some (Found [] (firstn (length s - length s') s) cs s')
  | None =>
      match s with
      | [] => None
      | c :: t =>
          match search r None t with
          | Some f => Some (Found (c :: skipped f) (matched f) (groups f) (after f))
          | None => None
          end
      end
  end.
Proof.
  destruct s as [|c s]; cbn [search]; rewrite prev_free; [reflexivity|].
  now rewrite (search_prev (Some c)).
Qed.

Lemma matches_found s f :
  search r None s = Some f ->
  matches r s = (f :: fst (matches r (after f)), snd (matches r (after f))).
Proof.
  intros E. unfold matches at 1. rewrite finditer_S, E.
  pose proof (search_matched _ _ _ E) as M.
  destruct (search_sound _ _ _ E) as [_ L].
  destruct (matched f) as [|x mf]; [congruence|].
  rewrite finditer_norm by lia.
  destruct (matches r (after f)). reflexivity.
Qed.

Lemma matches_none s : search r None s = None -> matches r s = ([], s).
Proof. intros E. unfold matches. now rewrite finditer_S, E. Qed.

Lemma matches_step s :
  matches r s =
  match match_here r None s with
  | Some (s', cs) =>
      let '(fs, tl) := matches r s' in
      (Found [] (firstn (length s - length s') s) cs s' :: fs, tl)
  | None =>
      match s with
      | [] => ([], [])
      | c :: t => push_char c (matches r t)
      end
  end.
Proof.
  destruct (search r None s) as [f|] eqn:E.
  - rewrite (matches_found _ _ E). rewrite search_here in E.
    destruct (match_here r None s) as [[s' cs]|].
    + apply Some_inj in E. subst f. cbn [after].
      destruct (matches r s'). reflexivity.
    + destruct s as [|c t]; [discriminate|].
      destruct (search r None t) as [g|] eqn:G; [|discriminate].
      apply Some_inj in E. subst f. cbn [after].
      rewrite (matches_found _ _ G). reflexivity.
  - rewrite (matches_none _ E). rewrite search_here in E.
    destruct (match_here r None s) as [[s' cs]|]; [discriminate|].
    destruct s as [|c t]; [reflexivity|].
    destruct (search r None t) as [g|] eqn:G; [discriminate|].
    now rewrite (matches_none _ G).
Qed.

Lemma sub_step repl s :
  sub r repl s =
  match match_here r None s with
  | Some (s', cs) => repl cs ++ sub r repl s'
  | None => match s with [] => [] | c :: t => c :: sub r repl t end
  end.
Proof.
  unfold sub. rewrite matches_step.
  destruct (match_here r None s) as [[s' cs]|].
  - destruct (matches r s') as [fs tl]. simpl. now rewrite <- app_assoc.
  - destruct s as [|c t]; [reflexivity|].
    destruct (matches r t) as [[|f fs] tl]; reflexivity.
Qed.

Lemma findall2_step s :
  findall2 r s =
  match match_here r None s with
  | Some (s', cs) => (group 1 cs, group 2 cs) :: findall2 r s'
  | None => match s with [] => [] | c :: t => findall2 r t end
  end.
Proof.
  unfold findall2. rewrite matches_step.
  destruct (match_here r None s) as [[s' cs]|].
  - destruct (matches r s') as [fs tl]. reflexivity.
  - destruct s as [|c t]; [reflexivity|].
    destruct (matches r t) as [[|f fs] tl]; reflexivity.
Qed.

Lemma split1_step s :
  split1 r s =
  match match_here r None s with
  | Some (s', cs) => [] :: group 1 cs :: split1 r s'
  | None => match s with [] => [[]] | c :: t => cons_first c (split1 r t) end
  end.
Proof.
  unfold split1. rewrite matches_step.
  destruct (match_here r None s) as [[s' cs]|].
  - destruct (matches r s') as [fs tl]. reflexivity.
  - destruct s as [|c t]; [reflexivity|].
    destruct (matches r t) as [[|f fs] tl]; reflexivity.
Qed.

End Iteration.

(** * Patterns that begin with a literal *)

Section LiteralStart.

Variables (c : ascii) (l : text) (b : regex).
Let r := Cat (Lit (c :: l)) b.

Lemma last_char_cons prev prev' (x : ascii) (t : text) :
  last_char prev (x :: t) = last_char prev' (x :: t).
Proof.
  unfold last_char. simpl. destruct (rev t ++ [x]) eqn:E; [|reflexivity].
  destruct (rev t); discriminate.
Qed.

Lemma lit_start_prev_free prev s : match_here r prev s = match_here r None s.
Proof.
  unfold match_here, r. cbn [rmatch].
  destruct (strip_prefix (c :: l) s); [|reflexivity].
  now rewrite (last_char_cons prev None).
Qed.

Lemma lit_start_nonempty s s' cs :
  match_here r None s = Some (s', cs) -> length s' < length s.
Proof.
  unfold match_here, r. cbn [rmatch].
  destruct (strip_prefix (c :: l) s) as [u|] eqn:E; [|discriminate].
  apply strip_prefix_Some in E. subst s. intros H.
  apply rmatch_sound in H. destruct H as (p' & s1 & c1 & [= -> ->] & S1).
  apply is_suffix_length in S1. simpl. rewrite length_app. lia.
Qed.

End LiteralStart.

(** * Segmentation: [split_qa] *)

Section Segmentation.

Lemma occurs_suffix p s s' :
  occurs p s = false -> is_suffix s' s -> startswith p s' = false.
Proof.
  intros H [m ->]. induction m as [|x m IH]; simpl in *.
  - destruct s'; simpl in *; apply orb_false_iff in H; tauto.
  - apply orb_false_iff in H. tauto.
Qed.

Lemma occurs_app_r p m s : occurs p (m ++ s) = false -> occurs p s = false.
Proof.
  induction m as [|x m IH]; simpl; [tauto|].
  intros H. apply orb_false_iff in H. tauto.
Qed.

Lemma lazy_star_none R p prev s cs (k : cont R) :
  (forall prev' s', is_suffix s' s -> k prev' s' cs = None) ->
  lazy_star p prev s cs k = None.
Proof.
  revert prev. induction s as [|x s IH]; intros prev H; simpl.
  - now rewrite H by apply is_suffix_refl.
  - rewrite H by apply is_suffix_refl. destruct (p x); [|reflexivity].
    apply IH. intros p' s' S'. apply H. now apply is_suffix_cons.
Qed.

Lemma qa_prev_free prev s : match_here qa_pattern prev s = match_here qa_pattern None s.
Proof. apply lit_start_prev_free. Qed.

Lemma qa_nonempty s s' cs :
  match_here qa_pattern None s = Some (s', cs) -> length s' < length s.
Proof. apply lit_start_nonempty. Qed.

Lemma qa_needs_closer prev s :
  occurs (str "</Person1>") s = false -> match_here qa_pattern prev s = None.
Proof.
  intros H. unfold match_here, qa_pattern. cbn [rmatch].
  destruct (strip_prefix (str "<Person1>") s) as [u|] eqn:E; [|reflexivity].
  apply strip_prefix_Some in E. subst s. apply occurs_app_r in H.
  apply lazy_star_none. intros p' s' S'.
  rewrite strip_prefix_startswith, (occurs_suffix _ _ _ H S'). reflexivity.
Qed.

Lemma findall_needs_closer s :
  occurs (str "</Person1>") s = false -> findall2 qa_pattern s = [].
Proof.
  induction s as [|x s IH]; intros H;
    rewrite (@findall2_step qa_pattern qa_prev_free qa_nonempty), (qa_needs_closer None _ H).
  - reflexivity.
  - apply IH. simpl in H. apply orb_false_iff in H. tauto.
Qed.

End Segmentation.

(** C1, the claim as stated fails.  The transcript of the scenario holds
    one matched pair of role tags, and [split_qa] returns one turn for it,
    not two: the [<Person2>...</Person2>] segment that the code appends
    has no [<Person1>...</Person1>] before it, and the pattern pairs the
    two. *)
Theorem split_qa_count_at_scenario :
  length (findall2 qa_pattern (str "<Person1>Hi</Person1><Person2>Hello</Person2>")) = 1
  /\ length (split_qa (str "Bye") (str "<Person1>Hi</Person1><Person2>Hello</Person2>")) = 1.
Proof. split; vm_compute; reflexivity. Qed.

(** C2, the claim as stated fails.  On the scenario's transcript with the
    ending message Bye, [split_qa] returns the single turn (Hi, Hello);
    no turn with an empty first text and the ending message follows. *)
Theorem split_qa_at_scenario :
  split_qa (str "Bye") (str "<Person1>Hi</Person1><Person2>Hello</Person2>")
  = [(str "Hi", str "Hello")].
Proof. vm_compute. reflexivity. Qed.

(** C9, the claim as stated fails: a transcript with a complete pair
    followed by a [<Person1>] that is never closed still yields the turn of
    the pair. *)
Lemma split_qa_unclosed_after_pair :
  unclosed_person1 (str "<Person1>Hi</Person1><Person2>Hello</Person2><Person1>unclosed") = true
  /\ split_qa (str "Bye")
       (str "<Person1>Hi</Person1><Person2>Hello</Person2><Person1>unclosed")
     = [(str "Hi", str "Hello")].
Proof. split; vm_compute; reflexivity. Qed.

(** C9, amended.  When no [</Person1>] occurs in the text handed to the
    matcher (the transcript followed by the closing [<Person2>] segment),
    so that every [<Person1>] of the transcript is unclosed, [split_qa]
    returns no turn. *)
Theorem split_qa_without_closer ending_message input_text :
  occurs (str "</Person1>")
    (input_text ++ str "<Person2>" ++ ending_message ++ str "</Person2>") = false ->
  split_qa ending_message input_text = [].
Proof.
  intros H. unfold split_qa. now rewrite (findall_needs_closer _ H).
Qed.

Lemma split_qa_without_closer_witness :
  split_qa (str "Bye") (str "<Person1>Hi") = [].
Proof. apply split_qa_without_closer. vm_compute. reflexivity. Defined.

(** * The closing pass of the sanitizer *)

Section Closing.

Lemma strip_prefix_app_eq a b s :
  strip_prefix (a ++ b) s =
  match strip_prefix a s with Some s1 => strip_prefix b s1 | None => None end.
Proof.
  revert s. induction a as [|x a IH]; intros s; simpl; [reflexivity|].
  destruct s as [|y s]; [reflexivity|]. destruct (Ascii.eqb x y); auto.
Qed.

Lemma startswith_strip p s :
  startswith p s = match strip_prefix p s with Some _ => true | None => false end.
Proof. rewrite strip_prefix_startswith. now destruct (startswith p s). Qed.

Lemma startswith_app_eq a b s :
  startswith (a ++ b) s =
  match strip_prefix a s with Some s1 => startswith b s1 | None => false end.
Proof.
  rewrite startswith_strip, strip_prefix_app_eq.
  destruct (strip_prefix a s); [|reflexivity]. now rewrite startswith_strip.
Qed.

Lemma lookahead_boundary prev s cs :
  rmatch (Or (Cat (Lit (str "<")) (Cat (any_of default_tags) (Lit (str ">"))))
             EndOfString) prev s cs (fun _ _ c => Some c)
  = if boundary s then Some cs else None.
Proof.
  unfold boundary, opening, open_tag.
  rewrite !startswith_app_eq.
  cbn [rmatch any_of default_tags map]. unfold orelse.
  fold Person1 Person2.
  destruct (strip_prefix (str "<") s) as [s1|] eqn:E1.
  - apply strip_prefix_Some in E1. subst s.
    rewrite !startswith_app_eq.
    assert (A : at_end (str "<" ++ s1) = false) by now destruct s1.
    rewrite A.
    assert (B : match str "<" ++ s1 with
                | [] => Some cs
                | [c] => if Ascii.eqb c LF then Some cs else None
                | _ => None
                end = None) by now destruct s1.
    rewrite B.
    destruct (strip_prefix Person1 s1) as [s2|];
      destruct (strip_prefix Person2 s1) as [s3|];
      rewrite ?startswith_strip;
      repeat match goal with
             | |- context [strip_prefix (str ">") ?x] =>
                 destruct (strip_prefix (str ">") x)
             end; reflexivity.
  - destruct s as [|c [|d s]]; simpl; try reflexivity;
      now destruct (Ascii.eqb c LF).
Qed.

End Closing.

Section ClosePass.

Lemma content_rest s : content_to_boundary s ++ rest_at_boundary s = s.
Proof.
  induction s as [|c s IH]; simpl.
  - now destruct (boundary []).
  - destruct (boundary (c :: s)); simpl; [reflexivity|now rewrite IH].
Qed.

Lemma firstn_content s :
  firstn (length s - length (rest_at_boundary s)) s = content_to_boundary s.
Proof.
  rewrite <- (content_rest s) at 1 3. apply firstn_suffix.
Qed.

Lemma boundary_nil : boundary [] = true.
Proof. reflexivity. Qed.

Lemma lazy_to_boundary R prev u cs (k : cont R) (f : text -> R) :
  (forall p s, k p s cs = if boundary s then Some (f s) else None) ->
  lazy_star any_char prev u cs k = Some (f (rest_at_boundary u)).
Proof.
  intros K. revert prev. induction u as [|c u IH]; intros prev.
  - cbn [lazy_star rest_at_boundary]. now rewrite K, boundary_nil.
  - cbn [lazy_star rest_at_boundary]. rewrite K.
    destruct (boundary (c :: u)); [reflexivity|]. apply IH.
Qed.

Lemma rmatch_cat R a b prev s cs (k : cont R) :
  rmatch (Cat a b) prev s cs k
  = rmatch a prev s cs (fun p t c => rmatch b p t c k).
Proof. reflexivity. Qed.

Lemma rmatch_lit R l prev s cs (k : cont R) :
  rmatch (Lit l) prev s cs k
  = match strip_prefix l s with
    | Some s' => k (last_char prev l) s' cs
    | None => None
    end.
Proof. reflexivity. Qed.

Lemma rmatch_group_lazy R i p prev s cs (k : cont R) :
  rmatch (Group i (LazyStar p)) prev s cs k
  = lazy_star p prev s cs
      (fun p' s' cs' => k p' s' ((i, firstn (length s - length s') s) :: cs')).
Proof. reflexivity. Qed.

Lemma rmatch_ahead R a prev s cs (k : cont R) :
  rmatch (Ahead a) prev s cs k
  = match rmatch a prev s cs (fun _ _ cs' => Some cs') with
    | Some cs' => k prev s cs'
    | None => None
    end.
Proof. reflexivity. Qed.

Lemma closing_match tag prev s :
  match_here (closing_pattern default_tags tag) prev s =
  match strip_prefix (open_tag tag) s with
  | Some u => Some (rest_at_boundary u, [(1, content_to_boundary u)])
  | None => None
  end.
Proof.
  unfold match_here, closing_pattern. fold (open_tag tag).
  rewrite rmatch_cat, rmatch_lit.
  destruct (strip_prefix (open_tag tag) s) as [u|]; [|reflexivity].
  rewrite rmatch_cat, rmatch_group_lazy.
  rewrite (lazy_to_boundary _ _ _ _ _
             (fun s' => (s', [(1, firstn (length u - length s') u)]))).
  - now rewrite firstn_content.
  - intros p t. rewrite rmatch_ahead, lookahead_boundary.
    now destruct (boundary t).
Qed.

Lemma closing_prev_free tag prev s :
  match_here (closing_pattern default_tags tag) prev s =
  match_here (closing_pattern default_tags tag) None s.
Proof. now rewrite !closing_match. Qed.

Lemma closing_nonempty tag s s' cs :
  match_here (closing_pattern default_tags tag) None s = Some (s', cs) ->
  length s' < length s.
Proof. apply (lit_start_nonempty "<" (tag ++ str ">")). Qed.

Lemma close_tag_step tag s :
  close_tag default_tags s tag =
  match strip_prefix (open_tag tag) s with
  | Some u =>
      open_tag tag ++ content_to_boundary u ++ closing_tag tag
      ++ close_tag default_tags (rest_at_boundary u) tag
  | None =>
      match s with
      | [] => []
      | c :: t => c :: close_tag default_tags t tag
      end
  end.
Proof.
  unfold close_tag at 1.
  rewrite (@sub_step _ (closing_prev_free tag) (closing_nonempty tag)).
  rewrite closing_match.
  destruct (strip_prefix (open_tag tag) s) as [u|]; [|reflexivity].
  unfold open_tag, closing_tag, close_tag. cbn [group Nat.eqb].
  now rewrite <- !app_assoc.
Qed.

End ClosePass.

Section Scan.

Lemma default_tags_cases tag :
  In tag default_tags -> tag = Person1 \/ tag = Person2.
Proof. intros [<-|[<-|[]]]; auto. Qed.

(** The scan copies a speaker tag and a closing tag as they are. *)
Lemma scan_open tag i u :
  In tag default_tags ->
  close_scan tag i (open_tag tag ++ u)
  = (if i then closing_tag tag else []) ++ open_tag tag ++ close_scan tag true u.
Proof.
  intros H. destruct (default_tags_cases _ H) as [-> | ->];
    destruct i, u; reflexivity.
Qed.

Lemma scan_open_other tag other i u :
  In tag default_tags -> In other default_tags -> tag <> other ->
  close_scan tag i (open_tag other ++ u)
  = (if i then closing_tag tag else []) ++ open_tag other ++ close_scan tag false u.
Proof.
  intros H1 H2 N.
  destruct (default_tags_cases _ H1) as [-> | ->];
    destruct (default_tags_cases _ H2) as [-> | ->]; try congruence;
    destruct i, u; reflexivity.
Qed.

Lemma scan_closing tag other u :
  In tag default_tags -> In other default_tags ->
  close_scan tag false (closing_tag other ++ u)
  = closing_tag other ++ close_scan tag false u.
Proof.
  intros H1 H2.
  destruct (default_tags_cases _ H1) as [-> | ->];
    destruct (default_tags_cases _ H2) as [-> | ->];
    destruct u; reflexivity.
Qed.

End Scan.

Section ScanEquation.

Lemma scan_false_cons tag c s :
  close_scan tag false (c :: s)
  = c :: close_scan tag (startswith (open_tag tag) (c :: s)) s.
Proof. cbn [close_scan andb app]. now rewrite orb_false_r. Qed.

Lemma scan_plain tag c s :
  startswith (open_tag tag) (c :: s) = false ->
  close_scan tag false (c :: s) = c :: close_scan tag false s.
Proof. intros H. now rewrite scan_false_cons, H. Qed.

Lemma scan_inside tag u :
  close_scan tag true u
  = content_to_boundary u ++ closing_tag tag ++ close_scan tag false (rest_at_boundary u).
Proof.
  induction u as [|c u IH].
  - reflexivity.
  - cbn [close_scan content_to_boundary rest_at_boundary andb].
    destruct (boundary (c :: u)) eqn:B.
    + cbn [app negb andb]. now rewrite scan_false_cons, orb_false_r.
    + cbn [app negb andb]. rewrite orb_true_r. now rewrite IH.
Qed.

Lemma rest_at_boundary_length u : length (rest_at_boundary u) <= length u.
Proof.
  rewrite <- (content_rest u) at 2. rewrite length_app. lia.
Qed.

(** The closing pass of the source is the scan. *)
Lemma close_tag_scan tag :
  In tag default_tags ->
  forall s, close_tag default_tags s tag = close_scan tag false s.
Proof.
  intros H s. remember (length s) as n eqn:L. revert s L.
  induction n as [n IH] using lt_wf_ind. intros s L.
  rewrite close_tag_step.
  destruct (strip_prefix (open_tag tag) s) as [u|] eqn:E.
  - apply strip_prefix_Some in E. subst s.
    rewrite scan_open by assumption. cbn [app]. rewrite scan_inside.
    rewrite (IH (length (rest_at_boundary u))) with (s := rest_at_boundary u);
      [reflexivity| |reflexivity].
    subst n. rewrite length_app. pose proof (rest_at_boundary_length u).
    unfold open_tag. simpl. lia.
  - destruct s as [|c t]; [reflexivity|].
    rewrite scan_plain.
    + f_equal. apply (IH (length t)); [subst n; simpl; lia|reflexivity].
    + rewrite startswith_strip. now rewrite E.
Qed.

End ScanEquation.

Section Balance.

Variable tag : text.
Hypothesis tag_default : In tag default_tags.

Lemma opening_head s : opening s = true -> exists t, s = "<"%char :: t.
Proof.
  unfold opening. intros H. apply orb_true_iff in H.
  destruct H as [H|H]; apply startswith_true in H; destruct H as [t ->];
    eexists; reflexivity.
Qed.

Lemma boundary_blocks a w s :
  a <> "<"%char -> a <> LF -> boundary s = true -> startswith (a :: w) s = false.
Proof.
  intros N1 N2 B. unfold boundary in B. apply orb_true_iff in B.
  destruct B as [B|B].
  - apply opening_head in B. destruct B as [t ->]. simpl.
    destruct (Ascii.eqb_spec a "<"); [contradiction|reflexivity].
  - destruct s as [|c [|d s]]; try discriminate; [reflexivity|].
    simpl in B. apply Ascii.eqb_eq in B. subst c. simpl.
    destruct (Ascii.eqb_spec a LF); [contradiction|reflexivity].
Qed.

(** The scan inserts closing tags only: a word without [<] and newline
    is at the head of the result exactly when it was at the head of the
    text. *)
Lemma scan_keeps_prefix w :
  plain w -> forall i s, startswith w (close_scan tag i s) = startswith w s.
Proof.
  induction 1 as [|a w [N1 N2] Hw IH]; intros i s; [reflexivity|].
  destruct s as [|c s]; cbn [close_scan].
  - destruct (i && boundary []); [|reflexivity].
    simpl. destruct (Ascii.eqb_spec a "<"); [contradiction|reflexivity].
  - destruct (i && boundary (c :: s)) eqn:B.
    + apply andb_true_iff in B. destruct B as [_ B].
      rewrite (boundary_blocks a w _ N1 N2 B). simpl.
      destruct (Ascii.eqb_spec a "<"); [contradiction|reflexivity].
    + cbn [app startswith]. now rewrite IH.
Qed.

Lemma scan_keeps_word x w c i s :
  plain w ->
  startswith (x :: w) (c :: close_scan tag i s) = startswith (x :: w) (c :: s).
Proof. intros H. cbn [startswith]. now rewrite scan_keeps_prefix. Qed.

Lemma plain_open other : In other default_tags -> plain (other ++ str ">").
Proof.
  intros H. destruct (default_tags_cases _ H) as [-> | ->];
    repeat constructor; discriminate.
Qed.

Lemma plain_closing other : In other default_tags -> plain (str "/" ++ other ++ str ">").
Proof.
  intros H. destruct (default_tags_cases _ H) as [-> | ->];
    repeat constructor; discriminate.
Qed.

Lemma scan_keeps_open other c i s :
  In other default_tags ->
  startswith (open_tag other) (c :: close_scan tag i s)
  = startswith (open_tag other) (c :: s).
Proof. intros H. apply (scan_keeps_word "<"), plain_open, H. Qed.

Lemma scan_keeps_closing other c i s :
  In other default_tags ->
  startswith (closing_tag other) (c :: close_scan tag i s)
  = startswith (closing_tag other) (c :: s).
Proof. intros H. apply (scan_keeps_word "<"), plain_closing, H. Qed.

Lemma scan_keeps_opening c i s :
  opening (c :: close_scan tag i s) = opening (c :: s).
Proof.
  unfold opening. rewrite !scan_keeps_open; [reflexivity| |]; simpl; auto.
Qed.

Lemma closed_next_eq closer s :
  closed_next closer s =
  if startswith closer s then true
  else if opening s then false
  else match s with [] => false | _ :: s' => closed_next closer s' end.
Proof. destruct s; reflexivity. Qed.

Lemma balanced_eq t s :
  balanced t s =
  (if startswith (open_tag t) s
   then closed_next (closing_tag t) (skipn (length (open_tag t)) s)
   else true)
  && match s with [] => true | _ :: s' => balanced t s' end.
Proof. destruct s; reflexivity. Qed.

(** After [<tag>] the scan writes [</tag>] before the next opening. *)
Lemma scan_closes u : closed_next (closing_tag tag) (close_scan tag true u) = true.
Proof.
  induction u as [|c u IH].
  - cbn [close_scan andb]. rewrite boundary_nil.
    now rewrite closed_next_eq, startswith_app.
  - cbn [close_scan andb]. destruct (boundary (c :: u)) eqn:B.
    + now rewrite closed_next_eq, startswith_app.
    + cbn [app negb andb]. rewrite orb_true_r.
      cbn [closed_next]. rewrite scan_keeps_closing by assumption.
      rewrite scan_keeps_opening.
      unfold boundary in B. apply orb_false_iff in B. destruct B as [B _].
      rewrite B. rewrite IH. now destruct (startswith _ _).
Qed.

End Balance.

Section BalanceOfPasses.

Variables tag other : text.
Hypothesis tag_default : In tag default_tags.
Hypothesis other_default : In other default_tags.

Lemma skipn_prefix (l r : text) : skipn (length l) (l ++ r) = r.
Proof. induction l; simpl; auto. Qed.

Lemma balanced_closing rest :
  balanced other (closing_tag tag ++ rest) = balanced other rest.
Proof.
  destruct (default_tags_cases _ tag_default) as [-> | ->];
    destruct (default_tags_cases _ other_default) as [-> | ->]; reflexivity.
Qed.

Lemma balanced_nil : balanced other [] = true.
Proof. reflexivity. Qed.

Lemma opening_of_open s :
  startswith (open_tag other) s = true -> opening s = true.
Proof.
  intros H. unfold opening.
  destruct (default_tags_cases _ other_default) as [-> | ->];
    rewrite H; auto using orb_true_r.
Qed.

Lemma not_opening s :
  opening s = false -> startswith (open_tag tag) s = false.
Proof.
  unfold opening. intros H. apply orb_false_iff in H.
  destruct (default_tags_cases _ tag_default) as [-> | ->]; tauto.
Qed.

Lemma scan_after_open c s u :
  c :: s = open_tag tag ++ u ->
  c :: close_scan tag true s = open_tag tag ++ close_scan tag true u.
Proof.
  intros E.
  assert (O : startswith (open_tag tag) (c :: s) = true)
    by (rewrite E; apply startswith_app).
  pose proof (scan_false_cons tag c s) as Q. rewrite O in Q. rewrite <- Q, E.
  now rewrite scan_open.
Qed.

Lemma other_open_not_tag u :
  tag <> other -> startswith (open_tag tag) (open_tag other ++ u) = false.
Proof.
  intros N.
  destruct (default_tags_cases _ tag_default) as [-> | ->];
    destruct (default_tags_cases _ other_default) as [-> | ->];
    try congruence; reflexivity.
Qed.

Lemma scan_after_other c s u :
  tag <> other ->
  c :: s = open_tag other ++ u ->
  c :: close_scan tag false s = open_tag other ++ close_scan tag false u.
Proof.
  intros N E.
  assert (O : startswith (open_tag tag) (c :: s) = false)
    by (rewrite E; now apply other_open_not_tag).
  pose proof (scan_false_cons tag c s) as Q. rewrite O in Q.
  rewrite <- Q, E. now rewrite scan_open_other.
Qed.

(** The scan for [tag] keeps a closing [</other>] that was next. *)
Lemma scan_keeps_closed v :
  closed_next (closing_tag other) v = true ->
  closed_next (closing_tag other) (close_scan tag false v) = true.
Proof.
  induction v as [|c v IH]; intros H; [exact H|].
  rewrite closed_next_eq in H.
  destruct (startswith (closing_tag other) (c :: v)) eqn:S.
  - apply startswith_true in S. destruct S as [u E]. rewrite E.
    rewrite scan_closing by assumption.
    now rewrite closed_next_eq, startswith_app.
  - destruct (opening (c :: v)) eqn:Op; [discriminate|].
    rewrite scan_false_cons, (not_opening _ Op).
    cbn [closed_next].
    rewrite scan_keeps_closing, S, scan_keeps_opening, Op by assumption.
    now apply IH.
Qed.

Lemma balanced_scan_other s :
  tag <> other ->
  forall i, balanced other s = true -> balanced other (close_scan tag i s) = true.
Proof.
  intros N. induction s as [|c s IH]; intros i Hb; cbn [close_scan].
  - destruct (i && boundary []); cbn [app]; [|reflexivity].
    now rewrite balanced_closing.
  - cbn [balanced] in Hb. apply andb_true_iff in Hb. destruct Hb as [Hb1 Hb2].
    assert (G : forall f, f = startswith (open_tag tag) (c :: s)
                               || (i && negb (boundary (c :: s))) ->
                balanced other (c :: close_scan tag f s) = true).
    { intros f Hf. cbn [balanced]. rewrite IH, andb_true_r by assumption.
      rewrite scan_keeps_open by assumption.
      destruct (startswith (open_tag other) (c :: s)) eqn:O; [|reflexivity].
      pose proof (opening_of_open _ O) as Op.
      apply startswith_true in O. destruct O as [u E].
      assert (F : f = false).
      { subst f. rewrite E at 1. rewrite other_open_not_tag by assumption.
        unfold boundary. rewrite Op. now rewrite andb_false_r. }
      subst f. rewrite F.
      rewrite (scan_after_other _ _ _ N E), skipn_prefix.
      apply scan_keeps_closed. rewrite E, skipn_prefix in Hb1. exact Hb1. }
    destruct (i && boundary (c :: s)); cbn [app];
      [rewrite balanced_closing|]; now apply G.
Qed.

End BalanceOfPasses.

Section BalanceOfScan.

Variable tag : text.
Hypothesis tag_default : In tag default_tags.

Lemma balanced_scan s : forall i, balanced tag (close_scan tag i s) = true.
Proof.
  induction s as [|c s IH]; intros i; cbn [close_scan].
  - destruct (i && boundary []); cbn [app]; [|reflexivity].
    now rewrite balanced_closing.
  - assert (G : forall f, f = startswith (open_tag tag) (c :: s)
                               || (i && negb (boundary (c :: s))) ->
                balanced tag (c :: close_scan tag f s) = true).
    { intros f Hf. cbn [balanced]. rewrite IH, andb_true_r.
      rewrite scan_keeps_open by assumption.
      destruct (startswith (open_tag tag) (c :: s)) eqn:O; [|reflexivity].
      cbn [orb] in Hf. subst f.
      apply startswith_true in O. destruct O as [u E].
      rewrite (scan_after_open tag tag_default _ _ _ E), skipn_prefix.
      now apply scan_closes. }
    destruct (i && boundary (c :: s)); cbn [app];
      [rewrite balanced_closing by assumption|]; now apply G.
Qed.

End BalanceOfScan.

(** * [strip] and the balance of the tags *)

Section Strip.

Lemma lstrip_spec s : exists w, spaces w /\ s = w ++ lstrip s.
Proof.
  induction s as [|c s IH]; simpl.
  - exists []. split; [constructor|reflexivity].
  - destruct (is_space c) eqn:E.
    + destruct IH as (w & W & e). exists (c :: w). split.
      * now constructor.
      * simpl. now rewrite <- e.
    + exists []. split; [constructor|reflexivity].
Qed.

Lemma rstrip_spec s : exists w, spaces w /\ s = rstrip s ++ w.
Proof.
  unfold rstrip. destruct (lstrip_spec (rev s)) as (w & W & e).
  exists (rev w). split.
  - unfold spaces in *. rewrite Forall_forall in *. intros x Hx.
    apply W. now apply in_rev.
  - rewrite <- rev_app_distr, <- e. now rewrite rev_involutive.
Qed.

Lemma strip_spec s :
  exists w1 w2, spaces w1 /\ spaces w2 /\ s = w1 ++ strip s ++ w2.
Proof.
  unfold strip. destruct (lstrip_spec s) as (w1 & W1 & e1).
  destruct (rstrip_spec (lstrip s)) as (w2 & W2 & e2).
  exists w1, w2. repeat split; try assumption. now rewrite <- e2.
Qed.

Lemma startswith_spaces p : spaceless p -> forall a w,
  spaces w -> startswith p (a ++ w) = startswith p a.
Proof.
  induction 1 as [|x p X _ IH]; intros a w W; [reflexivity|].
  destruct a as [|y a]; simpl.
  - destruct W as [|z w Z _]; [reflexivity|]. simpl.
    destruct (Ascii.eqb_spec x z) as [->|]; [congruence|reflexivity].
  - now rewrite IH.
Qed.

Lemma spaceless_open tag : In tag default_tags -> spaceless (open_tag tag).
Proof.
  intros H. destruct (default_tags_cases _ H) as [-> | ->];
    repeat constructor.
Qed.

Lemma spaceless_closing tag : In tag default_tags -> spaceless (closing_tag tag).
Proof.
  intros H. destruct (default_tags_cases _ H) as [-> | ->];
    repeat constructor.
Qed.

Lemma opening_spaces a w : spaces w -> opening (a ++ w) = opening a.
Proof.
  intros W. unfold opening.
  rewrite !startswith_spaces; auto; apply spaceless_open; simpl; auto.
Qed.

Variable tag : text.
Hypothesis tag_default : In tag default_tags.

Lemma closing_not_nil : startswith (closing_tag tag) [] = false.
Proof. reflexivity. Qed.

Lemma closed_next_spaces v w :
  spaces w -> closed_next (closing_tag tag) (v ++ w) = closed_next (closing_tag tag) v.
Proof.
  intros W. induction v as [|c v IH].
  - cbn [app]. induction W as [|z w Z W IH]; [reflexivity|].
    rewrite closed_next_eq.
    pose proof (startswith_spaces _ (spaceless_closing tag tag_default) []
                  (z :: w) (Forall_cons _ Z W)) as S0.
    pose proof (opening_spaces [] (z :: w) (Forall_cons _ Z W)) as O0.
    cbn [app] in S0, O0. rewrite S0, O0, closing_not_nil.
    exact IH.
  - change ((c :: v) ++ w) with (c :: (v ++ w)).
    rewrite (closed_next_eq _ (c :: (v ++ w))), (closed_next_eq _ (c :: v)), IH.
    change (c :: (v ++ w)) with ((c :: v) ++ w).
    rewrite (startswith_spaces _ (spaceless_closing tag tag_default)), opening_spaces
      by assumption.
    reflexivity.
Qed.

Lemma balanced_without_spaces t w :
  spaces w -> balanced tag (t ++ w) = true -> balanced tag t = true.
Proof.
  intros W. induction t as [|c t IH]; intros H; [reflexivity|].
  rewrite balanced_eq in H. change ((c :: t) ++ w) with (c :: (t ++ w)) in H.
  apply andb_true_iff in H. destruct H as [H1 H2].
  cbn [balanced]. rewrite (IH H2), andb_true_r.
  change (c :: (t ++ w)) with ((c :: t) ++ w) in H1.
  rewrite (startswith_spaces _ (spaceless_open tag tag_default)) in H1 by assumption.
  destruct (startswith (open_tag tag) (c :: t)) eqn:O; [|reflexivity].
  apply startswith_true in O. destruct O as [u E]. rewrite E in *.
  rewrite <- app_assoc, skipn_prefix, closed_next_spaces in H1 by assumption.
  now rewrite skipn_prefix.
Qed.

Lemma balanced_tail w s : balanced tag (w ++ s) = true -> balanced tag s = true.
Proof.
  induction w as [|c w IH]; [auto|].
  cbn [app balanced]. intros H. apply andb_true_iff in H. apply IH, H.
Qed.

Lemma balanced_strip s : balanced tag s = true -> balanced tag (strip s) = true.
Proof.
  intros H. destruct (strip_spec s) as (w1 & w2 & W1 & W2 & e).
  rewrite e in H. apply balanced_tail in H.
  now apply balanced_without_spaces in H.
Qed.

Lemma balanced_spec o :
  balanced tag o = true ->
  forall pre suf, o = pre ++ open_tag tag ++ suf ->
  closed_next (closing_tag tag) suf = true.
Proof.
  intros H pre suf ->. apply balanced_tail in H.
  rewrite balanced_eq, startswith_app, skipn_prefix in H.
  now apply andb_true_iff in H.
Qed.

End Strip.

(** C6.  In the text returned by [clean_tss_markup], every opening
    [<Person1>] or [<Person2>] is followed by its closing tag before the
    next opening preserved tag and before the end of the text, whatever
    the input was. *)
Theorem clean_closes_every_tag input_text tag pre suf :
  In tag default_tags ->
  clean_tss_markup input_text = pre ++ open_tag tag ++ suf ->
  closed_next (closing_tag tag) suf = true.
Proof.
  intros Htag E. eapply balanced_spec; [|exact E].
  unfold clean_tss_markup, clean_tss_markup_with.
  apply balanced_strip; [assumption|].
  change (fold_left (close_tag default_tags) default_tags ?t)
    with (close_tag default_tags (close_tag default_tags t Person1) Person2).
  assert (P1 : In Person1 default_tags) by (simpl; auto).
  assert (P2 : In Person2 default_tags) by (simpl; auto).
  rewrite !close_tag_scan by assumption.
  destruct (default_tags_cases _ Htag) as [-> | ->].
  - apply balanced_scan_other; try assumption; [discriminate|].
    now apply balanced_scan.
  - now apply balanced_scan.
Qed.

Lemma clean_closes_every_tag_witness :
  closed_next (closing_tag Person1) (str "Hi</Person1><Person2>Yo</Person2>") = true.
Proof.
  apply (clean_closes_every_tag (str "<Person1>Hi<Person2>Yo") Person1 []).
  - simpl. auto.
  - vm_compute. reflexivity.
Defined.

(** * The overlay of the Google conversion *)

Section Overlay.




End Overlay.

Section OverlayTurns.



End OverlayTurns.






(** * Failure of a synthesis call in the sequential conversions *)

Section SynthesisFailure.

Variable listdir : files -> list text.
Variable cfg : config.
Variable svc : service.

Lemma save_keeps d r :
  outputs (run_world (save cfg d r)) = outputs (run_world r)
  /\ log (run_world (save cfg d r)) = log (run_world r).
Proof. split; reflexivity. Qed.



End SynthesisFailure.




(** * The natural sort key *)

Section DigitsPattern.

Lemma take_drop p s : take_while p s ++ drop_while p s = s.
Proof.
  induction s as [|c s IH]; simpl; [reflexivity|].
  destruct (p c); simpl; [now rewrite IH|reflexivity].
Qed.

Lemma take_while_all p s : Forall (fun c => p c = true) (take_while p s).
Proof.
  induction s as [|c s IH]; simpl; [constructor|].
  destruct (p c) eqn:E; [now constructor|constructor].
Qed.

Lemma take_while_app p ds c t :
  Forall (fun x => p x = true) ds -> p c = false ->
  take_while p (ds ++ c :: t) = ds /\ drop_while p (ds ++ c :: t) = c :: t.
Proof.
  intros H N. induction H as [|x ds X _ IH]; simpl.
  - now rewrite N.
  - rewrite X. destruct IH as [-> ->]. now split.
Qed.

Lemma star_total R p prev s cs (k : cont R) (f : text -> R) :
  (forall q t, k q t cs = Some (f t)) ->
  star p prev s cs k = Some (f (drop_while p s)).
Proof.
  intros K. revert prev. induction s as [|c s IH]; intros prev; simpl.
  - apply K.
  - destruct (p c); [|apply K]. now rewrite IH.
Qed.

Lemma digits_match prev s :
  match_here digits_pattern prev s =
  match s with
  | c :: s' =>
      if is_decimal c
      then Some (drop_while is_decimal s', [(1, c :: take_while is_decimal s')])
      else None
  | [] => None
  end.
Proof.
  unfold match_here, digits_pattern. cbn [rmatch].
  destruct s as [|c s]; [reflexivity|].
  destruct (is_decimal c); [|reflexivity].
  rewrite (star_total _ _ _ _ _ _
             (fun t => (t, [(1, firstn (length (c :: s) - length t) (c :: s))]))).
  - f_equal. f_equal. f_equal. f_equal.
    rewrite <- (take_drop is_decimal s) at 1 3.
    change (c :: take_while is_decimal s ++ drop_while is_decimal s)
      with ((c :: take_while is_decimal s) ++ drop_while is_decimal s).
    apply firstn_suffix.
  - reflexivity.
Qed.

Lemma digits_prev_free prev s :
  match_here digits_pattern prev s = match_here digits_pattern None s.
Proof. now rewrite !digits_match. Qed.

Lemma drop_while_length p s : length (drop_while p s) <= length s.
Proof.
  rewrite <- (take_drop p s) at 2. rewrite length_app. lia.
Qed.

Lemma digits_nonempty s s' cs :
  match_here digits_pattern None s = Some (s', cs) -> length s' < length s.
Proof.
  rewrite digits_match. destruct s as [|c s]; [discriminate|].
  destruct (is_decimal c); [|discriminate]. intros [= <- _].
  pose proof (drop_while_length is_decimal s). simpl. lia.
Qed.

Lemma split_digits s :
  split1 digits_pattern s =
  match s with
  | [] => [[]]
  | c :: s' =>
      if is_decimal c
      then [] :: (c :: take_while is_decimal s')
              :: split1 digits_pattern (drop_while is_decimal s')
      else cons_first c (split1 digits_pattern s')
  end.
Proof.
  rewrite (@split1_step _ digits_prev_free digits_nonempty), digits_match.
  destruct s as [|c s]; [reflexivity|]. now destruct (is_decimal c).
Qed.

Lemma split_digits_pieces s : pieces (split1 digits_pattern s).
Proof.
  remember (length s) as n eqn:L. revert s L.
  induction n as [n IH] using lt_wf_ind. intros s L.
  rewrite split_digits. destruct s as [|c s].
  - constructor. constructor.
  - destruct (is_decimal c) eqn:D.
    + constructor.
      * constructor.
      * discriminate.
      * constructor; [assumption|apply take_while_all].
      * apply (IH (length (drop_while is_decimal s))); [|reflexivity].
        pose proof (drop_while_length is_decimal s). subst n. simpl. lia.
    + assert (P : pieces (split1 digits_pattern s))
        by (apply (IH (length s)); [subst n; simpl; lia|reflexivity]).
      destruct P as [t T|t d l T N A P]; simpl; constructor;
        try assumption; now constructor.
Qed.

Lemma split_digits_concat s : concat (split1 digits_pattern s) = s.
Proof.
  remember (length s) as n eqn:L. revert s L.
  induction n as [n IH] using lt_wf_ind. intros s L.
  rewrite split_digits. destruct s as [|c s]; [reflexivity|].
  destruct (is_decimal c).
  - cbn [concat app].
    rewrite (IH (length (drop_while is_decimal s))); [|  |reflexivity].
    + now rewrite take_drop.
    + pose proof (drop_while_length is_decimal s). subst n. simpl. lia.
  - assert (P : concat (split1 digits_pattern s) = s)
      by (apply (IH (length s)); [subst n; simpl; lia|reflexivity]).
    destruct (split1 digits_pattern s) as [|t l]; simpl in *; now rewrite <- P.
Qed.

End DigitsPattern.

Section KeyParts.

Lemma int_aux_decimal d : all_decimal d -> forall acc, exists n, int_aux acc d = Some n.
Proof.
  induction 1 as [|c d C _ IH]; intros acc; simpl; [eauto|].
  rewrite C. apply IH.
Qed.

Lemma decimal_is_digit c : is_decimal c = true -> is_digit c = true.
Proof. unfold is_digit. now intros ->. Qed.

Lemma key_of_run d :
  d <> [] -> all_decimal d -> exists n, key_of_piece d = inr (KInt n).
Proof.
  intros N A. unfold key_of_piece, isdigit, int.
  destruct d as [|c d]; [congruence|].
  assert (F : forallb is_digit (c :: d) = true).
  { apply forallb_forall. intros x Hx. apply decimal_is_digit.
    unfold all_decimal in A. rewrite Forall_forall in A. now apply A. }
  rewrite F. destruct (int_aux_decimal _ A 0%N) as [n ->]. eauto.
Qed.

Lemma key_of_text t :
  no_decimal t ->
  key_of_piece t = inr (KStr t) \/ exists e, key_of_piece t = inl e.
Proof.
  intros N. unfold key_of_piece. destruct (isdigit t); [|now left].
  assert (I : int t = None).
  { destruct N as [|c t C _]; [reflexivity|]. unfold int. simpl. now rewrite C. }
  rewrite I. eauto.
Qed.

Lemma key_of_plain_text t :
  no_decimal t -> no_superscript t = true -> key_of_piece t = inr (KStr t).
Proof.
  intros N S. unfold key_of_piece.
  destruct t as [|c t]; [reflexivity|].
  unfold isdigit. cbn [forallb].
  inversion N as [|? ? C _]; subst.
  cbn [no_superscript forallb] in S. apply andb_true_iff in S. destruct S as [S _].
  rewrite C, orb_false_r in S. apply negb_true_iff in S. now rewrite S.
Qed.

Lemma keys_of_pieces l k :
  pieces l -> mapM key_of_piece l = inr k -> key_shape k.
Proof.
  intros P. revert k. induction P as [t T|t d l T N A P IH]; intros k.
  - cbn [mapM bind]. destruct (key_of_text _ T) as [-> | [e ->]]; [|discriminate].
    intros [= <-]. constructor.
  - cbn [mapM bind]. destruct (key_of_text _ T) as [-> | [e ->]]; [|discriminate].
    destruct (key_of_run _ N A) as [n ->].
    destruct (mapM key_of_piece l) as [e|k']; [discriminate|].
    intros [= <-]. constructor. now apply IH.
Qed.

Lemma no_superscript_app a b :
  no_superscript (a ++ b) = no_superscript a && no_superscript b.
Proof. apply forallb_app. Qed.

Lemma keys_of_plain_pieces l :
  pieces l -> no_superscript (concat l) = true ->
  exists k, mapM key_of_piece l = inr k.
Proof.
  induction 1 as [t T|t d l T N A P IH]; cbn [concat]; rewrite ?no_superscript_app;
    intros S.
  - apply andb_true_iff in S. destruct S as [S _].
    cbn [mapM]. rewrite (key_of_plain_text _ T S). cbn [bind]. eauto.
  - apply andb_true_iff in S. destruct S as [S1 S].
    apply andb_true_iff in S. destruct S as [_ S].
    cbn [mapM]. rewrite (key_of_plain_text _ T S1).
    destruct (key_of_run _ N A) as [n ->].
    destruct (IH S) as [k ->]. cbn [bind]. eauto.
Qed.

(** A key that is computed has the shape string, integer, ..., string. *)
Lemma natural_key_shape f k : natural_sort_key f = inr k -> key_shape k.
Proof. apply keys_of_pieces, split_digits_pieces. Qed.

(** The key of a name without superscript digits is computed. *)
Lemma natural_key_defined f :
  no_superscript f = true -> exists k, natural_sort_key f = inr k.
Proof.
  intros S. apply keys_of_plain_pieces.
  - apply split_digits_pieces.
  - now rewrite split_digits_concat.
Qed.

Lemma text_eqb_eq a b : text_eqb a b = true <-> a = b.
Proof.
  revert b. induction a as [|x a IH]; intros [|y b]; simpl;
    try (split; [discriminate|congruence]); [tauto|].
  rewrite andb_true_iff, IH, Ascii.eqb_eq. split; [intros [-> ->]|intros [= -> ->]]; auto.
Qed.

Lemma text_eqb_refl a : text_eqb a a = true.
Proof. now apply text_eqb_eq. Qed.

Lemma text_eqb_sym a b : text_eqb a b = text_eqb b a.
Proof.
  destruct (text_eqb a b) eqn:E.
  - apply text_eqb_eq in E. subst. now rewrite text_eqb_refl.
  - destruct (text_eqb b a) eqn:F; [|reflexivity].
    apply text_eqb_eq in F. subst. now rewrite text_eqb_refl in E.
Qed.

Lemma part_eqb_sym x y : part_eqb x y = part_eqb y x.
Proof.
  destruct x, y; simpl; auto using N.eqb_sym, text_eqb_sym.
Qed.

Lemma part_eqb_refl x : part_eqb x x = true.
Proof. destruct x; simpl; auto using N.eqb_refl, text_eqb_refl. Qed.

Lemma text_ltb_asym a b : text_ltb a b = true -> text_ltb b a = false.
Proof.
  revert b. induction a as [|x a IH]; intros [|y b]; simpl; try congruence.
  destruct (N.ltb_spec (code x) (code y)) as [L|L].
  - intros _. destruct (N.ltb_spec (code y) (code x)); [lia|].
    destruct (N.eqb_spec (code y) (code x)); [lia|reflexivity].
  - destruct (N.eqb_spec (code x) (code y)) as [E|E]; [|discriminate].
    intros H. rewrite E, N.ltb_irrefl, N.eqb_refl. now apply IH.
Qed.

Lemma text_ltb_neq a b : text_ltb a b = true -> text_eqb a b = false.
Proof.
  intros H. destruct (text_eqb a b) eqn:E; [|reflexivity].
  apply text_eqb_eq in E. subst.
  pose proof (text_ltb_asym _ _ H). congruence.
Qed.

Lemma key_lt_total a : key_shape a -> forall b, key_shape b ->
  exists r, key_lt a b = inr r.
Proof.
  induction 1 as [s|s n a A IH]; intros b B; destruct B as [t|t m b B]; simpl;
    try (destruct (text_eqb s t); eauto; fail).
  - destruct (text_eqb s t); eauto.
    destruct (N.eqb n m); eauto.
Qed.

Lemma key_lt_asym a : forall b, key_lt a b = inr true -> key_lt b a = inr false.
Proof.
  induction a as [|x a IH]; intros [|y b]; simpl; try congruence; auto.
  rewrite (part_eqb_sym y x). destruct (part_eqb x y) eqn:E; [apply IH|].
  destruct x as [m|s], y as [n|t]; simpl; try discriminate.
  - intros [= H]. f_equal. apply N.ltb_lt in H. apply N.ltb_ge. lia.
  - intros [= H]. f_equal. now apply text_ltb_asym.
Qed.

Lemma key_lt_irrefl a : key_shape a -> key_lt a a = inr false.
Proof.
  induction 1 as [s|s n a A IH]; simpl; rewrite text_eqb_refl; [reflexivity|].
  now rewrite N.eqb_refl.
Qed.

End KeyParts.

(** * [sorted] *)

Section Sorting.

Variable A : Type.

Let shaped := Forall (fun p : list key_part * A => key_shape (fst p)).

Lemma insert_keyed_ok (x : list key_part * A) l :
  key_shape (fst x) -> shaped l -> Sorted keyed_le l ->
  exists l', insert_keyed x l = inr l'
             /\ Permutation l' (x :: l)
             /\ Sorted keyed_le l'
             /\ (forall y, HdRel keyed_le y l -> keyed_le y x -> HdRel keyed_le y l').
Proof.
  intros X. induction l as [|y l IH]; intros F S.
  - exists [x]. split; [reflexivity|]. split; [reflexivity|].
    split; [repeat constructor|]. intros z _ Hz. now constructor.
  - inversion F as [|? ? Y F']; subst. apply Sorted_inv in S. destruct S as [S H].
    cbn [insert_keyed].
    destruct (key_lt_total _ Y _ X) as [b E]. rewrite E. cbn [bind].
    destruct b.
    + destruct (IH F' S) as (r & -> & P & Sr & Hr). cbn [bind].
      exists (y :: r). split; [reflexivity|]. split; [|split].
      * rewrite P. apply perm_swap.
      * constructor; [assumption|]. apply Hr; [assumption|].
        unfold keyed_le. now apply key_lt_asym.
      * intros z Hz _. constructor. now inversion Hz.
    + exists (x :: y :: l). split; [reflexivity|]. split; [reflexivity|]. split.
      * constructor; [now constructor|]. constructor. exact E.
      * intros z _ Hz. now constructor.
Qed.

Lemma sort_keyed_ok (l : list (list key_part * A)) :
  shaped l ->
  exists l', sort_keyed l = inr l' /\ Permutation l' l /\ Sorted keyed_le l'.
Proof.
  induction l as [|x l IH]; intros F.
  - exists []. repeat split; auto.
  - inversion F as [|? ? X F']; subst.
    destruct (IH F') as (r & E & P & S). cbn [sort_keyed]. rewrite E. cbn [bind].
    assert (Fr : shaped r).
    { eapply Permutation_Forall; [|exact F']. now symmetry. }
    destruct (insert_keyed_ok x r X Fr S) as (l' & -> & P' & S' & _).
    exists l'. split; [reflexivity|]. split; [|assumption].
    rewrite P'. now constructor.
Qed.

Variable key : A -> result (list key_part).

Lemma keys_computed l :
  (forall x, In x l -> exists k, key x = inr k /\ key_shape k) ->
  exists kl, mapM (fun x => k <- key x ;; inr (k, x)) l = inr kl
             /\ map snd kl = l
             /\ Forall (fun p => key (snd p) = inr (fst p) /\ key_shape (fst p)) kl.
Proof.
  induction l as [|x l IH]; intros H.
  - exists []. repeat split; auto.
  - destruct (H x (or_introl eq_refl)) as (k & E & K).
    destruct IH as (kl & M & S & F); [intros y Hy; apply H; now right|].
    exists ((k, x) :: kl). cbn [mapM]. rewrite E. cbn [bind]. rewrite M. cbn [bind].
    repeat split; [simpl; now rewrite S|]. constructor; auto.
Qed.

Lemma sorted_keyed_ordered sl :
  Forall (fun p => key (snd p) = inr (fst p) /\ key_shape (fst p)) sl ->
  Sorted keyed_le sl -> Sorted (ordered_by key) (map snd sl).
Proof.
  induction sl as [|p sl IH]; intros F S; [constructor|].
  inversion F as [|? ? [Kp _] F']; subst.
  apply Sorted_inv in S. destruct S as [S H].
  cbn [map]. constructor; [now apply IH|].
  destruct sl as [|q sl]; [constructor|].
  inversion F' as [|? ? [Kq _] _]; subst.
  constructor. exists (fst p), (fst q). repeat split; auto. now inversion H.
Qed.

(** When every key is computed, [sorted] returns a permutation of the
    list in which no element has a key less than its predecessor's. *)
Lemma sorted_ok l :
  (forall x, In x l -> exists k, key x = inr k /\ key_shape k) ->
  exists l', sorted key l = inr l'
             /\ Permutation l' l
             /\ Sorted (ordered_by key) l'.
Proof.
  intros H. destruct (keys_computed l H) as (kl & M & S & F).
  assert (Fs : shaped kl) by (eapply Forall_impl; [|exact F]; now intros p [_ K]).
  destruct (sort_keyed_ok kl Fs) as (sl & E & P & So).
  exists (map snd sl). unfold sorted. rewrite M. cbn [bind]. rewrite E. cbn [bind].
  repeat split.
  - rewrite <- S. now apply Permutation_map.
  - apply sorted_keyed_ordered; [|assumption].
    eapply Permutation_Forall; [|exact F]. now symmetry.
Qed.

End Sorting.

(** * [__merge_audio_files] *)

Section Merge.

Variable listdir : files -> list text.
Variable cfg : config.

Lemma filter_permutation (A : Type) (f : A -> bool) l l' :
  Permutation l l' -> Permutation (filter f l) (filter f l').
Proof.
  induction 1 as [|x l l' P IH|x y l|l l' l'' P IH P' IH']; simpl.
  - constructor.
  - destruct (f x); [now constructor|assumption].
  - destruct (f x), (f y); try reflexivity. apply perm_swap.
  - now rewrite IH.
Qed.

Lemma lookup_in f fs : In f (names fs) -> exists d, lookup f fs = Some d.
Proof.
  induction fs as [|[n d] fs IH]; simpl; [tauto|].
  intros [->|H].
  - rewrite text_eqb_refl. eauto.
  - destruct (text_eqb n f); eauto.
Qed.

Lemma merge_fold w l :
  (forall f, In f l -> endswith f (extension cfg) = true /\ In f (names (temp_dir w))) ->
  forall acc,
    fold_left (fun c f => merge_step cfg w f c) l (inr acc)
    = inr (acc ++ concat (contents (temp_dir w) l)).
Proof.
  induction l as [|f l IH]; intros H acc; cbn [fold_left contents concat].
  - now rewrite app_nil_r.
  - destruct (H f (or_introl eq_refl)) as [E I].
    destruct (lookup_in _ _ I) as [d L].
    unfold merge_step at 2. cbn [bind]. rewrite E. unfold from_file. rewrite L.
    cbn [bind concat]. rewrite IH by (intros g Hg; apply H; now right).
    now rewrite app_assoc.
Qed.

(** The merge takes every file of the directory whose name ends with the
    extension, in the order of their keys, and writes their contents end
    to end. *)
Lemma merge_ok output_file w :
  Permutation (listdir (temp_dir w)) (names (temp_dir w)) ->
  (forall f, In f (names (temp_dir w)) -> endswith f (extension cfg) = true ->
             no_superscript f = true) ->
  exists audio_files,
    sorted natural_sort_key (selected listdir cfg w) = inr audio_files
    /\ Permutation audio_files
         (filter (fun f => endswith f (extension cfg)) (names (temp_dir w)))
    /\ Sorted key_le audio_files
    /\ merge_audio_files listdir cfg output_file w
       = (log_line (str "Merged audio saved to " ++ output_file)
            (export_file cfg output_file (concat (contents (temp_dir w) audio_files)) w),
          inr tt).
Proof.
  intros P S.
  assert (Q : Permutation (selected listdir cfg w)
                (filter (fun f => endswith f (extension cfg)) (names (temp_dir w))))
    by (unfold selected; now apply filter_permutation).
  destruct (sorted_ok text natural_sort_key (selected listdir cfg w)) as (l & E & Pl & Sl).
  { intros f Hf. apply (Permutation_in _ Q) in Hf. apply filter_In in Hf.
    destruct Hf as [I En]. destruct (natural_key_defined f (S f I En)) as [k K].
    exists k. split; [assumption|]. eapply natural_key_shape; eassumption. }
  exists l. split; [assumption|]. split; [now rewrite Pl|]. split; [assumption|].
  unfold merge_audio_files, merge_try. rewrite E.
  rewrite merge_fold; [reflexivity|].
  intros f Hf. apply (Permutation_in _ Pl), (Permutation_in _ Q), filter_In in Hf.
  tauto.
Qed.

End Merge.



(** * Decimal numerals *)

Section Numerals.

Lemma digit_char_decimal d : (d < 10)%N -> is_decimal (digit_char d) = true.
Proof.
  intros H. unfold is_decimal, between, code, digit_char.
  rewrite N_ascii_embedding by lia.
  apply andb_true_iff. split; apply N.leb_le; lia.
Qed.

Lemma digit_char_code d : (d < 10)%N -> (code (digit_char d) - 48 = d)%N.
Proof.
  intros H. unfold code, digit_char. rewrite N_ascii_embedding by lia. lia.
Qed.

Lemma int_aux_app a s1 s2 :
  int_aux a (s1 ++ s2)
  = match int_aux a s1 with Some b => int_aux b s2 | None => None end.
Proof.
  revert a. induction s1 as [|c s1 IH]; intros a; simpl; [reflexivity|].
  destruct (is_decimal c); [apply IH|reflexivity].
Qed.

Lemma str_of_N_aux_spec fuel : forall n acc,
  (n < 2 ^ N.of_nat fuel)%N -> fuel <> 0 ->
  exists ds, str_of_N_aux fuel n acc = ds ++ acc
             /\ ds <> [] /\ all_decimal ds
             /\ forall a, int_aux a ds = Some (a * 10 ^ N.of_nat (length ds) + n)%N.
Proof.
  induction fuel as [|fuel IH]; intros n acc L F; [congruence|].
  cbn [str_of_N_aux].
  assert (M : (n mod 10 < 10)%N) by (apply N.mod_lt; lia).
  destruct (N.ltb_spec n 10) as [Lt|Ge].
  - exists [digit_char (n mod 10)]. rewrite N.mod_small by assumption.
    split; [reflexivity|]. split; [discriminate|]. split.
    + constructor; [now apply digit_char_decimal|constructor].
    + intros a. simpl. rewrite digit_char_decimal, digit_char_code by assumption.
      reflexivity.
  - assert (D : (n / 10 < 2 ^ N.of_nat fuel)%N).
    { apply N.Div0.div_lt_upper_bound.
      rewrite Nat2N.inj_succ, N.pow_succ_r' in L. lia. }
    assert (F' : fuel <> 0).
    { intros ->. simpl in D. assert (1 <= n / 10)%N; [|lia].
      apply N.div_le_lower_bound; lia. }
    destruct (IH (n / 10)%N (digit_char (n mod 10) :: acc) D F')
      as (ds & E & N0 & A & I).
    exists (ds ++ [digit_char (n mod 10)]). rewrite E, <- app_assoc.
    split; [reflexivity|]. split; [now destruct ds|]. split.
    + apply Forall_app. split; [assumption|].
      constructor; [now apply digit_char_decimal|constructor].
    + intros a. rewrite int_aux_app, I. simpl.
      rewrite digit_char_decimal, digit_char_code by assumption.
      f_equal. rewrite length_app. simpl.
      rewrite Nat2N.inj_add. simpl N.of_nat. rewrite N.pow_add_r.
      pose proof (N.div_mod n 10). lia.
Qed.

(** [str(n)] is a non-empty decimal numeral that [int] reads back. *)
Lemma str_of_N_spec n :
  str_of_N n <> [] /\ all_decimal (str_of_N n) /\ int (str_of_N n) = Some n.
Proof.
  unfold str_of_N.
  destruct (str_of_N_aux_spec (S (N.to_nat (N.log2 n))) n []) as (ds & E & N0 & A & I).
  - rewrite Nat2N.inj_succ, N2Nat.id.
    destruct n as [|p]; [reflexivity|].
    now destruct (N.log2_spec (N.pos p) eq_refl).
  - discriminate.
  - rewrite E, app_nil_r. repeat split; try assumption.
    unfold int. destruct ds; [congruence|]. now rewrite I.
Qed.

End Numerals.

(** * The names of the clips of a run *)

Section ClipNames.

Variable cfg : config.
Hypothesis format_plain : no_superscript (audio_format cfg) = true.

Lemma endswith_app (x p : text) : endswith (x ++ p) p = true.
Proof. unfold endswith. rewrite rev_app_distr. apply startswith_app. Qed.

Lemma clip_name_ext i : endswith (clip_name cfg i) (extension cfg) = true.
Proof. apply endswith_app. Qed.

Lemma clip_name_inj i j : clip_name cfg i = clip_name cfg j -> i = j.
Proof.
  unfold clip_name. intros H. apply app_inv_tail in H.
  destruct (str_of_N_spec i) as (_ & _ & Ii).
  destruct (str_of_N_spec j) as (_ & _ & Ij). congruence.
Qed.

Lemma all_decimal_plain ds : all_decimal ds -> no_superscript ds = true.
Proof.
  intros A. apply forallb_forall. intros c Hc.
  unfold all_decimal in A. rewrite Forall_forall in A.
  rewrite (A c Hc). apply orb_true_r.
Qed.

Lemma extension_plain : no_superscript (extension cfg) = true.
Proof. unfold extension. now rewrite no_superscript_app, format_plain. Qed.

Lemma clip_name_plain i : no_superscript (clip_name cfg i) = true.
Proof.
  unfold clip_name. rewrite no_superscript_app, extension_plain.
  destruct (str_of_N_spec i) as (_ & A & _). now rewrite all_decimal_plain.
Qed.

Lemma clip_key i kext :
  natural_sort_key (extension cfg) = inr kext ->
  natural_sort_key (clip_name cfg i) = inr (KStr [] :: KInt i :: kext).
Proof.
  unfold natural_sort_key, clip_name. intros K.
  destruct (str_of_N_spec i) as (N0 & A & I).
  destruct (str_of_N i) as [|c ds] eqn:E; [congruence|].
  inversion A as [|? ? C A']; subst.
  change ((c :: ds) ++ extension cfg) with (c :: (ds ++ extension cfg)).
  rewrite split_digits, C.
  change (extension cfg) with ("."%char :: audio_format cfg) at 1 2.
  destruct (take_while_app is_decimal ds "." (audio_format cfg) A' eq_refl) as [-> ->].
  change ("."%char :: audio_format cfg) with (extension cfg).
  cbn [mapM]. rewrite K.
  assert (K1 : key_of_piece [] = inr (KStr [])) by reflexivity.
  assert (K2 : key_of_piece (c :: ds) = inr (KInt i)).
  { unfold key_of_piece. rewrite I.
    assert (F : isdigit (c :: ds) = true).
    { unfold isdigit. apply forallb_forall. intros x Hx. apply decimal_is_digit.
      unfold all_decimal in A. rewrite Forall_forall in A. now apply A. }
    now rewrite F. }
  rewrite K1, K2. reflexivity.
Qed.

Lemma extension_key :
  exists kext, natural_sort_key (extension cfg) = inr kext /\ key_shape kext.
Proof.
  destruct (natural_key_defined _ extension_plain) as [k K].
  exists k. split; [assumption|]. eapply natural_key_shape; eassumption.
Qed.

Lemma clip_key_le i j : key_le (clip_name cfg i) (clip_name cfg j) -> (i <= j)%N.
Proof.
  destruct extension_key as (kext & K & Sh).
  intros (ka & kb & Ka & Kb & L).
  rewrite (clip_key i kext K) in Ka. rewrite (clip_key j kext K) in Kb.
  injection Ka as <-. injection Kb as <-.
  cbn [key_lt part_eqb text_eqb] in L.
  destruct (N.eqb_spec j i) as [->|Ne]; [lia|].
  cbn [part_lt] in L. injection L as L. apply N.ltb_ge in L. exact L.
Qed.

Lemma sorted_unique (l1 : list N) : forall l2,
  StronglySorted N.le l1 -> StronglySorted N.le l2 -> Permutation l1 l2 -> l1 = l2.
Proof.
  induction l1 as [|x l1 IH]; intros l2 S1 S2 P.
  - apply Permutation_nil in P. now subst.
  - destruct l2 as [|y l2]; [symmetry in P; now apply Permutation_nil in P|].
    apply StronglySorted_inv in S1. destruct S1 as [S1 F1].
    apply StronglySorted_inv in S2. destruct S2 as [S2 F2].
    rewrite Forall_forall in F1, F2.
    assert (x = y).
    { assert (Hy : In y (x :: l1)) by (eapply Permutation_in; [symmetry; exact P|now left]).
      assert (Hx : In x (y :: l2)) by (eapply Permutation_in; [exact P|now left]).
      destruct Hy as [->|Hy]; [reflexivity|]. destruct Hx as [->|Hx]; [reflexivity|].
      apply F1 in Hy. apply F2 in Hx. lia. }
    subst y. f_equal. apply IH; try assumption. eapply Permutation_cons_inv, P.
Qed.

Lemma sorted_counters cs :
  Sorted key_le (map (clip_name cfg) cs) -> StronglySorted N.le cs.
Proof.
  intros S. apply Sorted_StronglySorted; [intros a b c; apply N.le_trans|].
  induction cs as [|a cs IH]; [constructor|].
  cbn [map] in S. apply Sorted_inv in S. destruct S as [S H].
  constructor; [now apply IH|].
  destruct cs as [|b cs]; [constructor|].
  constructor. apply clip_key_le. now inversion H.
Qed.

(** Sorted by their keys, the clips of a run come in the order of their
    numbers. *)
Lemma sorted_clip_names l cs :
  Permutation l (map (clip_name cfg) cs) -> Sorted key_le l ->
  StronglySorted N.le cs -> l = map (clip_name cfg) cs.
Proof.
  intros P S C. apply Permutation_map_inv in P. destruct P as (cs' & -> & P).
  f_equal. apply sorted_unique; try assumption.
  - now apply sorted_counters.
  - now symmetry.
Qed.

Lemma numbers_sorted n : forall a, StronglySorted N.le (numbers a n).
Proof.
  induction n as [|n IH]; intros a; cbn [numbers]; constructor; [apply IH|].
  assert (G : forall m b, (a <= b)%N -> Forall (N.le a) (numbers b m)).
  { induction m as [|m IHm]; intros b L; cbn [numbers]; constructor;
      [assumption|apply IHm; lia]. }
  apply G. lia.
Qed.

Lemma numbers_above n : forall a x, In x (numbers a n) -> (a <= x)%N.
Proof.
  induction n as [|n IH]; intros a x; cbn [numbers In]; [tauto|].
  intros [<-|H]; [lia|]. apply IH in H. lia.
Qed.

Lemma numbers_length n a : length (numbers a n) = n.
Proof. revert a. induction n; intros a; simpl; auto. Qed.

End ClipNames.

(** * The sequential conversions when every call succeeds *)

Section Files.

Lemma text_eqb_neq (a b : text) : a <> b -> text_eqb a b = false.
Proof.
  intros N. destruct (text_eqb a b) eqn:E; [|reflexivity].
  apply text_eqb_eq in E. contradiction.
Qed.

Lemma write_file_new n d fs : ~ In n (names fs) -> write_file n d fs = fs ++ [(n, d)].
Proof.
  induction fs as [|[m e] fs IH]; simpl; intros H; [reflexivity|].
  rewrite text_eqb_neq by tauto. now rewrite IH by tauto.
Qed.

Lemma lookup_write n d fs : lookup n (write_file n d fs) = Some d.
Proof.
  induction fs as [|[m e] fs IH]; simpl.
  - now rewrite text_eqb_refl.
  - destruct (text_eqb m n) eqn:E; simpl; rewrite E; auto.
Qed.

Lemma lookup_none n fs : ~ In n (names fs) -> lookup n fs = None.
Proof.
  induction fs as [|[m e] fs IH]; simpl; intros H; [reflexivity|].
  rewrite text_eqb_neq by tauto. apply IH. tauto.
Qed.

Lemma lookup_app n fs gs :
  lookup n (fs ++ gs) = match lookup n fs with Some d => Some d | None => lookup n gs end.
Proof.
  induction fs as [|[m e] fs IH]; simpl; [reflexivity|].
  now destruct (text_eqb m n).
Qed.

Lemma names_app fs gs : names (fs ++ gs) = names fs ++ names gs.
Proof. apply map_app. Qed.

Lemma names_combine (ns : list text) (ds : list AudioSegment) :
  length ns = length ds -> names (combine ns ds) = ns.
Proof.
  revert ds. induction ns as [|n ns IH]; intros [|d ds]; simpl; try discriminate; auto.
  intros [= H]. now rewrite IH.
Qed.

Lemma filter_none (A : Type) (p : A -> bool) l :
  (forall x, In x l -> p x = false) -> filter p l = [].
Proof.
  induction l as [|x l IH]; simpl; intros H; [reflexivity|].
  rewrite H by now left. apply IH. intros y Hy. apply H. now right.
Qed.

Lemma filter_all (A : Type) (p : A -> bool) l :
  (forall x, In x l -> p x = true) -> filter p l = l.
Proof.
  induction l as [|x l IH]; simpl; intros H; [reflexivity|].
  rewrite H by now left. f_equal. apply IH. intros y Hy. apply H. now right.
Qed.

End Files.

Section Saved.

Variable cfg : config.

Abbreviation name := (clip_name cfg).

Lemma fresh_after a d fs :
  (forall i, (a <= i)%N -> ~ In (name i) (names fs)) ->
  forall i, (a + 1 <= i)%N -> ~ In (name i) (names (fs ++ [(name a, d)])).
Proof.
  intros H i L. rewrite names_app, in_app_iff. simpl. intros [I|[E|[]]].
  - apply (H i); [lia|assumption].
  - apply clip_name_inj in E. lia.
Qed.

Lemma contents_clips ds : forall a fs,
  (forall i, (a <= i)%N -> ~ In (name i) (names fs)) ->
  contents (fs ++ combine (map name (numbers a (length ds))) ds)
    (map name (numbers a (length ds))) = ds.
Proof.
  induction ds as [|d ds IH]; intros a fs H; [reflexivity|].
  cbn [length numbers map combine contents].
  rewrite lookup_app, (lookup_none _ _ (H a (N.le_refl a))).
  cbn [lookup]. rewrite text_eqb_refl. f_equal.
  change (fs ++ (name a, d) :: ?l) with (fs ++ [(name a, d)] ++ l).
  rewrite app_assoc. apply IH. now apply fresh_after.
Qed.

Lemma saved_spec clips : forall r,
  (forall i, (counter r + 1 <= i)%N -> ~ In (name i) (names (temp_dir (run_world r)))) ->
  temp_dir (run_world (saved cfg clips r))
  = temp_dir (run_world r)
    ++ combine (map name (numbers (counter r + 1) (length clips))) clips
  /\ audio_files (saved cfg clips r)
     = audio_files r ++ map name (numbers (counter r + 1) (length clips))
  /\ outputs (run_world (saved cfg clips r)) = outputs (run_world r)
  /\ log (run_world (saved cfg clips r)) = log (run_world r).
Proof.
  induction clips as [|d clips IH]; intros r H.
  - cbn. rewrite !app_nil_r. auto.
  - cbn [saved fold_left]. fold (saved cfg clips (save cfg d r)).
    assert (W : temp_dir (run_world (save cfg d r))
                = temp_dir (run_world r) ++ [(name (counter r + 1)%N, d)]).
    { cbn [save run_world temp_dir]. apply write_file_new, H. lia. }
    destruct (IH (save cfg d r)) as (T & A & O & L).
    { rewrite W. cbn [save counter]. now apply fresh_after. }
    rewrite T, A, O, L, W. cbn [save counter audio_files run_world outputs log].
    cbn [length numbers map combine]. rewrite <- !app_assoc. auto.
Qed.

End Saved.

Section SequentialRun.

Variable listdir : files -> list text.
Variable cfg : config.
Variable svc : service.

Hypothesis listdir_lists : forall fs, Permutation (listdir fs) (names fs).
Hypothesis format_plain : no_superscript (audio_format cfg) = true.

Lemma openai_loop_ok qa : forall r clips,
  mapM (call svc cfg) (calls_of cfg qa) = inr clips ->
  for_each (openai_turn cfg svc) qa r = (saved cfg clips r, inr tt).
Proof.
  induction qa as [|[q a] qa IH]; intros r clips.
  - intros [= <-]. reflexivity.
  - cbn [calls_of flat_map app fst snd mapM]. unfold call at 1 2. cbn [fst snd].
    cbn [for_each openai_turn openai_line].
    destruct (svc (tts_model cfg) (question_voice cfg) q) as [e1|d1]; [discriminate|].
    destruct (svc (tts_model cfg) (answer_voice cfg) a) as [e2|d2]; [discriminate|].
    cbn [bind]. fold (calls_of cfg qa).
    destruct (mapM (call svc cfg) (calls_of cfg qa)) as [e|ds] eqn:M; [discriminate|].
    cbn [bind]. intros [= <-]. rewrite (IH _ ds eq_refl). reflexivity.
Qed.

Lemma elevenlabs_loop_ok qa : forall r clips,
  mapM (call svc cfg) (calls_of cfg qa) = inr clips ->
  for_each (elevenlabs_turn cfg svc) qa r = (saved cfg clips r, inr tt).
Proof.
  induction qa as [|[q a] qa IH]; intros r clips.
  - intros [= <-]. reflexivity.
  - cbn [calls_of flat_map app fst snd mapM]. unfold call at 1 2. cbn [fst snd].
    cbn [for_each elevenlabs_turn].
    destruct (svc (tts_model cfg) (question_voice cfg) q) as [e1|d1]; [discriminate|].
    destruct (svc (tts_model cfg) (answer_voice cfg) a) as [e2|d2]; [discriminate|].
    cbn [bind]. fold (calls_of cfg qa).
    destruct (mapM (call svc cfg) (calls_of cfg qa)) as [e|ds] eqn:M; [discriminate|].
    cbn [bind]. intros [= <-]. rewrite (IH _ ds eq_refl). reflexivity.
Qed.

(** After the clips of a run were saved in a directory that held no file
    with the extension, the tail of the conversion writes them end to end,
    in the order of the calls. *)
Lemma finish_ok output_file w clips :
  (forall f, In f (names (temp_dir w)) -> endswith f (extension cfg) = false) ->
  in_temp_audio_dir cfg output_file = None ->
  exists w',
    finish listdir cfg output_file (saved cfg clips (Run w 0%N [])) = (w', inr tt)
    /\ lookup output_file (outputs w') = Some (concat clips).
Proof.
  intros Fresh Out.
  set (r := saved cfg clips (Run w 0%N [])).
  set (ns := map (clip_name cfg) (numbers 1 (length clips))).
  assert (New : forall i, (1 <= i)%N -> ~ In (clip_name cfg i) (names (temp_dir w))).
  { intros i _ I. apply Fresh in I. rewrite clip_name_ext in I. discriminate. }
  destruct (saved_spec cfg clips (Run w 0%N []) New) as (T & A & O & L).
  fold r in T, A, O, L. cbn [run_world counter temp_dir N.add] in T. fold ns in T.
  assert (Len : length ns = length clips)
    by (unfold ns; now rewrite length_map, numbers_length).
  assert (Nm : names (temp_dir (run_world r)) = names (temp_dir w) ++ ns)
    by (rewrite T, names_app, names_combine; auto).
  assert (Sel : filter (fun f => endswith f (extension cfg))
                  (names (temp_dir (run_world r))) = ns).
  { rewrite Nm, filter_app, (filter_none _ _ _ Fresh), filter_all; [reflexivity|].
    intros f Hf. unfold ns in Hf. apply in_map_iff in Hf.
    destruct Hf as (i & <- & _). apply clip_name_ext. }
  destruct (merge_ok listdir cfg output_file (run_world r)) as (l & _ & P & S & M).
  - apply listdir_lists.
  - intros f I E. rewrite Nm in I. apply in_app_iff in I. destruct I as [I|I].
    + apply Fresh in I. congruence.
    + unfold ns in I. apply in_map_iff in I. destruct I as (i & <- & _).
      now apply clip_name_plain.
  - rewrite Sel in P.
    assert (l = ns)
      by (apply sorted_clip_names; auto using numbers_sorted).
    subst l. unfold finish. rewrite M.
    eexists. split; [reflexivity|].
    unfold export_file. rewrite Out.
    cbn [log_line cleanup export outputs]. rewrite lookup_write.
    rewrite T. unfold ns. now rewrite contents_clips.
Qed.

End SequentialRun.

(** C7, the claim as stated fails.  Both runs below return normally.
    In the first the temporary directory holds a clip of an earlier run,
    [3.mp3]: the one turn of the transcript gives the clips 2 and 5, and
    the output holds a third clip after them, so that it is longer than
    the clips of the run together.  In the second the output path names
    the first clip of the run, in the temporary directory: the merged
    audio is written over that clip and removed with the clips, and no
    assembled track is left. *)
Lemma sequential_assembly_takes_stale_clips :
  (let w := World [(str "3.mp3", [77%Z])] [] [] in
   let w' := fst (convert_to_speech_openai names example_config
                    (fun _ _ t => inr [Z.of_nat (length t)])
                    (str "<Person1>Hi</Person1><Person2>Hello</Person2>")
                    (str "out.mp3") w) in
   mapM (call (fun _ _ t => inr [Z.of_nat (length t)]) example_config)
     (calls_of example_config
        (split_qa (ending_message example_config)
           (str "<Person1>Hi</Person1><Person2>Hello</Person2>")))
   = inr [[2]; [5]]%Z
   /\ snd (convert_to_speech_openai names example_config
             (fun _ _ t => inr [Z.of_nat (length t)])
             (str "<Person1>Hi</Person1><Person2>Hello</Person2>")
             (str "out.mp3") w) = inr tt
   /\ lookup (str "out.mp3") (outputs w') = Some [2; 5; 77]%Z)
  /\ (let w' := fst (convert_to_speech_openai names example_config
                       (fun _ _ t => inr [Z.of_nat (length t)])
                       (str "<Person1>Hi</Person1><Person2>Hello</Person2>")
                       (str "data/audio/tmp/1.mp3") empty_world) in
      snd (convert_to_speech_openai names example_config
             (fun _ _ t => inr [Z.of_nat (length t)])
             (str "<Person1>Hi</Person1><Person2>Hello</Person2>")
             (str "data/audio/tmp/1.mp3") empty_world) = inr tt
      /\ temp_dir w' = [] /\ outputs w' = []).
Proof. vm_compute. repeat split. Qed.

(** C7, amended.  When every call of the service succeeds, the temporary
    directory holds no file with the extension of the audio format at the
    start (the format has no superscript digit) and the output path is
    not one of that directory, each sequential conversion writes to the
    output file the clips of the calls end to end, in the order of the
    turns and with the question before the answer within a turn; the
    number of frames of the result is the sum of the numbers of frames of
    the clips. *)
Theorem sequential_assembly_concatenates listdir cfg svc input output_file w clips :
  (forall fs, Permutation (listdir fs) (names fs)) ->
  no_superscript (audio_format cfg) = true ->
  (forall f, In f (names (temp_dir w)) -> endswith f (extension cfg) = false) ->
  in_temp_audio_dir cfg output_file = None ->
  mapM (call svc cfg) (calls_of cfg (split_qa (ending_message cfg) input)) = inr clips ->
  (exists w',
      convert_to_speech_openai listdir cfg svc input output_file w = (w', inr tt)
      /\ lookup output_file (outputs w') = Some (concat clips))
  /\ (exists w',
         convert_to_speech_elevenlabs listdir cfg svc input output_file w = (w', inr tt)
         /\ lookup output_file (outputs w') = Some (concat clips))
  /\ length (concat clips) = list_sum (map (@length Z) clips).
Proof.
  intros Hl Hf Hw Ho Hc.
  destruct (finish_ok listdir cfg Hl Hf output_file w clips Hw Ho) as (w' & E & O).
  split; [|split].
  - exists w'. unfold convert_to_speech_openai.
    rewrite (openai_loop_ok cfg svc _ _ _ Hc), E. now split.
  - exists w'. unfold convert_to_speech_elevenlabs.
    rewrite (elevenlabs_loop_ok cfg svc _ _ _ Hc), E. now split.
  - apply length_concat.
Qed.

Lemma sequential_assembly_concatenates_witness :
  (exists w',
      convert_to_speech_openai names example_config (fun _ _ t => inr [Z.of_nat (length t)])
        example_transcript (str "out.mp3") empty_world = (w', inr tt)
      /\ lookup (str "out.mp3") (outputs w') = Some (concat [[2]; [5]; [6]; [3]]%Z))
  /\ (exists w',
         convert_to_speech_elevenlabs names example_config
           (fun _ _ t => inr [Z.of_nat (length t)])
           example_transcript (str "out.mp3") empty_world = (w', inr tt)
         /\ lookup (str "out.mp3") (outputs w') = Some (concat [[2]; [5]; [6]; [3]]%Z))
  /\ length (concat [[2]; [5]; [6]; [3]]%Z) = list_sum (map (@length Z) [[2]; [5]; [6]; [3]]%Z).
Proof.
  apply (sequential_assembly_concatenates names example_config
           (fun _ _ t => inr [Z.of_nat (length t)])
           example_transcript (str "out.mp3") empty_world).
  - reflexivity.
  - reflexivity.
  - intros f [].
  - reflexivity.
  - vm_compute. reflexivity.
Defined.

(** * The first pass of the sanitizer: unsupported tags *)

Section Removal.

Lemma to_gt_Some s b r :
  to_gt s = Some (b, r) <-> s = b ++ ">"%char :: r /\ ~ In ">"%char b.
Proof.
  revert b r. induction s as [|c s IH]; intros b r; simpl.
  - split; [discriminate|]. intros [H _]. now destruct b.
  - destruct (Ascii.eqb_spec c ">") as [->|N].
    + split.
      * intros [= <- <-]. auto.
      * intros [H Nb]. destruct b as [|d b]; simpl in H.
        -- now injection H as <-.
        -- injection H as <- _. simpl in Nb. tauto.
    + destruct (to_gt s) as [[b' r']|] eqn:E.
      * split.
        -- intros [= <- <-]. destruct (proj1 (IH b' r') eq_refl) as [-> Nb].
           split; [reflexivity|]. simpl. intros [?|?]; [congruence|tauto].
        -- intros [H Nb]. destruct b as [|d b]; simpl in H; injection H as -> H;
             [congruence|].
           assert (Some (b', r') = Some (b, r)) as [= -> ->]; [|reflexivity].
           apply IH. split; [assumption|]. simpl in Nb. tauto.
      * split; [discriminate|]. intros [H Nb].
        destruct b as [|d b]; simpl in H; injection H as -> H; [congruence|].
        assert (None = Some (b, r)); [|discriminate].
        apply IH. split; [assumption|]. simpl in Nb. tauto.
Qed.

Lemma to_gt_app b r : ~ In ">"%char b -> to_gt (b ++ ">"%char :: r) = Some (b, r).
Proof. intros H. now apply to_gt_Some. Qed.

(** [[^>]+>] after the look-ahead: up to the first [>], at least one
    character before it. *)
Lemma star_to_gt prev s cs :
  star (not_char ">") prev s cs
    (fun p t c => rmatch (Lit (str ">")) p t c (fun _ s' cs' => Some (s', cs')))
  = match to_gt s with Some (_, r) => Some (r, cs) | None => None end.
Proof.
  revert prev. induction s as [|c s IH]; intros prev; [reflexivity|].
  cbn [star to_gt]. unfold not_char at 1.
  destruct (Ascii.eqb_spec c ">") as [->|N]; cbn [negb].
  - reflexivity.
  - rewrite IH. destruct (to_gt s) as [[b r]|]; [reflexivity|].
    cbn [orelse rmatch str String.list_ascii_of_string strip_prefix].
    destruct (Ascii.eqb_spec ">" c); [congruence|reflexivity].
Qed.

Lemma plus_to_gt prev s cs :
  rmatch (Cat (Plus (not_char ">")) (Lit (str ">"))) prev s cs
    (fun _ s' cs' => Some (s', cs'))
  = match to_gt s with
    | Some (_ :: _, r) => Some (r, cs)
    | _ => None
    end.
Proof.
  cbn [rmatch]. destruct s as [|c s]; [reflexivity|].
  cbn [to_gt]. unfold not_char at 1.
  destruct (Ascii.eqb_spec c ">") as [->|N]; cbn [negb]; [reflexivity|].
  rewrite star_to_gt. now destruct (to_gt s) as [[b r]|].
Qed.

Lemma last_char_word prev name :
  ends_in_word name -> word_at (last_char prev name) = true.
Proof.
  intros (c & L & W & N). destruct name as [|d name]; [congruence|].
  rewrite (last_char_cons prev None), L. exact W.
Qed.

Lemma lit_boundary name prev s cs :
  ends_in_word name ->
  rmatch (Cat (Lit name) WordBoundary) prev s cs (fun _ _ _ => Some tt)
  = match strip_prefix name s with
    | Some s' => if negb (word_at (hd_error s')) then Some tt else None
    | None => None
    end.
Proof.
  intros E. cbn [rmatch]. destruct (strip_prefix name s) as [s'|]; [|reflexivity].
  rewrite (last_char_word prev name E). reflexivity.
Qed.

Lemma rmatch_cat_or a b c R prev s cs (k : cont R) :
  rmatch (Cat (Or a b) c) prev s cs k
  = orelse (rmatch (Cat a c) prev s cs k) (rmatch (Cat b c) prev s cs k).
Proof. reflexivity. Qed.

(** The look-ahead [(?:name|...)\b]. *)
Lemma names_boundary names : Forall ends_in_word names -> forall prev s cs,
  rmatch (Cat (any_of names) WordBoundary) prev s cs (fun _ _ _ => Some tt)
  = if name_ahead names s then Some tt else None.
Proof.
  induction 1 as [|name names E F IH]; intros prev s cs; [reflexivity|].
  destruct names as [|name2 names].
  - cbn [any_of name_ahead existsb]. rewrite lit_boundary by assumption.
    destruct (strip_prefix name s); [|reflexivity]. now rewrite orb_false_r.
  - change (any_of (name :: name2 :: names))
      with (Or (Lit name) (any_of (name2 :: names))).
    rewrite rmatch_cat_or, lit_boundary, IH by assumption.
    cbn [name_ahead existsb]. fold (name_ahead (name2 :: names) s).
    destruct (strip_prefix name s) as [s'|]; [|reflexivity].
    now destruct (negb (word_at (hd_error s'))).
Qed.

Lemma tag_names_end_in_word : Forall ends_in_word tag_names.
Proof.
  repeat constructor; eexists; (split; [reflexivity|split; [reflexivity|discriminate]]).
Qed.

End Removal.

Section RemovalPass.

Lemma strip_prefix_gt name : ~ In ">"%char name -> forall b r,
  strip_prefix name (b ++ ">"%char :: r)
  = match strip_prefix name b with
    | Some b' => Some (b' ++ ">"%char :: r)
    | None => None
    end.
Proof.
  induction name as [|x name IH]; intros N b r; [reflexivity|].
  destruct b as [|y b]; simpl.
  - destruct (Ascii.eqb_spec x ">") as [->|]; [|reflexivity].
    simpl in N. tauto.
  - destruct (Ascii.eqb_spec x y); [|reflexivity].
    apply IH. simpl in N. tauto.
Qed.

Lemma hd_app_gt (b r r' : text) :
  hd_error (b ++ ">"%char :: r) = hd_error (b ++ ">"%char :: r').
Proof. now destruct b. Qed.

Lemma name_ahead_gt names : Forall (fun name => ~ In ">"%char name) names ->
  forall b r,
  name_ahead names (b ++ ">"%char :: r) = name_ahead names (b ++ str ">").
Proof.
  intros F b r. unfold name_ahead. induction F as [|name names N _ IH];
    [reflexivity|].
  cbn [existsb]. rewrite IH. f_equal.
  change (str ">") with [">"%char].
  rewrite !strip_prefix_gt by assumption.
  destruct (strip_prefix name b) as [b'|]; [|reflexivity].
  now rewrite (hd_app_gt b' r []).
Qed.

Lemma tag_names_without_gt : Forall (fun name => ~ In ">"%char name) tag_names.
Proof.
  repeat constructor; simpl; intros H;
    repeat (destruct H as [H|H]; [discriminate|]); exact H.
Qed.

Lemma name_ahead_slash s : name_ahead tag_names ("/"%char :: s) = false.
Proof. reflexivity. Qed.

Lemma rmatch_lit_opt l1 l2 t R prev s cs (k : cont R) :
  rmatch (Cat (Lit l1) (Cat (Opt (Lit l2)) t)) prev s cs k
  = match strip_prefix l1 s with
    | Some s1 =>
        orelse
          match strip_prefix l2 s1 with
          | Some s2 => rmatch t (last_char (last_char prev l1) l2) s2 cs k
          | None => None
          end
          (rmatch t (last_char prev l1) s1 cs k)
    | None => None
    end.
Proof. reflexivity. Qed.

Lemma rmatch_not_ahead a b R prev s cs (k : cont R) :
  rmatch (Cat (NotAhead a) b) prev s cs k
  = match rmatch a prev s cs (fun _ _ _ => Some tt) with
    | Some _ => None
    | None => rmatch b prev s cs k
    end.
Proof. reflexivity. Qed.

(** The pattern after [<] and the optional [/]. *)
Lemma body_match prev s :
  rmatch (Cat (NotAhead (Cat (any_of tag_names) WordBoundary))
              (Cat (Plus (not_char ">")) (Lit (str ">"))))
         prev s [] (fun _ s' cs' => Some (s', cs'))
  = if name_ahead tag_names s then None
    else match to_gt s with
         | Some (_ :: _, r) => Some (r, [])
         | _ => None
         end.
Proof.
  rewrite rmatch_not_ahead, (names_boundary _ tag_names_end_in_word), plus_to_gt.
  now destruct (name_ahead tag_names s).
Qed.

(** What the pattern of the first pass matches at the head of a text. *)
Lemma unsupported_match prev s :
  match_here (unsupported_pattern default_tags) prev s
  = match s with
    | "<"%char :: s1 =>
        match to_gt s1 with
        | Some (b, r) => if removable b then Some (r, []) else None
        | None => None
        end
    | _ => None
    end.
Proof.
  unfold match_here, unsupported_pattern. fold tag_names.
  rewrite rmatch_lit_opt.
  destruct s as [|c s1]; [reflexivity|].
  cbn [str String.list_ascii_of_string strip_prefix].
  destruct (Ascii.eqb_spec "<" c) as [<-|N].
  2:{ destruct c as [[] [] [] [] [] [] [] []]; try reflexivity; congruence. }
  rewrite body_match.
  destruct s1 as [|d s2]; [reflexivity|].
  cbn [strip_prefix].
  destruct (Ascii.eqb_spec "/" d) as [<-|S].
  - rewrite body_match, name_ahead_slash. cbn [to_gt].
    change (Ascii.eqb "/" ">") with false. cbn iota.
    destruct (to_gt s2) as [[b r]|] eqn:E.
    + change (removable ("/"%char :: b)) with true. cbn iota.
      now destruct (name_ahead tag_names s2), b.
    + now destruct (name_ahead tag_names s2).
  - cbn [orelse to_gt].
    destruct (Ascii.eqb_spec d ">") as [->|G];
      [now destruct (name_ahead tag_names (">"%char :: s2))|].
    destruct (to_gt s2) as [[b r]|] eqn:E.
    + apply to_gt_Some in E. destruct E as [-> Nb].
      unfold removable. destruct (Ascii.eqb_spec d "/") as [->|_]; [congruence|].
      cbn [orb]. change (d :: b ++ ">"%char :: r) with ((d :: b) ++ ">"%char :: r).
      rewrite (name_ahead_gt _ tag_names_without_gt).
      now destruct (name_ahead tag_names ((d :: b) ++ str ">")).
    + now destruct (name_ahead tag_names (d :: s2)).
Qed.

Lemma unsupported_prev_free prev s :
  match_here (unsupported_pattern default_tags) prev s
  = match_here (unsupported_pattern default_tags) None s.
Proof. now rewrite !unsupported_match. Qed.

Lemma unsupported_nonempty s s' cs :
  match_here (unsupported_pattern default_tags) None s = Some (s', cs) ->
  length s' < length s.
Proof. apply (lit_start_nonempty "<" []). Qed.

(** The first pass, one step at a time. *)
Lemma remove_step s :
  remove_unsupported s
  = match s with
    | [] => []
    | c :: s1 =>
        if Ascii.eqb c "<"
        then match to_gt s1 with
             | Some (b, r) =>
                 if removable b then remove_unsupported r
                 else c :: remove_unsupported s1
             | None => c :: remove_unsupported s1
             end
        else c :: remove_unsupported s1
    end.
Proof.
  unfold remove_unsupported at 1.
  rewrite (@sub_step _ unsupported_prev_free unsupported_nonempty).
  rewrite unsupported_match. destruct s as [|c s1]; [reflexivity|].
  destruct (Ascii.eqb_spec c "<") as [->|N].
  - destruct (to_gt s1) as [[b r]|]; [|reflexivity].
    now destruct (removable b).
  - destruct c as [[] [] [] [] [] [] [] []]; try reflexivity; congruence.
Qed.

End RemovalPass.

Section RemovalOfFlatTexts.

Let R := remove_unsupported.

Lemma remove_other c s : c <> "<"%char -> R (c :: s) = c :: R s.
Proof.
  intros N. unfold R. rewrite remove_step.
  destruct (Ascii.eqb_spec c "<"); [congruence|reflexivity].
Qed.

Lemma no_lt_spec b : no_lt b = true <-> ~ In "<"%char b.
Proof.
  unfold no_lt. induction b as [|c b IH]; simpl; [tauto|].
  rewrite andb_true_iff, IH.
  destruct (Ascii.eqb_spec c "<") as [->|N]; simpl; intuition congruence.
Qed.

Lemma remove_copy b s : ~ In "<"%char b -> R (b ++ s) = b ++ R s.
Proof.
  induction b as [|c b IH]; intros N; [reflexivity|]. simpl in *.
  rewrite remove_other by tauto. rewrite IH by tauto. reflexivity.
Qed.

Lemma remove_nil : R [] = [].
Proof. reflexivity. Qed.

Lemma remove_plain w : ~ In "<"%char w -> R w = w.
Proof.
  intros N. rewrite <- (app_nil_r w) at 1.
  rewrite remove_copy by assumption. now rewrite remove_nil, app_nil_r.
Qed.

Lemma to_gt_tail w : ~ In ">"%char w -> forall s,
  to_gt (s ++ w)
  = match to_gt s with Some (b, r) => Some (b, r ++ w) | None => None end.
Proof.
  intros N s. induction s as [|c s IH]; simpl.
  - destruct (to_gt w) as [[b r]|] eqn:E; [|reflexivity].
    apply to_gt_Some in E. destruct E as [-> _].
    exfalso. apply N, in_or_app. right. now left.
  - destruct (Ascii.eqb c ">"); [reflexivity|]. rewrite IH.
    now destruct (to_gt s) as [[b r]|].
Qed.

(** A tail without [<] and [>] passes the first pass as it is. *)
Lemma remove_tail w : ~ In "<"%char w -> ~ In ">"%char w -> forall s,
  R (s ++ w) = R s ++ w.
Proof.
  intros L G s. remember (length s) as n eqn:E. revert s E.
  induction n as [n IH] using lt_wf_ind. intros s E.
  destruct s as [|c s]; [now apply remove_plain|].
  unfold R. rewrite (remove_step (c :: s)), (remove_step ((c :: s) ++ w)).
  fold R. cbn [app]. rewrite (to_gt_tail _ G).
  assert (T : R (s ++ w) = R s ++ w).
  { apply (IH (length s)); [simpl in E; lia|reflexivity]. }
  destruct (Ascii.eqb c "<"); [|now rewrite T].
  destruct (to_gt s) as [[b r]|] eqn:B; [|now rewrite T].
  destruct (removable b); [|now rewrite T].
  apply to_gt_Some in B. destruct B as [-> _].
  apply (IH (length r)); [|reflexivity].
  subst n. simpl. rewrite length_app. simpl. lia.
Qed.

Lemma flat_tail c s : flat (c :: s) = true -> flat s = true.
Proof. simpl. rewrite andb_true_iff. tauto. Qed.

Lemma flat_app a s : flat (a ++ s) = true -> flat s = true.
Proof. induction a as [|c a IH]; [auto|]. intros H. apply IH, (flat_tail c), H. Qed.

Lemma reduced_tail c s : reduced (c :: s) = true -> reduced s = true.
Proof. simpl. rewrite andb_true_iff. tauto. Qed.

Lemma reduced_app a s : reduced (a ++ s) = true -> reduced s = true.
Proof.
  induction a as [|c a IH]; [auto|]. intros H. apply IH, (reduced_tail c), H.
Qed.

Lemma reduced_flat s : reduced s = true -> flat s = true.
Proof.
  induction s as [|c s IH]; [reflexivity|]. simpl.
  rewrite !andb_true_iff. intros [H1 H2]. split; [|auto].
  destruct (Ascii.eqb c "<"); [|reflexivity].
  destruct (to_gt s) as [[b r]|]; [|discriminate].
  now apply andb_true_iff in H1.
Qed.

Lemma reduced_copy b s :
  ~ In "<"%char b -> reduced (b ++ s) = reduced s.
Proof.
  induction b as [|c b IH]; intros N; [reflexivity|]. simpl in *.
  destruct (Ascii.eqb_spec c "<") as [->|_]; [tauto|]. apply IH. tauto.
Qed.

(** The first pass leaves a text without removable tags as it is. *)
Lemma remove_reduced s : reduced s = true -> R s = s.
Proof.
  induction s as [|c s IH]; [reflexivity|]. intros H.
  pose proof (reduced_tail _ _ H) as T. unfold R. rewrite remove_step. fold R.
  simpl in H. destruct (Ascii.eqb c "<"); [|now rewrite IH].
  destruct (to_gt s) as [[b r]|]; [|discriminate].
  apply andb_true_iff in H. destruct H as [H _].
  apply andb_true_iff in H. destruct H as [_ H].
  apply negb_true_iff in H. rewrite H. now rewrite IH.
Qed.

(** After the first pass a flat text has no removable tag. *)
Lemma flat_remove s : flat s = true -> reduced (R s) = true.
Proof.
  remember (length s) as n eqn:E. revert s E.
  induction n as [n IH] using lt_wf_ind. intros s E F.
  destruct s as [|c s]; [reflexivity|].
  pose proof (flat_tail _ _ F) as T.
  assert (Hs : reduced (R s) = true).
  { apply (IH (length s)); [simpl in E; lia|reflexivity|assumption]. }
  unfold R. rewrite remove_step. fold R. simpl in F.
  destruct (Ascii.eqb_spec c "<") as [->|N].
  2:{ simpl. destruct (Ascii.eqb_spec c "<"); [congruence|assumption]. }
  destruct (to_gt s) as [[b r]|] eqn:B; [|discriminate].
  apply andb_true_iff in F. destruct F as [F _]. apply no_lt_spec in F.
  apply to_gt_Some in B. destruct B as [-> G].
  assert (Hr : reduced (R r) = true).
  { apply (IH (length r)); [|reflexivity|].
    - subst n. simpl. rewrite length_app. simpl. lia.
    - apply (flat_app (b ++ [">"%char])). now rewrite <- app_assoc. }
  destruct (removable b) eqn:M; [assumption|].
  rewrite remove_copy by assumption. rewrite remove_other by discriminate.
  cbn [reduced]. change (Ascii.eqb "<" "<") with true. cbn iota.
  rewrite (to_gt_app _ _ G), M. cbn [negb].
  rewrite (proj2 (no_lt_spec b) F). cbn [andb].
  rewrite reduced_copy by assumption. cbn [reduced].
  change (Ascii.eqb ">" "<") with false. exact Hr.
Qed.

End RemovalOfFlatTexts.

(** * The second pass of the sanitizer: blank lines *)

Section BlankLines.

Let B := collapse_blank_lines.

Lemma space_LF : is_space LF = true.
Proof. reflexivity. Qed.

Lemma not_space_not_LF c : is_space c = false -> Ascii.eqb c LF = false.
Proof.
  intros H. destruct (Ascii.eqb_spec c LF) as [->|]; [|reflexivity].
  now rewrite space_LF in H.
Qed.

Lemma star_lf prev s cs :
  star is_space prev s cs
    (fun p t c => rmatch (Lit [LF]) p t c (fun _ s' cs' => Some (s', cs')))
  = match after_last_lf s with Some r => Some (r, cs) | None => None end.
Proof.
  revert prev. induction s as [|c s IH]; intros prev; [reflexivity|].
  cbn [star after_last_lf]. destruct (is_space c) eqn:E.
  - rewrite IH. destruct (after_last_lf s) as [r|]; [reflexivity|].
    cbn [orelse rmatch strip_prefix]. rewrite Ascii.eqb_sym.
    now destruct (Ascii.eqb c LF).
  - cbn [rmatch strip_prefix]. rewrite Ascii.eqb_sym, (not_space_not_LF _ E).
    reflexivity.
Qed.

(** What the pattern of the second pass matches at the head of a text. *)
Lemma blank_match prev s :
  match_here blank_lines_pattern prev s
  = match s with
    | c :: s1 =>
        if Ascii.eqb c LF
        then match after_last_lf s1 with Some r => Some (r, []) | None => None end
        else None
    | [] => None
    end.
Proof.
  unfold match_here, blank_lines_pattern. rewrite rmatch_cat, rmatch_lit.
  destruct s as [|c s1]; [reflexivity|]. cbn [strip_prefix].
  rewrite Ascii.eqb_sym. destruct (Ascii.eqb c LF); [|reflexivity].
  change (rmatch (Cat (Star is_space) (Lit [LF])) (last_char prev [LF]) s1 []
            (fun _ s' cs' => Some (s', cs')))
    with (star is_space (last_char prev [LF]) s1 []
            (fun p t c0 => rmatch (Lit [LF]) p t c0 (fun _ s' cs' => Some (s', cs')))).
  apply star_lf.
Qed.

Lemma blank_prev_free prev s :
  match_here blank_lines_pattern prev s = match_here blank_lines_pattern None s.
Proof. now rewrite !blank_match. Qed.

Lemma blank_nonempty s s' cs :
  match_here blank_lines_pattern None s = Some (s', cs) -> length s' < length s.
Proof. apply (lit_start_nonempty LF []). Qed.

(** The second pass, one step at a time. *)
Lemma collapse_step s :
  B s
  = match s with
    | [] => []
    | c :: s1 =>
        if Ascii.eqb c LF
        then match after_last_lf s1 with
             | Some r => LF :: B r
             | None => c :: B s1
             end
        else c :: B s1
    end.
Proof.
  unfold B, collapse_blank_lines at 1.
  rewrite (@sub_step _ blank_prev_free blank_nonempty), blank_match.
  destruct s as [|c s1]; [reflexivity|].
  destruct (Ascii.eqb c LF); [|reflexivity].
  now destruct (after_last_lf s1).
Qed.

Lemma after_last_lf_Some s r :
  after_last_lf s = Some r -> exists w, spaces w /\ s = w ++ LF :: r.
Proof.
  revert r. induction s as [|c s IH]; intros r; simpl; [discriminate|].
  destruct (is_space c) eqn:E; [|discriminate].
  destruct (after_last_lf s) as [r'|].
  - intros [= <-]. destruct (IH _ eq_refl) as (w & W & ->).
    exists (c :: w). split; [now constructor|reflexivity].
  - destruct (Ascii.eqb_spec c LF) as [->|]; [|discriminate].
    intros [= <-]. exists []. split; [constructor|reflexivity].
Qed.

Lemma after_last_lf_shorter s r : after_last_lf s = Some r -> length r < length s.
Proof.
  intros H. destruct (after_last_lf_Some _ _ H) as (w & _ & ->).
  rewrite length_app. simpl. lia.
Qed.

Lemma after_last_lf_last s r : after_last_lf s = Some r -> after_last_lf r = None.
Proof.
  revert r. induction s as [|c s IH]; intros r; simpl; [discriminate|].
  destruct (is_space c); [|discriminate].
  destruct (after_last_lf s) as [r'|] eqn:E.
  - intros [= <-]. now apply IH.
  - destruct (Ascii.eqb c LF); [|discriminate]. now intros [= <-].
Qed.

Lemma collapse_other c s : Ascii.eqb c LF = false -> B (c :: s) = c :: B s.
Proof. intros N. rewrite collapse_step. now rewrite N. Qed.

Lemma collapse_head c s : exists x, B (c :: s) = c :: x.
Proof.
  rewrite collapse_step. destruct (Ascii.eqb_spec c LF) as [->|]; [|eauto].
  destruct (after_last_lf s); eauto.
Qed.

Lemma collapse_nil : B [] = [].
Proof. reflexivity. Qed.

Lemma collapse_copy w s : ~ In LF w -> B (w ++ s) = w ++ B s.
Proof.
  induction w as [|c w IH]; intros N; [reflexivity|]. simpl in *.
  rewrite collapse_other, IH; [reflexivity|tauto|].
  destruct (Ascii.eqb_spec c LF); [tauto|reflexivity].
Qed.

Lemma collapse_keeps_none s :
  after_last_lf s = None -> after_last_lf (B s) = None.
Proof.
  induction s as [|c s IH]; [reflexivity|]. simpl.
  destruct (is_space c) eqn:E.
  - destruct (after_last_lf s); [discriminate|].
    destruct (Ascii.eqb c LF) eqn:L; [discriminate|]. intros _.
    rewrite collapse_other by assumption. simpl. now rewrite E, IH, L.
  - intros _. rewrite collapse_other by now apply not_space_not_LF.
    simpl. now rewrite E.
Qed.

(** The second pass leaves nothing for itself to replace. *)
Lemma collapse_no_blank_lines s : no_blank_lines (B s) = true.
Proof.
  remember (length s) as n eqn:E. revert s E.
  induction n as [n IH] using lt_wf_ind. intros s E.
  destruct s as [|c s]; [reflexivity|]. rewrite collapse_step.
  assert (Hs : no_blank_lines (B s) = true).
  { apply (IH (length s)); [simpl in E; lia|reflexivity]. }
  destruct (Ascii.eqb c LF) eqn:L.
  - destruct (after_last_lf s) as [r|] eqn:A.
    + cbn [no_blank_lines]. change (Ascii.eqb LF LF) with true. cbn iota.
      rewrite (collapse_keeps_none _ (after_last_lf_last _ _ A)). cbn [andb].
      apply (IH (length r)); [|reflexivity].
      apply after_last_lf_shorter in A. simpl in E. lia.
    + cbn [no_blank_lines]. rewrite L, (collapse_keeps_none _ A). exact Hs.
  - cbn [no_blank_lines]. rewrite L. exact Hs.
Qed.

Lemma no_blank_lines_collapse s : no_blank_lines s = true -> B s = s.
Proof.
  induction s as [|c s IH]; [reflexivity|]. simpl.
  rewrite andb_true_iff. intros [H1 H2]. rewrite collapse_step.
  destruct (Ascii.eqb c LF); [|now rewrite IH].
  destruct (after_last_lf s); [discriminate|now rewrite IH].
Qed.

End BlankLines.

Section BlankLinesAndTags.

Local Abbreviation B := collapse_blank_lines.

Lemma after_last_lf_app c a s : is_space c = false ->
  after_last_lf (a ++ c :: s)
  = match after_last_lf a with Some r => Some (r ++ c :: s) | None => None end.
Proof.
  intros N. induction a as [|x a IH]; simpl.
  - now rewrite N.
  - destruct (is_space x); [|reflexivity]. rewrite IH.
    destruct (after_last_lf a); [reflexivity|].
    now destruct (Ascii.eqb x LF).
Qed.

(** The second pass works on each side of a character that is not
    white space. *)
Lemma collapse_app c a s : is_space c = false ->
  B (a ++ c :: s) = B a ++ c :: B s.
Proof.
  intros N. remember (length a) as n eqn:E. revert a E.
  induction n as [n IH] using lt_wf_ind. intros a E.
  destruct a as [|x a].
  - cbn [app]. now rewrite (collapse_other c s (not_space_not_LF _ N)).
  - cbn [app]. rewrite (collapse_step (x :: a ++ c :: s)), (collapse_step (x :: a)).
    rewrite (after_last_lf_app _ _ _ N).
    assert (T : B (a ++ c :: s) = B a ++ c :: B s).
    { apply (IH (length a)); [simpl in E; lia|reflexivity]. }
    destruct (Ascii.eqb x LF); [|now rewrite T].
    destruct (after_last_lf a) as [r|] eqn:A; [|now rewrite T].
    cbn [app]. f_equal. apply (IH (length r)); [|reflexivity].
    apply after_last_lf_shorter in A. simpl in E. lia.
Qed.

Lemma collapse_in x s : In x (B s) -> In x s.
Proof.
  remember (length s) as n eqn:E. revert s E.
  induction n as [n IH] using lt_wf_ind. intros s E.
  destruct s as [|c s]; [auto|]. rewrite collapse_step.
  assert (T : In x (B s) -> In x s).
  { apply (IH (length s)); [simpl in E; lia|reflexivity]. }
  assert (U : In x (c :: B s) -> In x (c :: s)) by (simpl; tauto).
  destruct (Ascii.eqb_spec c LF) as [->|]; [|exact U].
  destruct (after_last_lf s) as [r|] eqn:A; [|exact U].
  pose proof (after_last_lf_shorter _ _ A) as L.
  destruct (after_last_lf_Some _ _ A) as (w & _ & ->).
  intros [<-|H]; [now left|]. right. apply in_or_app. right. right.
  apply (IH (length r)); [simpl in E; lia|reflexivity|assumption].
Qed.

Lemma tag_names_without_LF : Forall (fun name => ~ In LF name) tag_names.
Proof.
  repeat constructor; simpl; intros H;
    repeat (destruct H as [H|H]; [discriminate|]); exact H.
Qed.

Lemma hd_collapse (b r : text) :
  hd_error (B b ++ r) = hd_error (b ++ r).
Proof.
  destruct b as [|e b]; [reflexivity|].
  destruct (collapse_head e b) as (x & X). now rewrite X.
Qed.

Lemma collapse_name_ahead b :
  name_ahead tag_names (b ++ str ">") = true ->
  name_ahead tag_names (B b ++ str ">") = true.
Proof.
  unfold name_ahead. rewrite !existsb_exists.
  intros (name & I & H). exists name. split; [assumption|].
  pose proof (proj1 (Forall_forall _ _) tag_names_without_gt _ I) as G.
  pose proof (proj1 (Forall_forall _ _) tag_names_without_LF _ I) as L.
  change (str ">") with [">"%char] in *. cbv beta in G, L.
  rewrite (strip_prefix_gt _ G) in H. rewrite (strip_prefix_gt _ G).
  destruct (strip_prefix name b) as [b'|] eqn:E; [|discriminate].
  apply strip_prefix_Some in E. subst b.
  rewrite (collapse_copy name b' L).
  rewrite (proj2 (strip_prefix_Some name (name ++ collapse_blank_lines b') _) eq_refl).
  now rewrite hd_collapse.
Qed.

Lemma collapse_removable b : removable b = false -> removable (B b) = false.
Proof.
  destruct b as [|d b]; [reflexivity|].
  destruct (collapse_head d b) as (x & X). rewrite X.
  unfold removable. rewrite !orb_false_iff, !negb_false_iff.
  intros [S H]. split; [assumption|]. rewrite <- X. now apply collapse_name_ahead.
Qed.

(** The second pass neither breaks a tag nor makes one removable. *)
Lemma collapse_reduced s : reduced s = true -> reduced (B s) = true.
Proof.
  remember (length s) as n eqn:E. revert s E.
  induction n as [n IH] using lt_wf_ind. intros s E F.
  destruct s as [|c s]; [reflexivity|].
  pose proof (reduced_tail _ _ F) as T.
  assert (Hs : reduced (B s) = true).
  { apply (IH (length s)); [simpl in E; lia|reflexivity|assumption]. }
  rewrite collapse_step.
  destruct (Ascii.eqb_spec c LF) as [->|N].
  - destruct (after_last_lf s) as [r|] eqn:A; [|exact Hs].
    pose proof (after_last_lf_shorter _ _ A) as L.
    destruct (after_last_lf_Some _ _ A) as (w & _ & ->).
    cbn [reduced]. change (Ascii.eqb LF "<") with false. cbn [andb].
    apply (IH (length r)); [simpl in E; lia|reflexivity|].
    apply (reduced_app (w ++ [LF])). now rewrite <- app_assoc.
  - cbn [reduced]. simpl in F.
    destruct (Ascii.eqb c "<"); [|exact Hs].
    destruct (to_gt s) as [[b r]|] eqn:G; [|discriminate].
    apply to_gt_Some in G. destruct G as [-> G].
    apply andb_true_iff in F. destruct F as [F _].
    apply andb_true_iff in F. destruct F as [F1 F2].
    apply negb_true_iff in F2. apply no_lt_spec in F1.
    rewrite Hs, andb_true_r. rewrite (collapse_app ">" b r eq_refl).
    rewrite to_gt_app; [|intros I; apply G, (collapse_in _ _ I)].
    rewrite (collapse_removable _ F2). cbn [negb]. rewrite andb_true_r.
    apply no_lt_spec. intros I. apply F1, (collapse_in _ _ I).
Qed.

Lemma no_blank_lines_app a s :
  no_blank_lines (a ++ s) = true -> no_blank_lines s = true.
Proof.
  induction a as [|c a IH]; [auto|]. simpl. rewrite andb_true_iff. tauto.
Qed.

Lemma after_last_lf_prefix u w :
  after_last_lf (u ++ w) = None -> after_last_lf u = None.
Proof.
  induction u as [|c u IH]; [reflexivity|]. simpl.
  destruct (is_space c); [|reflexivity].
  destruct (after_last_lf (u ++ w)); [discriminate|].
  rewrite IH by reflexivity. now destruct (Ascii.eqb c LF).
Qed.

Lemma no_blank_lines_prefix u w :
  no_blank_lines (u ++ w) = true -> no_blank_lines u = true.
Proof.
  induction u as [|c u IH]; [reflexivity|]. simpl.
  rewrite !andb_true_iff. intros [H1 H2]. split; [|auto].
  destruct (Ascii.eqb c LF); [|reflexivity].
  destruct (after_last_lf (u ++ w)) eqn:A; [discriminate|].
  now rewrite (after_last_lf_prefix _ _ A).
Qed.

Lemma no_blank_lines_two a s :
  no_blank_lines (a ++ LF :: LF :: s) = true -> False.
Proof.
  intros H. apply no_blank_lines_app in H. simpl in H.
  change (Ascii.eqb LF LF) with true in H. change (is_space LF) with true in H.
  cbn iota in H. now destruct (after_last_lf s).
Qed.

End BlankLinesAndTags.

(** * The closing passes as one scan *)

Section OneScan.

Lemma Person1_default : In Person1 default_tags.
Proof. now left. Qed.

Lemma Person2_default : In Person2 default_tags.
Proof. right. now left. Qed.

Lemma opened_pending s :
  opened s
  = pending_of (startswith (open_tag Person1) s) (startswith (open_tag Person2) s).
Proof. reflexivity. Qed.

Lemma open_once s :
  startswith (open_tag Person1) s && startswith (open_tag Person2) s = false.
Proof.
  destruct (startswith (open_tag Person1) s) eqn:H1; [|reflexivity].
  destruct (startswith (open_tag Person2) s) eqn:H2; [|reflexivity].
  apply startswith_true in H1. apply startswith_true in H2.
  destruct H1 as [t1 ->]. destruct H2 as [t2 H2]. discriminate.
Qed.

Lemma boundary_false s :
  boundary s = false ->
  startswith (open_tag Person1) s = false
  /\ startswith (open_tag Person2) s = false.
Proof.
  unfold boundary, opening. rewrite !orb_false_iff. tauto.
Qed.

Lemma scan_length tag i s : length s <= length (close_scan tag i s).
Proof.
  revert i. induction s as [|c s IH]; intros i; [simpl; lia|].
  cbn [close_scan]. rewrite length_app. cbn [length].
  specialize (IH (startswith (open_tag tag) (c :: s) || i && negb (boundary (c :: s)))).
  lia.
Qed.

Lemma scan_at_end tag c s :
  In tag default_tags ->
  at_end (c :: close_scan tag (startswith (open_tag tag) (c :: s)) s)
  = at_end (c :: s).
Proof.
  intros H. destruct s as [|d s].
  - assert (F : startswith (open_tag tag) [c] = false).
    { destruct (default_tags_cases _ H) as [-> | ->].
      - change (open_tag Person1) with ("<"%char :: str "Person1>").
        cbn [startswith]. now destruct (Ascii.eqb "<" c).
      - change (open_tag Person2) with ("<"%char :: str "Person2>").
        cbn [startswith]. now destruct (Ascii.eqb "<" c). }
    rewrite F. reflexivity.
  - pose proof (scan_length tag (startswith (open_tag tag) (c :: d :: s)) (d :: s)) as L.
    destruct (close_scan tag (startswith (open_tag tag) (c :: d :: s)) (d :: s));
      [simpl in L; lia|reflexivity].
Qed.

Lemma scan_boundary c s :
  boundary (c :: close_scan Person1 (startswith (open_tag Person1) (c :: s)) s)
  = boundary (c :: s).
Proof.
  unfold boundary.
  rewrite (scan_keeps_opening Person1).
  now rewrite (scan_at_end Person1 c s Person1_default).
Qed.

Lemma scans_one_scan s : forall i1 i2, i1 && i2 = false ->
  close_scan Person2 i2 (close_scan Person1 i1 s) = close_all (pending_of i1 i2) s.
Proof.
  induction s as [|c s IH]; intros i1 i2 X.
  - destruct i1, i2; try discriminate; reflexivity.
  - pose proof (open_once (c :: s)) as O.
    destruct i1; [destruct i2; [discriminate|]|].
    + cbn [close_scan close_all pending_of andb closer_of].
      destruct (boundary (c :: s)) eqn:Bd.
      * cbn [negb andb]. rewrite orb_false_r.
        rewrite (scan_closing Person2 Person1 _ Person2_default Person1_default).
        rewrite scan_false_cons.
        rewrite (scan_keeps_open Person1 Person2 c _ s Person2_default).
        rewrite IH by exact O. rewrite opened_pending.
        now destruct (startswith (open_tag Person1) (c :: s)),
                     (startswith (open_tag Person2) (c :: s)).
      * destruct (boundary_false _ Bd) as [F1 F2].
        cbn [negb andb app]. rewrite orb_true_r, scan_false_cons.
        rewrite (scan_keeps_open Person1 Person2 c _ s Person2_default).
        rewrite F2, IH by reflexivity.
        rewrite opened_pending, F1, F2. reflexivity.
    + rewrite scan_false_cons. destruct i2.
      * cbn [close_scan close_all pending_of andb closer_of].
        rewrite scan_boundary.
        rewrite (scan_keeps_open Person1 Person2 c _ s Person2_default).
        destruct (boundary (c :: s)) eqn:Bd.
        -- cbn [negb]. rewrite orb_false_r, IH by exact O.
           rewrite opened_pending.
           now destruct (startswith (open_tag Person1) (c :: s)),
                        (startswith (open_tag Person2) (c :: s)).
        -- destruct (boundary_false _ Bd) as [F1 F2].
           cbn [negb]. rewrite orb_true_r, F1, IH by reflexivity.
           rewrite opened_pending, F1, F2. reflexivity.
      * rewrite scan_false_cons.
        rewrite (scan_keeps_open Person1 Person2 c _ s Person2_default).
        rewrite IH by exact O.
        cbn [close_all pending_of closer_of]. rewrite opened_pending.
        destruct (boundary (c :: s));
          now destruct (startswith (open_tag Person1) (c :: s)),
                       (startswith (open_tag Person2) (c :: s)).
Qed.

(** The closing passes of the source are one scan. *)
Lemma close_tags_scan s : close_tags s = close_all None s.
Proof.
  unfold close_tags. cbn [default_tags map fold_left].
  change (str "Person1") with Person1. change (str "Person2") with Person2.
  rewrite (close_tag_scan Person1 Person1_default).
  rewrite (close_tag_scan Person2 Person2_default).
  apply (scans_one_scan s false false eq_refl).
Qed.

End OneScan.

Section ScanOfFlatTexts.

Local Abbreviation R := remove_unsupported.

Lemma opened_other c s : c <> "<"%char -> opened (c :: s) = None.
Proof.
  intros N. unfold opened.
  change (open_tag Person1) with ("<"%char :: str "Person1>").
  change (open_tag Person2) with ("<"%char :: str "Person2>").
  cbn [startswith]. destruct (Ascii.eqb_spec "<" c); [congruence|reflexivity].
Qed.

Lemma opening_other c s : c <> "<"%char -> opening (c :: s) = false.
Proof.
  intros N. unfold opening.
  change (open_tag Person1) with ("<"%char :: str "Person1>").
  change (open_tag Person2) with ("<"%char :: str "Person2>").
  cbn [startswith]. destruct (Ascii.eqb_spec "<" c); [congruence|reflexivity].
Qed.

Lemma opened_speaker s : speaker (opened s).
Proof.
  unfold opened. destruct (startswith (open_tag Person1) s);
    [apply Person1_default|].
  destruct (startswith (open_tag Person2) s); [apply Person2_default|exact I].
Qed.

(** The scan copies a character that neither opens a tag nor stands at
    the end. *)
Lemma close_all_other st c s :
  c <> "<"%char -> at_end (c :: s) = false ->
  close_all st (c :: s) = c :: close_all st s.
Proof.
  intros N E. cbn [close_all]. unfold boundary.
  rewrite (opening_other c s N), E, (opened_other c s N). reflexivity.
Qed.

Lemma close_all_body st b r :
  ~ In "<"%char b ->
  close_all st (b ++ ">"%char :: r) = b ++ ">"%char :: close_all st r.
Proof.
  intros N. induction b as [|c b IH]; cbn [app].
  - apply close_all_other; [discriminate|]. now destruct r.
  - simpl in N. rewrite close_all_other, IH; [reflexivity|tauto|tauto|].
    now destruct b.
Qed.

Lemma remove_closer st s : speaker st -> R (closer_of st ++ s) = R s.
Proof.
  destruct st as [tag|]; [|reflexivity]. intros H.
  destruct (default_tags_cases _ H) as [-> | ->].
  - change (closer_of (Some Person1) ++ s)
      with ("<"%char :: str "/Person1" ++ ">"%char :: s).
    rewrite remove_step. change (Ascii.eqb "<" "<") with true. cbn iota.
    rewrite to_gt_app; [reflexivity|].
    simpl. intros I. repeat (destruct I as [I|I]; [discriminate|]). exact I.
  - change (closer_of (Some Person2) ++ s)
      with ("<"%char :: str "/Person2" ++ ">"%char :: s).
    rewrite remove_step. change (Ascii.eqb "<" "<") with true. cbn iota.
    rewrite to_gt_app; [reflexivity|].
    simpl. intros I. repeat (destruct I as [I|I]; [discriminate|]). exact I.
Qed.

(** The first pass removes what the closing passes wrote. *)
Lemma remove_close_all s : flat s = true -> forall st, speaker st ->
  R (close_all st s) = R s.
Proof.
  remember (length s) as n eqn:E. revert s E.
  induction n as [n IH] using lt_wf_ind. intros s E F st V.
  destruct s as [|c s].
  - change (close_all st []) with (closer_of st ++ []).
    now rewrite remove_closer.
  - pose proof (flat_tail _ _ F) as T. cbn [close_all].
    set (st' := match opened (c :: s) with
                | Some tag => Some tag
                | None => if boundary (c :: s) then None else st
                end).
    assert (V' : speaker st').
    { unfold st'. pose proof (opened_speaker (c :: s)) as O.
      destruct (opened (c :: s)); [exact O|].
      destruct (boundary (c :: s)); [exact I|exact V]. }
    assert (P : R ((if boundary (c :: s) then closer_of st else [])
                   ++ c :: close_all st' s) = R (c :: close_all st' s)).
    { destruct (boundary (c :: s)); [now apply remove_closer|reflexivity]. }
    rewrite P. clear P.
    rewrite (remove_step (c :: s)), (remove_step (c :: close_all st' s)).
    assert (Hs : R (close_all st' s) = R s).
    { apply (IH (length s)); [simpl in E; lia|reflexivity|assumption|assumption]. }
    simpl in F. destruct (Ascii.eqb c "<"); [|now rewrite Hs].
    destruct (to_gt s) as [[b r]|] eqn:G; [|discriminate].
    apply andb_true_iff in F. destruct F as [F _]. apply no_lt_spec in F.
    apply to_gt_Some in G. destruct G as [-> G].
    rewrite close_all_body by assumption. rewrite (to_gt_app _ _ G).
    assert (Hr : R (close_all st' r) = R r).
    { apply (IH (length r)); [|reflexivity| |assumption].
      - subst n. simpl. rewrite length_app. simpl. lia.
      - apply (flat_app (b ++ [">"%char])). now rewrite <- app_assoc. }
    destruct (removable b); [exact Hr|].
    rewrite <- close_all_body by assumption. now rewrite Hs.
Qed.

End ScanOfFlatTexts.

(** * White space around the text and the closing passes *)

Section ScanAndSpaces.

Lemma space_not_lt c : is_space c = true -> c <> "<"%char.
Proof. intros H ->. discriminate. Qed.

Lemma space_not_gt c : is_space c = true -> c <> ">"%char.
Proof. intros H ->. discriminate. Qed.

Lemma spaces_no_lt w : spaces w -> ~ In "<"%char w.
Proof.
  intros W I. apply (proj1 (Forall_forall _ _) W) in I. discriminate.
Qed.

Lemma spaces_no_gt w : spaces w -> ~ In ">"%char w.
Proof.
  intros W I. apply (proj1 (Forall_forall _ _) W) in I. discriminate.
Qed.

Lemma spaces_app a b : spaces a -> spaces b -> spaces (a ++ b).
Proof. intros A B. apply Forall_app. now split. Qed.

(** With no tag pending the scan copies white space at the head. *)
Lemma close_all_leading w s :
  spaces w -> close_all None (w ++ s) = w ++ close_all None s.
Proof.
  induction 1 as [|c w C _ IH]; [reflexivity|].
  cbn [app close_all closer_of].
  rewrite (opened_other c (w ++ s) (space_not_lt _ C)).
  destruct (boundary (c :: w ++ s)); now rewrite IH.
Qed.

(** White space that does not end in a newline: the closing tag is
    written after it. *)
Lemma close_all_spaces st w :
  spaces w -> (forall w', w <> w' ++ [LF]) ->
  close_all st w = w ++ closer_of st.
Proof.
  induction 1 as [|c w C W IH]; intros N.
  - cbn. now rewrite app_nil_r.
  - rewrite close_all_other.
    + cbn [app]. rewrite IH; [reflexivity|].
      intros w' ->. apply (N (c :: w')). reflexivity.
    + now apply space_not_lt.
    + destruct w as [|d w]; [|reflexivity]. cbn [at_end].
      destruct (Ascii.eqb_spec c LF) as [->|]; [|reflexivity].
      exfalso. apply (N []). reflexivity.
Qed.

(** White space that ends in a newline: the closing tag is written
    before that newline. *)
Lemma close_all_spaces_lf st w :
  spaces w -> close_all st (w ++ [LF]) = w ++ closer_of st ++ [LF].
Proof.
  induction 1 as [|c w C W IH].
  - reflexivity.
  - cbn [app]. rewrite close_all_other, IH; [reflexivity| |].
    + now apply space_not_lt.
    + now destruct w.
Qed.

Lemma list_end (w : text) : w = [] \/ exists w' x, w = w' ++ [x].
Proof.
  destruct w as [|c w]; [now left|]. right.
  destruct (exists_last (l := c :: w)) as (w' & x & e); [discriminate|eauto].
Qed.

Lemma close_all_none_spaces w : spaces w -> close_all None w = w.
Proof.
  intros W. rewrite <- (app_nil_r w) at 1.
  rewrite close_all_leading by assumption.
  change (close_all None []) with (@nil ascii). apply app_nil_r.
Qed.

Lemma at_end_spaces c m w :
  no_trailing_space (c :: m) -> spaces w ->
  at_end ((c :: m) ++ w) = at_end (c :: m).
Proof.
  intros N W. destruct m as [|d m]; [|reflexivity].
  assert (C : is_space c = false) by (apply (N [] c); reflexivity).
  cbn [app at_end]. rewrite (not_space_not_LF _ C). now destruct w.
Qed.

Lemma opened_spaces a w : spaces w -> opened (a ++ w) = opened a.
Proof.
  intros W. unfold opened.
  rewrite !startswith_spaces; auto; apply spaceless_open; simpl; auto.
Qed.

Lemma no_trailing_space_tail c m :
  no_trailing_space (c :: m) -> no_trailing_space m.
Proof. intros N m' x ->. apply (N (c :: m') x). reflexivity. Qed.

(** Before white space at the end, the scan does not depend on that
    white space. *)
Lemma close_all_split m : no_trailing_space m -> forall st,
  exists front st', forall w, spaces w ->
    close_all st (m ++ w) = front ++ close_all st' w.
Proof.
  induction m as [|c m IH]; intros N st.
  - exists [], st. reflexivity.
  - set (st1 := match opened (c :: m) with
                | Some tag => Some tag
                | None => if boundary (c :: m) then None else st
                end).
    destruct (IH (no_trailing_space_tail _ _ N) st1) as (front & st' & H).
    exists ((if boundary (c :: m) then closer_of st else []) ++ c :: front), st'.
    intros w W. change ((c :: m) ++ w) with (c :: m ++ w).
    cbn [close_all]. change (c :: m ++ w) with ((c :: m) ++ w).
    unfold boundary at 1 2.
    rewrite (opening_spaces _ _ W), (at_end_spaces _ _ _ N W), (opened_spaces _ _ W).
    fold (boundary (c :: m)). fold st1. rewrite (H w W).
    now rewrite <- app_assoc.
Qed.

End ScanAndSpaces.

Section TrailingSpaces.

Lemma not_gt_space x : is_space x = true -> ">"%char = x -> False.
Proof. intros H <-. discriminate. Qed.

Lemma closer_last tag : closing_tag tag = (str "</" ++ tag) ++ [">"%char].
Proof. unfold closing_tag. now rewrite app_assoc. Qed.

Lemma spaces_end w x : spaces (w ++ [x]) -> spaces w /\ is_space x = true.
Proof.
  intros H. apply Forall_app in H. destruct H as [H1 H2].
  split; [assumption|]. now inversion H2.
Qed.

(** White space after the text does not change what the closing passes
    give for the text, when it stays behind what they wrote. *)
Lemma close_all_cancel m wu w2 o :
  no_trailing_space m -> spaces wu -> spaces w2 ->
  no_blank_lines (m ++ wu ++ w2) = true ->
  close_all None (m ++ wu ++ w2) = o ++ w2 ->
  close_all None (m ++ wu) = o.
Proof.
  intros N Wu W2 NB H.
  destruct (close_all_split m N None) as (front & st & S).
  rewrite (S _ (spaces_app _ _ Wu W2)) in H. rewrite (S _ Wu). clear S.
  destruct (list_end w2) as [-> | (w3 & x & ->)].
  { now rewrite !app_nil_r in H. }
  destruct (spaces_end _ _ W2) as [W3 X].
  assert (T : forall a, (front ++ wu) ++ w3 ++ [x] = o ++ w3 ++ [x] ->
                        a = wu -> front ++ a = o).
  { intros a E ->. now apply app_inv_tail in E. }
  destruct (Ascii.eqb_spec x LF) as [-> | NL].
  - rewrite (app_assoc wu w3 [LF]) in H.
    rewrite (close_all_spaces_lf st _ (spaces_app _ _ Wu W3)) in H.
    destruct st as [tag|].
    + cbn [closer_of] in H. rewrite closer_last in H.
      destruct (list_end w3) as [-> | (w4 & y & ->)].
      * rewrite app_nil_r in H. cbn [app] in H.
        rewrite !app_assoc in H. apply app_inj_tail in H. destruct H as [H _].
        rewrite close_all_spaces; [|assumption|].
        -- cbn [closer_of]. rewrite closer_last. rewrite <- H.
           now rewrite !app_assoc.
        -- intros w' ->. rewrite app_nil_l in NB.
           rewrite <- !app_assoc in NB. rewrite app_assoc in NB.
           exact (no_blank_lines_two _ _ NB).
      * destruct (spaces_end _ _ W3) as [_ Y].
        rewrite !app_assoc in H. apply app_inj_tail in H. destruct H as [H _].
        apply app_inj_tail in H. destruct H as [_ H].
        destruct (not_gt_space _ Y H).
    + cbn [closer_of app] in H. apply T; [|now apply close_all_none_spaces].
      rewrite <- H. now rewrite <- !app_assoc.
  - rewrite close_all_spaces in H; [|now apply spaces_app|].
    + destruct st as [tag|].
      * cbn [closer_of] in H. rewrite closer_last in H.
        rewrite !app_assoc in H. apply app_inj_tail in H. destruct H as [_ H].
        destruct (not_gt_space _ X H).
      * cbn [closer_of] in H. rewrite app_nil_r in H.
        apply T; [|now apply close_all_none_spaces].
        rewrite <- H. now rewrite <- !app_assoc.
    + intros w' E. rewrite !app_assoc in E. apply app_inj_tail in E.
      destruct E as [_ E]. contradiction.
Qed.

Lemma lstrip_head s c r : lstrip s = c :: r -> is_space c = false.
Proof.
  induction s as [|d s IH]; simpl; [discriminate|].
  destruct (is_space d) eqn:E; [assumption|]. now intros [= <- _].
Qed.

Lemma rstrip_no_trailing u : no_trailing_space (rstrip u).
Proof.
  intros m' c E. unfold rstrip in E. apply (f_equal (@rev ascii)) in E.
  rewrite rev_involutive, rev_app_distr in E. simpl in E.
  exact (lstrip_head _ _ _ E).
Qed.

Lemma lstrip_lstrip s : lstrip (lstrip s) = lstrip s.
Proof.
  induction s as [|c s IH]; [reflexivity|]. simpl.
  destruct (is_space c) eqn:E; [assumption|]. simpl. now rewrite E.
Qed.

Lemma rstrip_rstrip s : rstrip (rstrip s) = rstrip s.
Proof. unfold rstrip. now rewrite rev_involutive, lstrip_lstrip. Qed.

Lemma lstrip_snoc a c : is_space c = false -> lstrip (a ++ [c]) = lstrip a ++ [c].
Proof.
  intros E. induction a as [|x a IH]; simpl; [now rewrite E|].
  now destruct (is_space x).
Qed.

Lemma rstrip_cons c s : is_space c = false -> rstrip (c :: s) = c :: rstrip s.
Proof.
  intros E. unfold rstrip. simpl. rewrite (lstrip_snoc _ _ E).
  now rewrite rev_app_distr.
Qed.

Lemma strip_strip s : strip (strip s) = strip s.
Proof.
  unfold strip. destruct (lstrip s) as [|c y] eqn:E; [reflexivity|].
  pose proof (lstrip_head _ _ _ E) as C.
  rewrite (rstrip_cons _ _ C). simpl. rewrite C.
  rewrite <- (rstrip_cons _ _ C). apply rstrip_rstrip.
Qed.

End TrailingSpaces.

(** * Applying the sanitizer twice *)

Section Twice.

Lemma clean_passes x :
  clean_tss_markup x
  = strip (close_tags (collapse_blank_lines (remove_unsupported x))).
Proof. reflexivity. Qed.

(** What the passes before [strip] leave of a flat text is found again
    from the sanitized text. *)
Lemma clean_again t :
  reduced t = true -> no_blank_lines t = true ->
  close_tags (collapse_blank_lines (remove_unsupported (strip (close_tags t))))
  = strip (close_tags t).
Proof.
  intros Rd NB. rewrite !close_tags_scan.
  set (z := close_all None t). set (o := strip z).
  destruct (strip_spec z) as (w1 & w2 & W1 & W2 & Z). fold o in Z.
  assert (T : t = w1 ++ remove_unsupported o ++ w2).
  { rewrite <- (remove_reduced t Rd).
    rewrite <- (remove_close_all t (reduced_flat t Rd) None I).
    fold z. rewrite Z.
    rewrite (remove_copy w1 _ (spaces_no_lt _ W1)).
    now rewrite (remove_tail w2 (spaces_no_lt _ W2) (spaces_no_gt _ W2)). }
  set (u := remove_unsupported o) in *.
  assert (NU : no_blank_lines (u ++ w2) = true).
  { apply (no_blank_lines_app w1). now rewrite <- T. }
  rewrite (no_blank_lines_collapse u (no_blank_lines_prefix _ _ NU)).
  assert (C : close_all None (u ++ w2) = o ++ w2).
  { apply (app_inv_head w1). rewrite <- close_all_leading by assumption.
    rewrite <- T. exact Z. }
  destruct (rstrip_spec u) as (wu & Wu & U).
  rewrite U. rewrite U, <- app_assoc in C, NU.
  exact (close_all_cancel _ _ _ _ (rstrip_no_trailing u) Wu W2 NU C).
Qed.

End Twice.

(** C5, the claim as stated fails: the sanitizer removes a tag nested in
    another one and leaves the outer one, which the next application
    removes. *)
Lemma clean_twice_differs :
  clean_tss_markup (str "<p<x>q>") = str "<pq>"
  /\ clean_tss_markup (clean_tss_markup (str "<p<x>q>")) = [].
Proof. split; vm_compute; reflexivity. Qed.

(** C5, amended.  The sanitizer is idempotent on the texts whose tags are
    not nested and all closed: when every [<] of [x] is followed by a [>]
    with no [<] in between, sanitizing the sanitized text gives the
    sanitized text. *)
Theorem clean_idempotent_on_flat x :
  flat x = true ->
  clean_tss_markup (clean_tss_markup x) = clean_tss_markup x.
Proof.
  intros F. rewrite (clean_passes (clean_tss_markup x)), (clean_passes x).
  rewrite clean_again.
  - apply strip_strip.
  - apply collapse_reduced, flat_remove, F.
  - apply collapse_no_blank_lines.
Qed.

Lemma clean_idempotent_on_flat_witness :
  flat (str "<speak><b>Hi</b> <Person1>A <break/><Person2>B ") = true
  /\ clean_tss_markup
       (clean_tss_markup (str "<speak><b>Hi</b> <Person1>A <break/><Person2>B "))
     = clean_tss_markup (str "<speak><b>Hi</b> <Person1>A <break/><Person2>B ").
Proof.
  split; [reflexivity|]. apply clean_idempotent_on_flat. reflexivity.
Defined.

(** * More on the sanitizer *)

Section SanitizerPasses.

Local Abbreviation R := remove_unsupported.

Lemma lstrip_spaces w : spaces w -> lstrip w = [].
Proof. induction 1 as [|c w C _ IH]; [reflexivity|]. simpl. now rewrite C. Qed.

Lemma strip_spaces w : spaces w -> strip w = [].
Proof. intros W. unfold strip. now rewrite (lstrip_spaces _ W). Qed.

Lemma collapse_spaces w : spaces w -> spaces (collapse_blank_lines w).
Proof.
  intros W. apply Forall_forall. intros x I.
  apply (proj1 (Forall_forall _ _) W), (collapse_in _ _ I).
Qed.

(** The first pass works on each side of the end of a flat text. *)
Lemma remove_app pre s : flat pre = true -> R (pre ++ s) = R pre ++ R s.
Proof.
  remember (length pre) as n eqn:E. revert pre E.
  induction n as [n IH] using lt_wf_ind. intros pre E F.
  destruct pre as [|c pre]; [reflexivity|].
  pose proof (flat_tail _ _ F) as T.
  assert (Hs : R (pre ++ s) = R pre ++ R s).
  { apply (IH (length pre)); [simpl in E; lia|reflexivity|assumption]. }
  cbn [app]. rewrite (remove_step (c :: pre ++ s)), (remove_step (c :: pre)).
  simpl in F. destruct (Ascii.eqb c "<"); [|now rewrite Hs].
  destruct (to_gt pre) as [[b r]|] eqn:G; [|discriminate].
  apply to_gt_Some in G. destruct G as [-> G].
  rewrite <- app_assoc. cbn [app]. rewrite (to_gt_app _ _ G).
  destruct (removable b).
  - apply (IH (length r)).
    + subst n. simpl. rewrite length_app. simpl. lia.
    + reflexivity.
    + apply (flat_app (b ++ [">"%char])). now rewrite <- app_assoc.
  - change (b ++ ">"%char :: r ++ s) with (b ++ (">"%char :: r) ++ s).
    rewrite app_assoc, Hs. reflexivity.
Qed.

(** A tag that the pattern matches is removed where the scan meets it. *)
Lemma remove_tag b s :
  ~ In ">"%char b -> removable b = true ->
  R ("<"%char :: b ++ ">"%char :: s) = R s.
Proof.
  intros G M. rewrite remove_step. change (Ascii.eqb "<" "<") with true.
  cbn iota. now rewrite (to_gt_app _ _ G), M.
Qed.

Lemma close_all_no_speaker s :
  occurs (open_tag Person1) s = false -> occurs (open_tag Person2) s = false ->
  close_all None s = s.
Proof.
  induction s as [|c s IH]; intros H1 H2; [reflexivity|].
  cbn [occurs] in H1, H2. apply orb_false_iff in H1, H2.
  destruct H1 as [S1 O1], H2 as [S2 O2].
  cbn [close_all closer_of]. unfold opened. rewrite S1, S2.
  destruct (boundary (c :: s)); cbn [app]; now rewrite IH.
Qed.

Lemma no_blank_lines_copy a s :
  ~ In LF a -> no_blank_lines (a ++ s) = no_blank_lines s.
Proof.
  induction a as [|c a IH]; intros N; [reflexivity|]. simpl in *.
  destruct (Ascii.eqb_spec c LF) as [->|_]; [tauto|]. apply IH. tauto.
Qed.

Lemma closer_head st s :
  closer_of st ++ s = s \/ exists t, closer_of st ++ s = "<"%char :: t.
Proof. destruct st as [tag|]; [right; eexists; reflexivity|now left]. Qed.

Lemma closer_without_LF st : speaker st -> ~ In LF (closer_of st).
Proof.
  destruct st as [tag|]; [|intros _ []]. intros H.
  destruct (default_tags_cases _ H) as [-> | ->]; simpl; intros I;
    repeat (destruct I as [I|I]; [discriminate|]); exact I.
Qed.

Lemma close_all_keeps_none s : forall st,
  after_last_lf s = None -> after_last_lf (close_all st s) = None.
Proof.
  induction s as [|c s IH]; intros st H.
  - change (close_all st []) with (closer_of st ++ []).
    destruct (closer_head st []) as [-> | (t & ->)]; reflexivity.
  - cbn [close_all].
    set (st' := match opened (c :: s) with
                | Some tag => Some tag
                | None => if boundary (c :: s) then None else st
                end).
    assert (A : after_last_lf (c :: close_all st' s) = None).
    { simpl in *. destruct (is_space c); [|reflexivity].
      destruct (after_last_lf s); [discriminate|].
      rewrite (IH st' eq_refl). now destruct (Ascii.eqb c LF). }
    destruct (boundary (c :: s)); [|exact A].
    destruct (closer_head st (c :: close_all st' s)) as [-> | (t & ->)];
      [exact A|reflexivity].
Qed.

(** The closing passes make no blank line. *)
Lemma close_all_no_blank_lines s : forall st, speaker st ->
  no_blank_lines s = true -> no_blank_lines (close_all st s) = true.
Proof.
  induction s as [|c s IH]; intros st V H.
  - change (close_all st []) with (closer_of st ++ []).
    now rewrite (no_blank_lines_copy _ _ (closer_without_LF st V)).
  - cbn [close_all].
    set (st' := match opened (c :: s) with
                | Some tag => Some tag
                | None => if boundary (c :: s) then None else st
                end).
    assert (V' : speaker st').
    { unfold st'. pose proof (opened_speaker (c :: s)) as O.
      destruct (opened (c :: s)); [exact O|].
      destruct (boundary (c :: s)); [exact I|exact V]. }
    assert (A : no_blank_lines (c :: close_all st' s) = true).
    { simpl in *. apply andb_true_iff in H. destruct H as [H1 H2].
      rewrite (IH st' V' H2), andb_true_r.
      destruct (Ascii.eqb c LF); [|reflexivity].
      destruct (after_last_lf s) eqn:L; [discriminate|].
      now rewrite (close_all_keeps_none s st' L). }
    destruct (boundary (c :: s)); [|exact A].
    now rewrite (no_blank_lines_copy _ _ (closer_without_LF st V)).
Qed.

End SanitizerPasses.

(** X1.  A text made of white space only (the empty text included) is
    sanitized to the empty text. *)
Theorem clean_of_white_space x :
  spaces x -> clean_tss_markup x = [].
Proof.
  intros W. rewrite clean_passes, close_tags_scan.
  rewrite (remove_plain x (spaces_no_lt _ W)).
  rewrite (close_all_none_spaces _ (collapse_spaces _ W)).
  apply strip_spaces, collapse_spaces, W.
Qed.

Lemma clean_of_white_space_witness :
  clean_tss_markup [SPACE; LF; LF; SPACE] = [].
Proof. apply clean_of_white_space. repeat constructor. Defined.

(** X2.  Markup that is already clean is kept as it is: when every tag of
    [x] is a complete tag that the pattern of the first pass does not
    match (a supported SSML tag that is not a closing tag), [x] has no
    speaker tag and no blank line, the sanitizer only strips the white
    space around [x]. *)
Theorem clean_keeps_supported_markup x :
  reduced x = true ->
  occurs (open_tag Person1) x = false ->
  occurs (open_tag Person2) x = false ->
  no_blank_lines x = true ->
  clean_tss_markup x = strip x.
Proof.
  intros Rd P1 P2 NB. rewrite clean_passes, close_tags_scan.
  rewrite (remove_reduced x Rd), (no_blank_lines_collapse x NB).
  now rewrite (close_all_no_speaker x P1 P2).
Qed.

Lemma clean_keeps_supported_markup_witness :
  clean_tss_markup (str " <speak>Hi <break time='1s'/> there ")
  = strip (str " <speak>Hi <break time='1s'/> there ").
Proof. apply clean_keeps_supported_markup; reflexivity. Defined.

(** X3.  Every closing tag is dropped, whatever its name, also the
    closing tag of a supported SSML tag such as [</speak>]: after a flat
    text, sanitizing with the closing tag gives what sanitizing without it
    gives. *)
Theorem clean_drops_closing_tags pre name suf :
  flat pre = true -> ~ In ">"%char name ->
  clean_tss_markup (pre ++ str "</" ++ name ++ str ">" ++ suf)
  = clean_tss_markup (pre ++ suf).
Proof.
  intros F G. rewrite !clean_passes. do 3 f_equal.
  rewrite !(remove_app pre _ F). f_equal.
  apply (remove_tag ("/"%char :: name) suf); [|reflexivity].
  simpl. intros [H|H]; [discriminate|tauto].
Qed.

Lemma clean_drops_closing_tags_witness :
  clean_tss_markup (str "<speak>Hi" ++ str "</" ++ str "speak" ++ str ">" ++ str " there")
  = clean_tss_markup (str "<speak>Hi" ++ str " there").
Proof.
  apply clean_drops_closing_tags; [reflexivity|].
  simpl. intros H. repeat (destruct H as [H|H]; [discriminate|]). exact H.
Defined.

(** X4.  A tag that is not supported is dropped and the text around it is
    joined: for a tag body [b] (the text between [<] and the first [>])
    that does not start with a supported tag name followed by a word
    boundary, sanitizing with the tag after a flat text gives what
    sanitizing without it gives. *)
Theorem clean_drops_unsupported_tag pre b suf :
  flat pre = true -> ~ In ">"%char b -> removable b = true ->
  clean_tss_markup (pre ++ str "<" ++ b ++ str ">" ++ suf)
  = clean_tss_markup (pre ++ suf).
Proof.
  intros F G M. rewrite !clean_passes. do 3 f_equal.
  rewrite !(remove_app pre _ F). f_equal.
  exact (remove_tag b suf G M).
Qed.

Lemma clean_drops_unsupported_tag_witness :
  clean_tss_markup (str "Hi <p>" ++ str "<" ++ str "speaker id='1'" ++ str ">" ++ str "you")
  = clean_tss_markup (str "Hi <p>" ++ str "you").
Proof.
  apply clean_drops_unsupported_tag; [reflexivity| |reflexivity].
  simpl. intros H. repeat (destruct H as [H|H]; [discriminate|]). exact H.
Defined.

(** X5.  Whatever the input, the sanitized text has no blank line (no
    newline followed by white space and another newline) and no white
    space at its ends. *)
Theorem clean_leaves_no_blank_line x :
  no_blank_lines (clean_tss_markup x) = true
  /\ strip (clean_tss_markup x) = clean_tss_markup x.
Proof.
  rewrite clean_passes, close_tags_scan. split; [|apply strip_strip].
  set (z := close_all None (collapse_blank_lines (remove_unsupported x))).
  assert (Z : no_blank_lines z = true).
  { apply close_all_no_blank_lines; [exact I|apply collapse_no_blank_lines]. }
  destruct (strip_spec z) as (w1 & w2 & _ & _ & E). rewrite E in Z.
  apply no_blank_lines_app in Z. exact (no_blank_lines_prefix _ _ Z).
Qed.

(** * [split] and [join] in [split_qa] *)

Section Words.

Lemma spaceless_rev w : spaceless w -> spaceless (rev w).
Proof. apply Forall_rev. Qed.

Lemma split_aux_words s : forall w,
  spaceless w -> Forall word (split_ws_aux w s).
Proof.
  induction s as [|c s IH]; intros w W.
  - destruct w as [|x w]; [constructor|]. constructor; [|constructor]. split.
    + simpl. now destruct (rev w).
    + now apply spaceless_rev.
  - cbn [split_ws_aux]. destruct (is_space c) eqn:E.
    + destruct w as [|x w]; [apply IH; constructor|].
      constructor; [|apply IH; constructor]. split.
      * simpl. now destruct (rev w).
      * now apply spaceless_rev.
    + apply IH. now constructor.
Qed.

Lemma split_words s : Forall word (split_ws s).
Proof. apply split_aux_words. constructor. Qed.

Lemma split_aux_word w : spaceless w -> forall acc s,
  split_ws_aux acc (w ++ s) = split_ws_aux (rev w ++ acc) s.
Proof.
  induction 1 as [|c w C _ IH]; intros acc s; [reflexivity|].
  cbn [app split_ws_aux]. rewrite C, IH. simpl. now rewrite <- app_assoc.
Qed.

Lemma split_join l : Forall word l -> split_ws (join [SPACE] l) = l.
Proof.
  unfold split_ws. induction 1 as [|x l [N S] F IH]; [reflexivity|].
  destruct l as [|y l].
  - cbn [join]. rewrite <- (app_nil_r x) at 1.
    rewrite (split_aux_word x S). rewrite app_nil_r. cbn [split_ws_aux].
    destruct (rev x) eqn:E.
    + apply (f_equal (@rev ascii)) in E. rewrite rev_involutive in E. now subst x.
    + rewrite <- E. now rewrite rev_involutive.
  - change (join [SPACE] (x :: y :: l)) with (x ++ SPACE :: join [SPACE] (y :: l)).
    rewrite (split_aux_word x S). rewrite app_nil_r. cbn [split_ws_aux].
    change (is_space SPACE) with true. cbn iota.
    destruct (rev x) eqn:E.
    + apply (f_equal (@rev ascii)) in E. rewrite rev_involutive in E. now subst x.
    + rewrite <- E. rewrite rev_involutive. now rewrite IH.
Qed.

Lemma lstrip_id c t : is_space c = false -> lstrip (c :: t) = c :: t.
Proof. intros E. simpl. now rewrite E. Qed.

Lemma rstrip_id t : no_trailing_space t -> rstrip t = t.
Proof.
  intros N. unfold rstrip. destruct (rev t) as [|c r] eqn:E.
  - apply (f_equal (@rev ascii)) in E. now rewrite rev_involutive in E.
  - rewrite lstrip_id.
    + rewrite <- E. apply rev_involutive.
    + apply (N (rev r)). apply (f_equal (@rev ascii)) in E.
      now rewrite rev_involutive in E.
Qed.

Lemma word_head w : word w -> exists c r, w = c :: r /\ is_space c = false.
Proof.
  intros [N S]. destruct w as [|c r]; [congruence|].
  exists c, r. split; [reflexivity|]. now inversion S.
Qed.

Lemma word_no_trailing w : word w -> no_trailing_space w.
Proof.
  intros [_ S] m c ->. apply (proj1 (Forall_forall _ _) S).
  apply in_or_app. right. now left.
Qed.

Lemma join_cons x y l :
  join [SPACE] (x :: y :: l) = x ++ SPACE :: join [SPACE] (y :: l).
Proof. reflexivity. Qed.

Lemma join_head l : Forall word l -> l <> [] ->
  exists c r, join [SPACE] l = c :: r /\ is_space c = false.
Proof.
  intros F N. destruct F as [|x l W F]; [congruence|].
  destruct (word_head _ W) as (c & r & -> & C).
  destruct l as [|y l]; [exists c, r; now split|].
  rewrite join_cons. exists c. eexists. split; [reflexivity|assumption].
Qed.

Lemma join_no_trailing l : Forall word l -> no_trailing_space (join [SPACE] l).
Proof.
  induction 1 as [|x l W F IH].
  - intros m c E. now destruct m.
  - destruct l as [|y l]; [now apply word_no_trailing|].
    rewrite join_cons. intros m c E.
    destruct (join_head _ F) as (d & r & J & _); [discriminate|].
    destruct (list_end (join [SPACE] (y :: l))) as [Z | (j & e & Z)];
      [rewrite Z in J; discriminate|].
    rewrite Z in E.
    change (x ++ SPACE :: j ++ [e]) with (x ++ (SPACE :: j) ++ [e]) in E.
    rewrite app_assoc in E. apply app_inj_tail in E. destruct E as [_ <-].
    apply (IH j e Z).
Qed.

Lemma strip_join l : Forall word l -> strip (join [SPACE] l) = join [SPACE] l.
Proof.
  intros F. unfold strip. destruct l as [|x l]; [reflexivity|].
  destruct (join_head _ F) as (c & r & J & C); [discriminate|].
  rewrite J, (lstrip_id _ _ C), <- J.
  apply rstrip_id, join_no_trailing, F.
Qed.

Lemma normalize_join s : normalize s = join [SPACE] (split_ws s).
Proof. apply strip_join, split_words. Qed.

Lemma normalize_tidy s : tidy (normalize s).
Proof. exists (split_ws s). split; [apply split_words|apply normalize_join]. Qed.

End Words.

(** X6.  In [' '.join(person.split()).strip()] the final [strip] changes
    nothing: the text of a turn is the words of the matched text joined
    by single spaces. *)
Theorem normalize_is_join_of_split s :
  normalize s = join [SPACE] (split_ws s).
Proof. unfold normalize. apply strip_join, split_words. Qed.

(** X7.  Splitting at white space undoes joining with single spaces:
    for words (non-empty texts without white space),
    [' '.join(l).split()] is [l]. *)
Theorem split_of_join l :
  Forall word l -> split_ws (join [SPACE] l) = l.
Proof. apply split_join. Qed.

Lemma split_of_join_witness :
  split_ws (join [SPACE] [str "Hi"; str "there"]) = [str "Hi"; str "there"].
Proof.
  apply split_of_join.
  repeat constructor; discriminate.
Defined.

(** X8.  Whatever the transcript, both texts of every turn returned by
    [split_qa] are words separated by single spaces: no newline or tab, no
    white space at the ends, no two spaces in a row; normalizing them
    again changes nothing. *)
Theorem split_qa_turns_are_tidy ending_message input_text q a :
  In (q, a) (split_qa ending_message input_text) ->
  (tidy q /\ normalize q = q) /\ (tidy a /\ normalize a = a).
Proof.
  unfold split_qa. intros H. apply in_map_iff in H.
  destruct H as ([p1 p2] & [= <- <-] & _).
  assert (T : forall p, tidy (normalize p) /\ normalize (normalize p) = normalize p).
  { intros p. split; [apply normalize_tidy|].
    rewrite (normalize_join (normalize p)), (normalize_join p).
    now rewrite (split_join _ (split_words p)). }
  split; apply T.
Qed.

Lemma split_qa_turns_are_tidy_witness :
  (tidy (str "Hi there") /\ normalize (str "Hi there") = str "Hi there")
  /\ (tidy (str "Bye") /\ normalize (str "Bye") = str "Bye").
Proof.
  apply (split_qa_turns_are_tidy (str "Bye")
           (str "<Person1> Hi" ++ [LF] ++ str "  there </Person1>")).
  vm_compute. left. reflexivity.
Defined.

(** * Transcripts of complete turns *)

Section Turns.

Lemma lazy_star_here R p prev s cs (k : cont R) x :
  k prev s cs = Some x -> lazy_star p prev s cs k = Some x.
Proof. intros H. destruct s; cbn [lazy_star]; now rewrite H. Qed.

(** A lazy repetition steps over a text on which the rest of the pattern
    cannot start. *)
Lemma lazy_skip R (k : cont R) q s cs x :
  no_tag q ->
  (forall p c t, c <> "<"%char -> k p (c :: t) cs = None) ->
  (forall p, k p s cs = Some x) ->
  forall prev, lazy_star any_char prev (q ++ s) cs k = Some x.
Proof.
  intros N F K. induction q as [|c q IH]; intros prev.
  - apply lazy_star_here, K.
  - cbn [app lazy_star]. rewrite F.
    + apply IH. intros I. apply N. now right.
    + intros ->. apply N. now left.
Qed.

Lemma star_spaces_then R (k : cont R) sep c t cs x :
  spaces sep -> is_space c = false ->
  (forall p, k p (c :: t) cs = Some x) ->
  forall prev, star is_space prev (sep ++ c :: t) cs k = Some x.
Proof.
  intros S C K. induction S as [|d sep D _ IH]; intros prev.
  - cbn [app star]. rewrite C. apply K.
  - cbn [app star]. rewrite D, IH. reflexivity.
Qed.

Lemma lit_lt_fails R l b p c t cs (k : cont R) :
  c <> "<"%char -> rmatch (Cat (Lit ("<"%char :: l)) b) p (c :: t) cs k = None.
Proof.
  intros N. rewrite rmatch_cat, rmatch_lit. cbn [strip_prefix].
  destruct (Ascii.eqb_spec "<" c); [congruence|reflexivity].
Qed.

Lemma lit_lt_fails_last R l p c t cs (k : cont R) :
  c <> "<"%char -> rmatch (Lit ("<"%char :: l)) p (c :: t) cs k = None.
Proof.
  intros N. rewrite rmatch_lit. cbn [strip_prefix].
  destruct (Ascii.eqb_spec "<" c); [congruence|reflexivity].
Qed.

Lemma rmatch_star R p b prev s cs (k : cont R) :
  rmatch (Cat (Star p) b) prev s cs k
  = star p prev s cs (fun p' t c => rmatch b p' t c k).
Proof. reflexivity. Qed.

(** The pattern of [split_qa] at the head of a turn. *)
Lemma pair_match sep q a rest prev :
  no_tag q -> no_tag a -> spaces sep ->
  match_here qa_pattern prev (turn_text sep (q, a) ++ rest)
  = Some (rest, [(2, a); (1, q)]).
Proof.
  intros Nq Na S. unfold match_here, qa_pattern, turn_text. cbn [fst snd].
  rewrite <- !app_assoc. rewrite rmatch_cat, rmatch_lit, strip_prefix_app.
  rewrite rmatch_cat, rmatch_group_lazy.
  apply lazy_skip; [exact Nq| |].
  - intros p c t N. now apply lit_lt_fails.
  - intros p. rewrite firstn_suffix.
    rewrite rmatch_cat, rmatch_lit, strip_prefix_app, rmatch_star.
    apply star_spaces_then; [exact S|reflexivity|].
    intros p2. rewrite rmatch_cat, rmatch_lit.
    match goal with
    | |- context [strip_prefix ?l ?s] =>
        rewrite (proj2 (strip_prefix_Some l s (a ++ str "</Person2>" ++ rest))
                   eq_refl)
    end.
    rewrite rmatch_cat, rmatch_group_lazy.
    apply lazy_skip; [exact Na| |].
    + intros p3 c t N. now apply lit_lt_fails_last.
    + intros p3. rewrite firstn_suffix, rmatch_lit, strip_prefix_app. reflexivity.
Qed.

Lemma qa_other c s : c <> "<"%char -> match_here qa_pattern None (c :: s) = None.
Proof. intros N. now apply lit_lt_fails. Qed.

Lemma findall_skip w rest :
  no_tag w -> findall2 qa_pattern (w ++ rest) = findall2 qa_pattern rest.
Proof.
  induction w as [|c w IH]; intros N; [reflexivity|]. cbn [app].
  rewrite (@findall2_step qa_pattern qa_prev_free qa_nonempty), qa_other.
  - apply IH. intros I. apply N. now right.
  - intros ->. apply N. now left.
Qed.

Lemma findall_turn sep q a rest :
  no_tag q -> no_tag a -> spaces sep ->
  findall2 qa_pattern (turn_text sep (q, a) ++ rest)
  = (q, a) :: findall2 qa_pattern rest.
Proof.
  intros Nq Na S.
  rewrite (@findall2_step qa_pattern qa_prev_free qa_nonempty).
  now rewrite (pair_match sep q a rest None Nq Na S).
Qed.

Lemma findall_script sep l rest :
  spaces sep -> Forall (fun t => no_tag (fst t) /\ no_tag (snd t)) l ->
  findall2 qa_pattern (script sep l ++ rest) = l ++ findall2 qa_pattern rest.
Proof.
  intros S F. induction F as [|[q a] l [Nq Na] _ IH]; [reflexivity|].
  cbn [script flat_map fst snd] in *. rewrite <- !app_assoc.
  rewrite (findall_turn sep q a _ Nq Na S).
  rewrite (findall_skip sep _ (spaces_no_lt _ S)).
  cbn [app]. f_equal. exact IH.
Qed.

(** The segment that [split_qa] appends holds no turn. *)
Lemma findall_ending e :
  no_tag e ->
  findall2 qa_pattern (str "<Person2>" ++ e ++ str "</Person2>") = [].
Proof.
  intros N.
  rewrite (@findall2_step qa_pattern qa_prev_free qa_nonempty).
  change (match_here qa_pattern None (str "<Person2>" ++ e ++ str "</Person2>"))
    with (@None (text * caps)).
  change (str "<Person2>" ++ e ++ str "</Person2>")
    with ("<"%char :: str "Person2>" ++ e ++ str "</Person2>").
  cbv iota. rewrite (findall_skip (str "Person2>")).
  - rewrite (findall_skip e _ N). reflexivity.
  - simpl. intros H. repeat (destruct H as [H|H]; [discriminate|]). exact H.
Qed.

End Turns.

(** X9.  On a transcript made of complete turns whose texts hold no [<]
    (white space [sep] after each line), [split_qa] returns the turns of
    the transcript, normalized, and nothing else: the ending message is
    in none of them. *)
Theorem split_qa_of_complete_turns ending_message sep l :
  spaces sep ->
  Forall (fun t => no_tag (fst t) /\ no_tag (snd t)) l ->
  no_tag ending_message ->
  split_qa ending_message (script sep l) = map normalize_turn l.
Proof.
  intros S F E. unfold split_qa.
  rewrite (findall_script sep l _ S F), (findall_ending _ E), app_nil_r.
  apply map_ext. now intros [q a].
Qed.

Lemma split_qa_of_complete_turns_witness :
  split_qa (str "Bye") (script [LF] [(str "Hi", str "Hello"); (str "So?", str "Yes")])
  = [(str "Hi", str "Hello"); (str "So?", str "Yes")].
Proof.
  apply (split_qa_of_complete_turns (str "Bye") [LF]
           [(str "Hi", str "Hello"); (str "So?", str "Yes")]).
  - repeat constructor.
  - repeat constructor; simpl; intros H;
      repeat (destruct H as [H|H]; [discriminate|]); exact H.
  - simpl. intros H. repeat (destruct H as [H|H]; [discriminate|]). exact H.
Defined.

(** X10.  When the transcript ends with a [<Person1>] line that has no
    answer (after complete turns, white space [w] after the line), the
    ending message becomes the answer of that line: [split_qa] returns
    the turns of the transcript followed by the turn of the last question
    and the ending message. *)
Theorem split_qa_answers_last_question ending_message sep w l q :
  spaces sep -> spaces w ->
  Forall (fun t => no_tag (fst t) /\ no_tag (snd t)) l ->
  no_tag q -> no_tag ending_message ->
  split_qa ending_message
    (script sep l ++ str "<Person1>" ++ q ++ str "</Person1>" ++ w)
  = map normalize_turn l ++ [normalize_turn (q, ending_message)].
Proof.
  intros S W F Q E. unfold split_qa.
  replace ((script sep l ++ str "<Person1>" ++ q ++ str "</Person1>" ++ w)
           ++ str "<Person2>" ++ ending_message ++ str "</Person2>")
    with (script sep l ++ turn_text w (q, ending_message) ++ []).
  - rewrite (findall_script sep l _ S F).
    rewrite (findall_turn w q ending_message [] Q E W).
    rewrite map_app. f_equal. apply map_ext. now intros [q' a'].
  - unfold turn_text. cbn [fst snd]. now rewrite <- !app_assoc, app_nil_r.
Qed.

Lemma split_qa_answers_last_question_witness :
  split_qa (str "Bye")
    (script [LF] [(str "Hi", str "Hello")]
     ++ str "<Person1>" ++ str "Thanks" ++ str "</Person1>" ++ [LF])
  = [(str "Hi", str "Hello"); (str "Thanks", str "Bye")].
Proof.
  apply (split_qa_answers_last_question (str "Bye") [LF] [LF]
           [(str "Hi", str "Hello")] (str "Thanks")).
  - repeat constructor.
  - repeat constructor.
  - repeat constructor; simpl; intros H;
      repeat (destruct H as [H|H]; [discriminate|]); exact H.
  - simpl. intros H. repeat (destruct H as [H|H]; [discriminate|]). exact H.
  - simpl. intros H. repeat (destruct H as [H|H]; [discriminate|]). exact H.
Defined.

(** * The closing turn of [split_qa] *)

Section ClosingTurn.

Lemma star_none R p prev s cs (k : cont R) :
  (forall prev' s', is_suffix s' s -> k prev' s' cs = None) ->
  star p prev s cs k = None.
Proof.
  revert prev. induction s as [|x s IH]; intros prev H; simpl.
  - apply H, is_suffix_refl.
  - destruct (p x); [|apply H, is_suffix_refl].
    rewrite IH.
    + apply H, is_suffix_refl.
    + intros p' s' S'. apply H. now apply is_suffix_cons.
Qed.

(** The pattern needs a [<Person2>] after the [<Person1>] line. *)
Lemma qa_needs_answer prev s :
  occurs (str "<Person2>") s = false -> match_here qa_pattern prev s = None.
Proof.
  intros H. unfold match_here, qa_pattern. cbn [rmatch].
  destruct (strip_prefix (str "<Person1>") s) as [u|] eqn:E; [|reflexivity].
  apply strip_prefix_Some in E.
  assert (Su : is_suffix u s) by (now exists (str "<Person1>")).
  apply lazy_star_none. intros p' s' S'.
  destruct (strip_prefix (str "</Person1>") s') as [v|] eqn:E'; [|reflexivity].
  apply strip_prefix_Some in E'.
  assert (Sv : is_suffix v s').
  { now exists (str "</Person1>"). }
  apply star_none. intros p'' t St.
  rewrite strip_prefix_startswith.
  rewrite (occurs_suffix _ _ _ H); [reflexivity|].
  eapply is_suffix_trans; [exact St|].
  eapply is_suffix_trans; [exact Sv|].
  eapply is_suffix_trans; [exact S'|exact Su].
Qed.

Lemma findall_needs_answer s :
  occurs (str "<Person2>") s = false -> findall2 qa_pattern s = [].
Proof.
  induction s as [|x s IH]; intros H;
    rewrite (@findall2_step qa_pattern qa_prev_free qa_nonempty), (qa_needs_answer None _ H).
  - reflexivity.
  - apply IH. simpl in H. apply orb_false_iff in H. tauto.
Qed.

Lemma occurs_no_tag l t :
  no_tag t -> occurs ("<"%char :: l) t = false.
Proof.
  induction t as [|c t IH]; intros N; [reflexivity|].
  cbn [occurs startswith]. destruct (Ascii.eqb_spec "<" c) as [<-|D].
  - exfalso. apply N. now left.
  - cbn [orb]. apply IH. intros I. apply N. now right.
Qed.

Lemma occurs_skip l c t :
  c <> "<"%char -> occurs ("<"%char :: l) (c :: t) = occurs ("<"%char :: l) t.
Proof.
  intros D. cbn [occurs startswith].
  destruct (Ascii.eqb_spec "<" c); [congruence|reflexivity].
Qed.

(** A [<Person1>] line that nothing follows but white space holds no
    [<Person2>]. *)
Lemma last_question_unanswered q w :
  no_tag q -> spaces w ->
  occurs (str "<Person2>") (str "<Person1>" ++ q ++ str "</Person1>" ++ w) = false.
Proof.
  intros Q W.
  assert (T : forall u, occurs (str "<Person2>") u = false ->
                        occurs (str "<Person2>") (q ++ u) = false).
  { intros u U. induction q as [|c q IH]; [exact U|].
    cbn [app]. rewrite (occurs_skip (str "Person2>")).
    - apply IH. intros I. apply Q. now right.
    - intros ->. apply Q. now left. }
  assert (U : occurs (str "<Person2>") (str "</Person1>" ++ w) = false).
  { assert (V : occurs (str "<Person2>") w = false)
      by (apply (occurs_no_tag (str "Person2>")), spaces_no_lt, W).
    simpl. simpl in V. rewrite V. reflexivity. }
  specialize (T _ U). simpl. simpl in T. rewrite T. reflexivity.
Qed.

Lemma script_with_last_question (ending_message sep w : text) l (q : text) :
  (script sep l ++ str "<Person1>" ++ q ++ str "</Person1>" ++ w)
  ++ str "<Person2>" ++ ending_message ++ str "</Person2>"
  = script sep l ++ turn_text w (q, ending_message) ++ [].
Proof. unfold turn_text. cbn [fst snd]. now rewrite <- !app_assoc, app_nil_r. Qed.

End ClosingTurn.

(** C1, amended.  For a transcript made of complete turns (a
    [<Person1>] line and a [<Person2>] line each, white space [sep] after
    every line, no [<] inside the texts) the number of turns that
    [split_qa] returns is the number of matched pairs of the transcript,
    with no closing turn.  When one more [<Person1>] line follows that has
    no answer, the number of turns is the number of matched pairs of the
    transcript plus one: the last turn is the closing one, with the ending
    message as the text of [Person2] and the unanswered line as the text
    of [Person1]. *)
Theorem split_qa_count ending_message sep l :
  spaces sep ->
  Forall (fun t => no_tag (fst t) /\ no_tag (snd t)) l ->
  no_tag ending_message ->
  length (findall2 qa_pattern (script sep l)) = length l
  /\ length (split_qa ending_message (script sep l))
     = length (findall2 qa_pattern (script sep l))
  /\ forall q w, no_tag q -> spaces w ->
       let input_text := script sep l ++ str "<Person1>" ++ q ++ str "</Person1>" ++ w in
       length (findall2 qa_pattern input_text) = length l
       /\ length (split_qa ending_message input_text)
          = length (findall2 qa_pattern input_text) + 1
       /\ last (split_qa ending_message input_text) ([], [])
          = (normalize q, normalize ending_message).
Proof.
  intros S F E.
  assert (A : findall2 qa_pattern (script sep l) = l).
  { rewrite <- (app_nil_r (script sep l)).
    rewrite (findall_script sep l [] S F). apply app_nil_r. }
  split; [now rewrite A|]. split.
  - unfold split_qa.
    rewrite (findall_script sep l _ S F), (findall_ending _ E), app_nil_r.
    now rewrite A, length_map.
  - intros q w Q W input_text.
    assert (B : findall2 qa_pattern input_text = l).
    { unfold input_text. rewrite (findall_script sep l _ S F).
      rewrite (findall_needs_answer _ (last_question_unanswered q w Q W)).
      apply app_nil_r. }
    assert (C : split_qa ending_message input_text
                = map normalize_turn l ++ [(normalize q, normalize ending_message)]).
    { unfold split_qa, input_text. rewrite script_with_last_question.
      rewrite (findall_script sep l _ S F).
      rewrite (findall_turn w q ending_message [] Q E W).
      rewrite map_app. f_equal. apply map_ext. now intros [q' a']. }
    split; [now rewrite B|]. split.
    + rewrite C, B, length_app, length_map. reflexivity.
    + rewrite C. apply last_last.
Qed.

Lemma split_qa_count_witness :
  length (findall2 qa_pattern (script [LF] [(str "Hi", str "Hello")])) = 1
  /\ length (split_qa (str "Bye") (script [LF] [(str "Hi", str "Hello")]))
     = length (findall2 qa_pattern (script [LF] [(str "Hi", str "Hello")]))
  /\ forall q w, no_tag q -> spaces w ->
       let input_text :=
         script [LF] [(str "Hi", str "Hello")]
         ++ str "<Person1>" ++ q ++ str "</Person1>" ++ w in
       length (findall2 qa_pattern input_text) = 1
       /\ length (split_qa (str "Bye") input_text)
          = length (findall2 qa_pattern input_text) + 1
       /\ last (split_qa (str "Bye") input_text) ([], [])
          = (normalize q, normalize (str "Bye")).
Proof.
  apply (split_qa_count (str "Bye") [LF] [(str "Hi", str "Hello")]).
  - repeat constructor.
  - repeat constructor; simpl; intros H;
      repeat (destruct H as [H|H]; [discriminate|]); exact H.
  - simpl. intros H. repeat (destruct H as [H|H]; [discriminate|]). exact H.
Defined.

(** C2, amended.  With the ending message Bye, the transcript of the
    scenario gives exactly the turn (Hi, Hello).  The turn that carries
    the ending message comes when a [<Person1>] line without an answer
    ends the transcript, and then that line is its first text: for every
    text [q] without [<], the scenario's transcript followed by
    [<Person1>q</Person1>] gives exactly (Hi, Hello) and then ([q]
    normalized, Bye), in that order. *)
Theorem split_qa_scenario_with_last_question q :
  no_tag q ->
  split_qa (str "Bye") (str "<Person1>Hi</Person1><Person2>Hello</Person2>")
  = [(str "Hi", str "Hello")]
  /\ split_qa (str "Bye")
       (str "<Person1>Hi</Person1><Person2>Hello</Person2>"
        ++ str "<Person1>" ++ q ++ str "</Person1>")
     = [(str "Hi", str "Hello"); (normalize q, str "Bye")].
Proof.
  intros Q. split; [vm_compute; reflexivity|].
  assert (E : no_tag (str "Bye")).
  { simpl. intros H. repeat (destruct H as [H|H]; [discriminate|]). exact H. }
  unfold split_qa.
  replace ((str "<Person1>Hi</Person1><Person2>Hello</Person2>"
            ++ str "<Person1>" ++ q ++ str "</Person1>")
           ++ str "<Person2>" ++ str "Bye" ++ str "</Person2>")
    with (script [] [(str "Hi", str "Hello")] ++ turn_text [] (q, str "Bye") ++ []).
  - rewrite (findall_script [] [(str "Hi", str "Hello")]).
    + rewrite (findall_turn [] q (str "Bye") [] Q E (Forall_nil _)). reflexivity.
    + constructor.
    + repeat constructor; simpl; intros H;
        repeat (destruct H as [H|H]; [discriminate|]); exact H.
  - unfold turn_text. cbn [fst snd]. simpl. rewrite <- !app_assoc. reflexivity.
Qed.

Lemma split_qa_scenario_with_last_question_witness :
  split_qa (str "Bye") (str "<Person1>Hi</Person1><Person2>Hello</Person2>")
  = [(str "Hi", str "Hello")]
  /\ split_qa (str "Bye")
       (str "<Person1>Hi</Person1><Person2>Hello</Person2>"
        ++ str "<Person1>" ++ str "  One   more thing " ++ str "</Person1>")
     = [(str "Hi", str "Hello"); (normalize (str "  One   more thing "), str "Bye")].
Proof.
  apply (split_qa_scenario_with_last_question (str "  One   more thing ")).
  simpl. intros H. repeat (destruct H as [H|H]; [discriminate|]). exact H.
Defined.

(** * Transcripts whose speaker tags are not closed *)

Section OpenTurns.

Lemma plain_no_tag q : plain q -> no_tag q.
Proof.
  intros P I. apply (proj1 (Forall_forall _ _) P) in I. now destruct I.
Qed.

Lemma plain_no_LF q : plain q -> ~ In LF q.
Proof.
  intros P I. apply (proj1 (Forall_forall _ _) P) in I. now destruct I.
Qed.

Lemma reduced_open tag s :
  In tag default_tags -> reduced (open_tag tag ++ s) = reduced s.
Proof.
  intros H. destruct (default_tags_cases _ H) as [-> | ->]; reflexivity.
Qed.

Lemma reduced_open_script l :
  Forall (fun t => plain (fst t) /\ plain (snd t)) l ->
  reduced (open_script l) = true.
Proof.
  induction 1 as [|[q a] l [Pq Pa] _ IH]; [reflexivity|].
  cbn [open_script flat_map fst snd]. rewrite <- !app_assoc.
  rewrite (reduced_open _ _ Person1_default).
  rewrite (reduced_copy q _ (plain_no_tag _ Pq)).
  rewrite (reduced_open _ _ Person2_default).
  rewrite (reduced_copy a _ (plain_no_tag _ Pa)). exact IH.
Qed.

Lemma no_blank_lines_open tag s :
  In tag default_tags -> no_blank_lines (open_tag tag ++ s) = no_blank_lines s.
Proof.
  intros H. destruct (default_tags_cases _ H) as [-> | ->]; reflexivity.
Qed.

Lemma no_blank_lines_open_script l :
  Forall (fun t => plain (fst t) /\ plain (snd t)) l ->
  no_blank_lines (open_script l) = true.
Proof.
  induction 1 as [|[q a] l [Pq Pa] _ IH]; [reflexivity|].
  cbn [open_script flat_map fst snd]. rewrite <- !app_assoc.
  rewrite (no_blank_lines_open _ _ Person1_default).
  rewrite (no_blank_lines_copy q _ (plain_no_LF _ Pq)).
  rewrite (no_blank_lines_open _ _ Person2_default).
  rewrite (no_blank_lines_copy a _ (plain_no_LF _ Pa)). exact IH.
Qed.

Lemma at_end_other c s : c <> LF -> at_end (c :: s) = false.
Proof.
  intros N. destruct s; [|reflexivity]. cbn [at_end].
  destruct (Ascii.eqb_spec c LF); [congruence|reflexivity].
Qed.

Lemma close_all_plain st q s :
  plain q -> close_all st (q ++ s) = q ++ close_all st s.
Proof.
  induction 1 as [|c q [N1 N2] _ IH]; [reflexivity|].
  cbn [app]. rewrite close_all_other, IH; [reflexivity|assumption|].
  now apply at_end_other.
Qed.

Lemma close_all_open st tag s :
  In tag default_tags ->
  close_all st (open_tag tag ++ s)
  = closer_of st ++ open_tag tag ++ close_all (Some tag) s.
Proof.
  intros H. destruct (default_tags_cases _ H) as [-> | ->].
  - change (open_tag Person1 ++ s) with ("<"%char :: str "Person1" ++ ">"%char :: s).
    cbn [close_all]. unfold boundary, opening, opened.
    change (startswith (open_tag Person1) ("<"%char :: str "Person1" ++ ">"%char :: s))
      with true. cbn [orb].
    rewrite close_all_body; [reflexivity|].
    simpl. intros I. repeat (destruct I as [I|I]; [discriminate|]). exact I.
  - change (open_tag Person2 ++ s) with ("<"%char :: str "Person2" ++ ">"%char :: s).
    cbn [close_all]. unfold boundary, opening, opened.
    change (startswith (open_tag Person2) ("<"%char :: str "Person2" ++ ">"%char :: s))
      with true.
    change (startswith (open_tag Person1) ("<"%char :: str "Person2" ++ ">"%char :: s))
      with false. cbn [orb].
    rewrite close_all_body; [reflexivity|].
    simpl. intros I. repeat (destruct I as [I|I]; [discriminate|]). exact I.
Qed.

(** The closing passes close every speaker tag of such a transcript. *)
Lemma close_all_open_script l :
  Forall (fun t => plain (fst t) /\ plain (snd t)) l ->
  close_all (Some Person2) (open_script l) = closing_tag Person2 ++ script [] l
  /\ close_all None (open_script l) = script [] l.
Proof.
  induction 1 as [|[q a] l [Pq Pa] _ [IH _]]; [split; reflexivity|].
  assert (T : forall st,
    close_all st (open_script ((q, a) :: l))
    = closer_of st ++ script [] ((q, a) :: l)).
  { intros st. cbn [open_script script flat_map fst snd]. rewrite <- !app_assoc.
    rewrite (close_all_open _ _ _ Person1_default), (close_all_plain _ q _ Pq).
    rewrite (close_all_open _ _ _ Person2_default), (close_all_plain _ a _ Pa).
    fold (open_script l). rewrite IH. unfold turn_text. cbn [fst snd closer_of].
    now rewrite <- !app_assoc. }
  split; [apply (T (Some Person2))|apply (T None)].
Qed.

Lemma no_trailing_app a b :
  no_trailing_space a -> no_trailing_space b -> no_trailing_space (a ++ b).
Proof.
  intros A B m c E. destruct (list_end b) as [-> | (b' & x & ->)].
  - rewrite app_nil_r in E. exact (A m c E).
  - rewrite app_assoc in E. apply app_inj_tail in E. destruct E as [_ <-].
    exact (B b' x eq_refl).
Qed.

Lemma no_trailing_script l : no_trailing_space (script [] l).
Proof.
  induction l as [|[q a] l IH].
  - intros m c E. now destruct m.
  - cbn [script flat_map]. rewrite app_nil_r.
    apply no_trailing_app; [|exact IH].
    intros m c E. unfold turn_text in E. cbn [fst snd] in E.
    change (str "</Person2>") with (str "</Person2" ++ [">"%char]) in E.
    rewrite !app_assoc in E. apply app_inj_tail in E. now destruct E as [_ <-].
Qed.

Lemma strip_script l : strip (script [] l) = script [] l.
Proof.
  unfold strip. destruct l as [|[q a] l]; [reflexivity|].
  assert (H : exists r, script [] ((q, a) :: l) = "<"%char :: r)
    by (eexists; reflexivity).
  destruct H as (r & H). rewrite H, lstrip_id by reflexivity. rewrite <- H.
  apply rstrip_id.
  apply no_trailing_script.
Qed.

(** The sanitizer writes the closing tags that the transcript left out. *)
Lemma clean_open_script l :
  Forall (fun t => plain (fst t) /\ plain (snd t)) l ->
  clean_tss_markup (open_script l) = script [] l.
Proof.
  intros F. rewrite clean_passes, close_tags_scan.
  rewrite (remove_reduced _ (reduced_open_script l F)).
  rewrite (no_blank_lines_collapse _ (no_blank_lines_open_script l F)).
  rewrite (proj2 (close_all_open_script l F)). apply strip_script.
Qed.

End OpenTurns.

(** X11.  Sanitizing and then segmenting a transcript whose speaker tags
    are never closed ([<Person1>q<Person2>a<Person1>...], the texts
    without [<] and newline) gives the turns of the transcript: the
    sanitizer writes the closing tags where [split_qa] needs them. *)
Theorem split_qa_after_clean ending_message l :
  Forall (fun t => plain (fst t) /\ plain (snd t)) l ->
  no_tag ending_message ->
  split_qa ending_message (clean_tss_markup (open_script l))
  = map normalize_turn l.
Proof.
  intros F E. rewrite (clean_open_script l F).
  unfold split_qa.
  rewrite (findall_script [] l _ (Forall_nil _)), (findall_ending _ E), app_nil_r.
  - apply map_ext. now intros [q a].
  - apply (Forall_impl _ (P := fun t => plain (fst t) /\ plain (snd t))); [|exact F].
    intros t [P1 P2]. split; now apply plain_no_tag.
Qed.

Lemma split_qa_after_clean_witness :
  split_qa (str "Bye")
    (clean_tss_markup (str "<Person1>Hi<Person2>Hello <Person1>So?<Person2>Yes"))
  = [(str "Hi", str "Hello"); (str "So?", str "Yes")].
Proof.
  apply (split_qa_after_clean (str "Bye")
           [(str "Hi", str "Hello "); (str "So?", str "Yes")]).
  - repeat constructor; discriminate.
  - simpl. intros H. repeat (destruct H as [H|H]; [discriminate|]). exact H.
Defined.

(** * Errors of the merge *)

Section MergeErrors.

Lemma mapM_inl A B (f : A -> result B) l e :
  mapM f l = inl e -> exists x, In x l /\ f x = inl e.
Proof.
  induction l as [|x l IH]; cbn [mapM]; [discriminate|].
  destruct (f x) as [e1|y] eqn:E; cbn [bind].
  - intros [= <-]. exists x. split; [now left|assumption].
  - destruct (mapM f l) as [e2|ys]; cbn [bind]; [|discriminate].
    intros [= <-]. destruct (IH eq_refl) as (z & I & Z).
    exists z. split; [now right|assumption].
Qed.

Lemma mapM_inr A B (f : A -> result B) l : forall ys,
  mapM f l = inr ys -> Forall2 (fun x y => f x = inr y) l ys.
Proof.
  induction l as [|x l IH]; cbn [mapM]; intros ys.
  - intros [= <-]. constructor.
  - destruct (f x) as [e1|y] eqn:E; cbn [bind]; [discriminate|].
    destruct (mapM f l) as [e2|ys']; cbn [bind]; [discriminate|].
    intros [= <-]. constructor; [assumption|]. now apply IH.
Qed.

Lemma key_of_piece_fails t e :
  key_of_piece t = inl e -> e = ValueError t /\ isdigit t = true /\ int t = None.
Proof.
  unfold key_of_piece. destruct (isdigit t); [|discriminate].
  destruct (int t); [discriminate|]. intros [= <-]. auto.
Qed.

Lemma keyed_shapes l : forall kl,
  mapM (fun x => k <- natural_sort_key x ;; inr (k, x)) l = inr kl ->
  Forall (fun p : list key_part * text => key_shape (fst p)) kl.
Proof.
  intros kl M. apply mapM_inr in M.
  induction M as [|x p l kl E _ IH]; constructor; [|assumption].
  destruct (natural_sort_key x) as [e|k] eqn:K; cbn [bind] in E; [discriminate|].
  injection E as <-. exact (natural_key_shape _ _ K).
Qed.

Lemma lookup_write_other n m d fs :
  n <> m -> lookup n (write_file m d fs) = lookup n fs.
Proof.
  intros N. induction fs as [|[x e] fs IH]; simpl.
  - rewrite text_eqb_neq; [reflexivity|congruence].
  - destruct (text_eqb x m) eqn:E; simpl.
    + apply text_eqb_eq in E. subst x.
      rewrite text_eqb_neq; [reflexivity|congruence].
    + destruct (text_eqb x n); [reflexivity|exact IH].
Qed.

End MergeErrors.

(** X12.  Sorting file names with [natural_sort_key] can only fail while
    a key is computed, never while keys are compared: when [sorted]
    raises, the exception is the [ValueError] of [int] on a piece of some
    file name that [str.isdigit] accepts and [int] cannot read (a run of
    superscript digits between decimal digits).  No [TypeError] comes from
    comparing an integer with a string. *)
Theorem natural_sort_raises_only_value_error l e :
  sorted natural_sort_key l = inl e ->
  exists f t, In f l /\ natural_sort_key f = inl e
              /\ e = ValueError t /\ isdigit t = true /\ int t = None.
Proof.
  unfold sorted.
  destruct (mapM (fun x => k <- natural_sort_key x ;; inr (k, x)) l)
    as [e0|kl] eqn:M; cbn [bind].
  - intros [= <-]. apply mapM_inl in M. destruct M as (f & I & K).
    destruct (natural_sort_key f) as [e1|k] eqn:Kf; cbn [bind] in K; [|discriminate].
    injection K as <-. exists f. unfold natural_sort_key in Kf.
    destruct (mapM_inl _ _ _ _ _ Kf) as (t & _ & T).
    exists t. split; [assumption|]. split; [assumption|].
    now apply key_of_piece_fails.
  - destruct (sort_keyed_ok text kl (keyed_shapes l kl M)) as (sl & -> & _).
    discriminate.
Qed.

Lemma natural_sort_raises_only_value_error_witness :
  exists f t,
    In f [str "2.mp3"; "1"%char :: ascii_of_N 178 :: str "3.mp3"]
    /\ natural_sort_key f = inl (ValueError [ascii_of_N 178])
    /\ ValueError [ascii_of_N 178] = ValueError t
    /\ isdigit t = true /\ int t = None.
Proof.
  apply (natural_sort_raises_only_value_error
           [str "2.mp3"; "1"%char :: ascii_of_N 178 :: str "3.mp3"]).
  vm_compute. reflexivity.
Defined.

(** X14.  Sorted with [natural_sort_key], clips come in the order of
    their numbers, whatever the number of digits: for every list of
    counters, sorting the names [{counter}.{audio_format}] succeeds and
    gives the names of the same counters in increasing order (10 after 9,
    not before 2). *)
Theorem clips_sort_by_number cfg cs :
  no_superscript (audio_format cfg) = true ->
  exists cs', sorted natural_sort_key (map (clip_name cfg) cs)
              = inr (map (clip_name cfg) cs')
              /\ Permutation cs' cs /\ StronglySorted N.le cs'.
Proof.
  intros Fp.
  destruct (sorted_ok text natural_sort_key (map (clip_name cfg) cs)) as (l & E & P & S).
  { intros f Hf. apply in_map_iff in Hf. destruct Hf as (i & <- & _).
    destruct (natural_key_defined _ (clip_name_plain cfg Fp i)) as [k K].
    exists k. split; [assumption|]. exact (natural_key_shape _ _ K). }
  apply Permutation_map_inv in P. destruct P as (cs' & -> & P).
  exists cs'. split; [assumption|]. split; [now symmetry|].
  apply (sorted_counters cfg Fp). exact S.
Qed.

Lemma clips_sort_by_number_witness :
  exists cs', sorted natural_sort_key
                (map (clip_name example_config) [10; 2; 100; 9]%N)
              = inr (map (clip_name example_config) cs')
              /\ Permutation cs' [10; 2; 100; 9]%N /\ StronglySorted N.le cs'.
Proof. apply clips_sort_by_number. reflexivity. Defined.

(** * More on the sequential conversions *)

Section RunStates.

Variable listdir : files -> list text.
Variable cfg : config.
Variable svc : service.

Lemma merge_nothing output_file w :
  selected listdir cfg w = [] ->
  merge_audio_files listdir cfg output_file w
  = (log_line (str "Merged audio saved to " ++ output_file)
       (export_file cfg output_file [] w), inr tt).
Proof. intros H. unfold merge_audio_files, merge_try. now rewrite H. Qed.

(** The state of the loop of the OpenAI conversion when a call fails:
    the clips of the calls before it were saved. *)
Lemma openai_loop_state qa : forall r n k e,
  first_failure svc (tts_model cfg) (calls_of cfg qa) n = Some (k, e) ->
  exists clips r',
    mapM (call svc cfg) (firstn (k - n) (calls_of cfg qa)) = inr clips
    /\ length clips = k - n /\ n <= k
    /\ for_each (openai_turn cfg svc) qa r = (r', inl e)
    /\ run_world r' = run_world (saved cfg clips r).
Proof.
  induction qa as [|[q a] qa IH]; intros r n k e H; [discriminate|].
  cbn [calls_of flat_map app fst snd first_failure] in H.
  cbn [calls_of flat_map app fst snd for_each openai_turn openai_line].
  fold (calls_of cfg qa).
  destruct (svc (tts_model cfg) (question_voice cfg) q) as [e1|d1] eqn:Q.
  - injection H as <- <-. rewrite Nat.sub_diag. exists []. eexists.
    split; [reflexivity|]. split; [reflexivity|]. split; [lia|].
    split; reflexivity.
  - destruct (svc (tts_model cfg) (answer_voice cfg) a) as [e2|d2] eqn:A.
    + injection H as <- <-. replace (S n - n) with 1 by lia.
      exists [d1]. eexists. cbn [firstn mapM]. unfold call. cbn [fst snd].
      rewrite Q. cbn [bind]. split; [reflexivity|]. split; [reflexivity|].
      split; [lia|]. split; reflexivity.
    + destruct (IH (save cfg d2 (save cfg d1 r)) _ _ _ H)
        as (clips & r' & M & L & B & E & W).
      exists (d1 :: d2 :: clips), r'.
      replace (k - n) with (S (S (k - S (S n)))) by lia.
      cbn [firstn mapM]. unfold call at 1 2. cbn [fst snd].
      rewrite Q, A, M. cbn [bind length]. rewrite L.
      split; [reflexivity|]. split; [reflexivity|]. split; [lia|].
      split; [exact E|exact W].
Qed.

(** Removing the clips of a run from the directory they were added to. *)
Lemma remove_file_filter f (p : text * AudioSegment -> bool) gs :
  filter p (remove_file f gs)
  = filter (fun x => negb (text_eqb (fst x) f) && p x) gs.
Proof.
  unfold remove_file. induction gs as [|x gs IH]; [reflexivity|]. simpl.
  destruct (text_eqb (fst x) f); simpl; [exact IH|].
  destruct (p x); now rewrite IH.
Qed.

Lemma cleanup_filter ns : forall gs,
  fold_left (fun fs f => remove_file f fs) ns gs
  = filter (fun x => negb (existsb (text_eqb (fst x)) ns)) gs.
Proof.
  induction ns as [|n ns IH]; intros gs; cbn [fold_left existsb].
  - symmetry. now apply filter_all.
  - rewrite IH, remove_file_filter. apply filter_ext. intros x.
    now destruct (text_eqb (fst x) n).
Qed.

Lemma cleanup_added ns ds fs :
  (forall n, In n ns -> ~ In n (names fs)) ->
  fold_left (fun gs f => remove_file f gs) ns (fs ++ combine ns ds) = fs.
Proof.
  intros H. rewrite cleanup_filter, filter_app.
  rewrite filter_all, filter_none; [apply app_nil_r| |].
  - intros [n d] I. apply in_combine_l in I. cbn [fst].
    apply negb_false_iff, existsb_exists. exists n.
    split; [assumption|apply text_eqb_refl].
  - intros x I. apply negb_true_iff.
    destruct (existsb (text_eqb (fst x)) ns) eqn:E; [|reflexivity].
    apply existsb_exists in E. destruct E as (n & In_n & E).
    apply text_eqb_eq in E. subst n. exfalso. apply (H _ In_n).
    now apply in_map.
Qed.

Hypothesis listdir_lists : forall fs, Permutation (listdir fs) (names fs).
Hypothesis format_plain : no_superscript (audio_format cfg) = true.

(** The world after the tail of a conversion whose clips were saved in a
    directory without file of the format. *)
Lemma finish_world output_file w clips :
  (forall f, In f (names (temp_dir w)) -> endswith f (extension cfg) = false) ->
  in_temp_audio_dir cfg output_file = None ->
  finish listdir cfg output_file (saved cfg clips (Run w 0%N []))
  = (World (temp_dir w)
       (write_file output_file (concat clips) (outputs w))
       ((log w ++ [str "Merged audio saved to " ++ output_file])
        ++ [str "Audio saved to " ++ output_file]),
     inr tt).
Proof.
  intros Fresh Out.
  set (r := saved cfg clips (Run w 0%N [])).
  set (ns := map (clip_name cfg) (numbers 1 (length clips))).
  assert (New : forall i, (1 <= i)%N -> ~ In (clip_name cfg i) (names (temp_dir w))).
  { intros i _ I. apply Fresh in I. rewrite clip_name_ext in I. discriminate. }
  destruct (saved_spec cfg clips (Run w 0%N []) New) as (T & A & O & L).
  fold r in T, A, O, L. cbn [run_world counter temp_dir N.add] in T. fold ns in T.
  cbn [run_world counter audio_files outputs log N.add app] in A, O, L. fold ns in A.
  assert (Len : length ns = length clips)
    by (unfold ns; now rewrite length_map, numbers_length).
  assert (Nm : names (temp_dir (run_world r)) = names (temp_dir w) ++ ns)
    by (rewrite T, names_app, names_combine; auto).
  assert (Sel : filter (fun f => endswith f (extension cfg))
                  (names (temp_dir (run_world r))) = ns).
  { rewrite Nm, filter_app, (filter_none _ _ _ Fresh), filter_all; [reflexivity|].
    intros f Hf. unfold ns in Hf. apply in_map_iff in Hf.
    destruct Hf as (i & <- & _). apply clip_name_ext. }
  destruct (merge_ok listdir cfg output_file (run_world r)) as (l & _ & P & S & M).
  - apply listdir_lists.
  - intros f I E. rewrite Nm in I. apply in_app_iff in I. destruct I as [I|I].
    + apply Fresh in I. congruence.
    + unfold ns in I. apply in_map_iff in I. destruct I as (i & <- & _).
      now apply clip_name_plain.
  - rewrite Sel in P.
    assert (l = ns)
      by (apply (sorted_clip_names cfg format_plain); auto using numbers_sorted).
    subst l. unfold finish. rewrite M. unfold export_file. rewrite Out.
    unfold log_line, cleanup, export. cbn [temp_dir outputs log].
    rewrite A, T, O, L. unfold ns. rewrite (contents_clips cfg clips 1 _ New).
    rewrite cleanup_added; [reflexivity|].
    intros n I. apply in_map_iff in I.
    destruct I as (i & <- & Hi). apply New. apply numbers_above in Hi. exact Hi.
Qed.

End RunStates.

(** X15.  A transcript without turns is no error: when [split_qa] finds
    no turn and the temporary directory lists no file of the audio
    format, both sequential conversions return normally without calling
    the speech service, export an empty audio segment to [output_file],
    log the two lines of a successful run and change nothing else. *)
Theorem no_turns_give_empty_audio listdir cfg svc input output_file w :
  split_qa (ending_message cfg) input = [] ->
  selected listdir cfg w = [] ->
  let w' := export_file cfg output_file [] w in
  convert_to_speech_openai listdir cfg svc input output_file w
  = (World (temp_dir w') (outputs w')
       ((log w ++ [str "Merged audio saved to " ++ output_file])
        ++ [str "Audio saved to " ++ output_file]), inr tt)
  /\ convert_to_speech_elevenlabs listdir cfg svc input output_file w
     = (World (temp_dir w') (outputs w')
          ((log w ++ [str "Merged audio saved to " ++ output_file])
           ++ [str "Audio saved to " ++ output_file]), inr tt).
Proof.
  intros Q S w'. unfold convert_to_speech_openai, convert_to_speech_elevenlabs.
  rewrite Q. cbn [for_each]. unfold finish. cbn [run_world audio_files].
  rewrite (merge_nothing listdir cfg output_file w S). fold w'.
  assert (L : log w' = log w)
    by (unfold w', export_file; now destruct (in_temp_audio_dir cfg output_file)).
  unfold log_line, cleanup, logged. cbn [fold_left temp_dir outputs log].
  rewrite L. split; reflexivity.
Qed.

Lemma no_turns_give_empty_audio_witness :
  convert_to_speech_openai names example_config
    (fun _ _ _ => inl (ServiceError (str "down"))) [] (str "out.mp3") empty_world
  = (World [] [(str "out.mp3", [])]
       [str "Merged audio saved to out.mp3"; str "Audio saved to out.mp3"], inr tt)
  /\ convert_to_speech_elevenlabs names example_config
       (fun _ _ _ => inl (ServiceError (str "down"))) [] (str "out.mp3") empty_world
     = (World [] [(str "out.mp3", [])]
          [str "Merged audio saved to out.mp3"; str "Audio saved to out.mp3"], inr tt).
Proof.
  apply (no_turns_give_empty_audio names example_config
           (fun _ _ _ => inl (ServiceError (str "down"))) [] (str "out.mp3")
           empty_world); reflexivity.
Defined.

(** X16.  A failed run leaves its clips behind: when the call number [k]
    (from 0) of the OpenAI conversion fails, in a temporary directory that
    held no file of the audio format, the [k] clips synthesized before
    stay in the directory under the names [1.fmt] ... [k.fmt]; they are
    not removed. *)
Theorem failed_run_leaves_its_clips listdir cfg svc input output_file w k e :
  (forall f, In f (names (temp_dir w)) -> endswith f (extension cfg) = false) ->
  first_failure svc (tts_model cfg)
    (calls_of cfg (split_qa (ending_message cfg) input)) 0 = Some (k, e) ->
  exists w' clips,
    convert_to_speech_openai listdir cfg svc input output_file w = (w', inl e)
    /\ mapM (call svc cfg)
         (firstn k (calls_of cfg (split_qa (ending_message cfg) input)))
       = inr clips
    /\ length clips = k
    /\ temp_dir w'
       = temp_dir w ++ combine (map (clip_name cfg) (numbers 1 k)) clips.
Proof.
  intros Fresh H.
  destruct (openai_loop_state cfg svc _ (Run w 0%N []) _ _ _ H)
    as (clips & r' & M & L & _ & E & W).
  rewrite Nat.sub_0_r in M, L.
  assert (New : forall i, (1 <= i)%N -> ~ In (clip_name cfg i) (names (temp_dir w))).
  { intros i _ I. apply Fresh in I. rewrite clip_name_ext in I. discriminate. }
  destruct (saved_spec cfg clips (Run w 0%N []) New) as (T & _).
  cbn [run_world counter temp_dir N.add] in T.
  unfold convert_to_speech_openai. rewrite E. cbn [logged].
  eexists. exists clips. split; [reflexivity|]. split; [exact M|].
  split; [exact L|]. unfold log_line. cbn [temp_dir].
  rewrite W, T, L. reflexivity.
Qed.

Lemma failed_run_leaves_its_clips_witness :
  exists w' clips,
    convert_to_speech_openai names example_config (fails_on (str "Bye"))
      example_transcript (str "out.mp3") empty_world
    = (w', inl (ServiceError (str "timeout")))
    /\ mapM (call (fails_on (str "Bye")) example_config)
         (firstn 3 (calls_of example_config
                      (split_qa (ending_message example_config) example_transcript)))
       = inr clips
    /\ length clips = 3
    /\ temp_dir w'
       = temp_dir empty_world
         ++ combine (map (clip_name example_config) (numbers 1 3)) clips.
Proof.
  apply (failed_run_leaves_its_clips names example_config (fails_on (str "Bye"))
           example_transcript (str "out.mp3") empty_world 3).
  - intros f [].
  - vm_compute. reflexivity.
Defined.

(** X17.  The two sequential back ends do the same when every call of the
    speech service succeeds: with the same service they raise or return
    alike, leave the same temporary directory and the same output files,
    and when they return normally they leave the same log. *)
Theorem sequential_backends_agree listdir cfg svc input output_file w clips :
  mapM (call svc cfg) (calls_of cfg (split_qa (ending_message cfg) input)) = inr clips ->
  let o := convert_to_speech_openai listdir cfg svc input output_file w in
  let l := convert_to_speech_elevenlabs listdir cfg svc input output_file w in
  snd o = snd l
  /\ temp_dir (fst o) = temp_dir (fst l)
  /\ outputs (fst o) = outputs (fst l)
  /\ (snd o = inr tt -> o = l).
Proof.
  intros H. unfold convert_to_speech_openai, convert_to_speech_elevenlabs.
  rewrite (openai_loop_ok cfg svc _ _ _ H), (elevenlabs_loop_ok cfg svc _ _ _ H).
  destruct (finish listdir cfg output_file (saved cfg clips (Run w 0%N [])))
    as [w1 [e|[]]]; cbn.
  - split; [reflexivity|]. split; [reflexivity|]. split; [reflexivity|discriminate].
  - split; [reflexivity|]. split; [reflexivity|]. split; reflexivity.
Qed.

Lemma sequential_backends_agree_witness :
  convert_to_speech_openai names example_config (fun _ _ t => inr [Z.of_nat (length t)])
    example_transcript (str "out.mp3") empty_world
  = convert_to_speech_elevenlabs names example_config
      (fun _ _ t => inr [Z.of_nat (length t)])
      example_transcript (str "out.mp3") empty_world.
Proof.
  apply (sequential_backends_agree names example_config
           (fun _ _ t => inr [Z.of_nat (length t)])
           example_transcript (str "out.mp3") empty_world
           [[2]; [5]; [6]; [3]]%Z);
    vm_compute; reflexivity.
Defined.

(** X18.  A successful sequential conversion leaves the temporary
    directory as it found it: when every call succeeds, the directory
    held no file of the audio format (the format has no superscript
    digit) and [output_file] is not a path of that directory, both
    conversions return normally, every clip of the run is removed again,
    the only file written is [output_file] with the clips end to end, and
    exactly two lines are logged. *)
Theorem successful_run_cleans_up listdir cfg svc input output_file w clips :
  (forall fs, Permutation (listdir fs) (names fs)) ->
  no_superscript (audio_format cfg) = true ->
  (forall f, In f (names (temp_dir w)) -> endswith f (extension cfg) = false) ->
  in_temp_audio_dir cfg output_file = None ->
  mapM (call svc cfg) (calls_of cfg (split_qa (ending_message cfg) input)) = inr clips ->
  convert_to_speech_openai listdir cfg svc input output_file w
  = (World (temp_dir w)
       (write_file output_file (concat clips) (outputs w))
       ((log w ++ [str "Merged audio saved to " ++ output_file])
        ++ [str "Audio saved to " ++ output_file]), inr tt)
  /\ convert_to_speech_elevenlabs listdir cfg svc input output_file w
     = (World (temp_dir w)
          (write_file output_file (concat clips) (outputs w))
          ((log w ++ [str "Merged audio saved to " ++ output_file])
           ++ [str "Audio saved to " ++ output_file]), inr tt).
Proof.
  intros Hl Hf Hw Ho Hc.
  unfold convert_to_speech_openai, convert_to_speech_elevenlabs.
  rewrite (openai_loop_ok cfg svc _ _ _ Hc), (elevenlabs_loop_ok cfg svc _ _ _ Hc).
  rewrite (finish_world listdir cfg Hl Hf output_file w clips Hw Ho).
  split; reflexivity.
Qed.

Lemma successful_run_cleans_up_witness :
  convert_to_speech_openai names example_config (fun _ _ t => inr [Z.of_nat (length t)])
    example_transcript (str "out.mp3")
    (World [(str "notes.txt", [0%Z])] [] [])
  = (World [(str "notes.txt", [0%Z])]
       [(str "out.mp3", [2; 5; 6; 3]%Z)]
       [str "Merged audio saved to out.mp3"; str "Audio saved to out.mp3"], inr tt)
  /\ convert_to_speech_elevenlabs names example_config
       (fun _ _ t => inr [Z.of_nat (length t)])
       example_transcript (str "out.mp3")
       (World [(str "notes.txt", [0%Z])] [] [])
     = (World [(str "notes.txt", [0%Z])]
          [(str "out.mp3", [2; 5; 6; 3]%Z)]
          [str "Merged audio saved to out.mp3"; str "Audio saved to out.mp3"], inr tt).
Proof.
  apply (successful_run_cleans_up names example_config
           (fun _ _ t => inr [Z.of_nat (length t)])
           example_transcript (str "out.mp3")
           (World [(str "notes.txt", [0%Z])] [] []) [[2]; [5]; [6]; [3]]%Z).
  - intros fs. apply Permutation_refl.
  - reflexivity.
  - intros f [<-|[]]. reflexivity.
  - reflexivity.
  - vm_compute. reflexivity.
Defined.

(** * The files of the Google conversion *)

Section Replace.

Lemma replace_skip old new k : forall s,
  replace_aux old new k s = replace_aux old new 0 (skipn k s).
Proof.
  induction k as [|k IH]; intros s; [reflexivity|].
  destruct s as [|c s]; [reflexivity|]. cbn [replace_aux skipn]. apply IH.
Qed.

Lemma replace_aux_none old new s :
  occurs old s = false -> replace_aux old new 0 s = s.
Proof.
  induction s as [|c s IH]; [reflexivity|]. cbn [occurs replace_aux].
  intros H. apply orb_false_iff in H. destruct H as [-> H]. now rewrite IH.
Qed.

(** Without an occurrence of [old], [replace] returns the text itself. *)
Lemma replace_none c l new s :
  occurs (c :: l) s = false -> replace (c :: l) new s = s.
Proof. apply replace_aux_none. Qed.

(** With an occurrence, the replaced text and the text itself part at
    the first one. *)
Lemma replace_first c l s :
  occurs (c :: l) s = true ->
  exists pre rest,
    s = pre ++ (c :: l) ++ rest
    /\ forall new, replace (c :: l) new s = pre ++ new ++ replace (c :: l) new rest.
Proof.
  unfold replace. induction s as [|x s IH].
  - discriminate.
  - cbn [occurs]. destruct (startswith (c :: l) (x :: s)) eqn:E.
    + intros _. pose proof E as E'. apply startswith_true in E'.
      destruct E' as [rest E']. exists [], rest. split; [exact E'|]. intros new.
      cbn [app replace_aux]. rewrite E, replace_skip. do 2 f_equal.
      injection E' as _ ->. cbn [length Nat.sub]. rewrite Nat.sub_0_r.
      now rewrite skipn_app, skipn_all, Nat.sub_diag.
    + cbn [orb]. intros H. destruct (IH H) as (pre & rest & -> & R).
      exists (x :: pre), rest. split; [reflexivity|]. intros new.
      cbn [replace_aux]. change (x :: pre ++ (c :: l) ++ rest)
        with (x :: (pre ++ (c :: l) ++ rest)).
      rewrite E, R. reflexivity.
Qed.

Lemma write_file_twice n d1 d2 fs :
  write_file n d2 (write_file n d1 fs) = write_file n d2 fs.
Proof.
  induction fs as [|[m e] fs IH]; simpl.
  - now rewrite text_eqb_refl.
  - destruct (text_eqb m n) eqn:E; simpl; rewrite E; [reflexivity|now rewrite IH].
Qed.

End Replace.

(** X19.  The Google conversion derives the names of the two per-speaker
    files by replacing ['.mp3'] in [output_file], whatever the audio
    format: when [output_file] does not contain ['.mp3'], the three
    exports go to [output_file] itself, and after the conversion only the
    mixed audio is there; no per-speaker file is left. *)
Theorem google_export_without_mp3 render mix output_file s w :
  occurs (str ".mp3") output_file = false ->
  question_file output_file = output_file
  /\ answer_file output_file = output_file
  /\ google_export render mix output_file s w
     = World (temp_dir w)
         (write_file output_file
            (mix (render (combined_q s)) (render (combined_a s))) (outputs w))
         (log w ++ [str "Audio saved to " ++ output_file]).
Proof.
  intros H. unfold google_export, question_file, answer_file.
  rewrite !(replace_none "." (str "mp3") _ _ H).
  split; [reflexivity|]. split; [reflexivity|].
  unfold export, log_line. cbn [temp_dir outputs log].
  now rewrite !write_file_twice.
Qed.

Lemma google_export_without_mp3_witness :
  question_file (str "out.wav") = str "out.wav"
  /\ answer_file (str "out.wav") = str "out.wav"
  /\ google_export (fun t => [Z.of_nat (length t)]) (fun q a => q ++ a)
       (str "out.wav") (overlay_turns [((2, 3 # 10), (3 # 2, 3 # 10))%Q]) empty_world
     = World (temp_dir empty_world)
         (write_file (str "out.wav")
            ((fun q a => q ++ a)
               ((fun t : track => [Z.of_nat (length t)])
                  (combined_q (overlay_turns [((2, 3 # 10), (3 # 2, 3 # 10))%Q])))
               ((fun t : track => [Z.of_nat (length t)])
                  (combined_a (overlay_turns [((2, 3 # 10), (3 # 2, 3 # 10))%Q]))))
            (outputs empty_world))
         (log empty_world ++ [str "Audio saved to " ++ str "out.wav"]).
Proof.
  apply (google_export_without_mp3 (fun t => [Z.of_nat (length t)])
           (fun q a => q ++ a) (str "out.wav")).
  reflexivity.
Defined.

(** X20.  When [output_file] contains ['.mp3'], the Google conversion
    writes three different files: the question track, the answer track
    and the mix are each found under their own name afterwards. *)
Theorem google_export_with_mp3 render mix output_file s w :
  occurs (str ".mp3") output_file = true ->
  question_file output_file <> answer_file output_file
  /\ question_file output_file <> output_file
  /\ answer_file output_file <> output_file
  /\ lookup (question_file output_file)
       (outputs (google_export render mix output_file s w))
     = Some (render (combined_q s))
  /\ lookup (answer_file output_file)
       (outputs (google_export render mix output_file s w))
     = Some (render (combined_a s))
  /\ lookup output_file (outputs (google_export render mix output_file s w))
     = Some (mix (render (combined_q s)) (render (combined_a s))).
Proof.
  intros H. unfold question_file, answer_file.
  destruct (replace_first "." (str "mp3") output_file H) as (pre & rest & E & R).
  assert (N1 : replace (str ".mp3") (str "_question.mp3") output_file
               <> replace (str ".mp3") (str "_answer.mp3") output_file).
  { change (str ".mp3") with ("."%char :: str "mp3"). rewrite !R.
    intros X. apply app_inv_head in X. discriminate. }
  assert (N2 : replace (str ".mp3") (str "_question.mp3") output_file <> output_file).
  { change (str ".mp3") with ("."%char :: str "mp3"). rewrite R, E at 1.
    intros X. apply app_inv_head in X. discriminate. }
  assert (N3 : replace (str ".mp3") (str "_answer.mp3") output_file <> output_file).
  { change (str ".mp3") with ("."%char :: str "mp3"). rewrite R, E at 1.
    intros X. apply app_inv_head in X. discriminate. }
  split; [exact N1|]. split; [exact N2|]. split; [exact N3|].
  unfold google_export, question_file, answer_file, export, log_line.
  cbn [outputs]. split; [|split].
  - rewrite lookup_write_other by exact N2.
    rewrite lookup_write_other by exact N1. apply lookup_write.
  - rewrite lookup_write_other by exact N3. apply lookup_write.
  - apply lookup_write.
Qed.

Lemma google_export_with_mp3_witness :
  question_file (str "out.mp3") <> answer_file (str "out.mp3")
  /\ question_file (str "out.mp3") <> str "out.mp3"
  /\ answer_file (str "out.mp3") <> str "out.mp3"
  /\ lookup (question_file (str "out.mp3"))
       (outputs (google_export (fun t => [Z.of_nat (length t)]) (fun q a => q ++ a)
                   (str "out.mp3") overlay_start empty_world))
     = Some ((fun t : track => [Z.of_nat (length t)]) (combined_q overlay_start))
  /\ lookup (answer_file (str "out.mp3"))
       (outputs (google_export (fun t => [Z.of_nat (length t)]) (fun q a => q ++ a)
                   (str "out.mp3") overlay_start empty_world))
     = Some ((fun t : track => [Z.of_nat (length t)]) (combined_a overlay_start))
  /\ lookup (str "out.mp3")
       (outputs (google_export (fun t => [Z.of_nat (length t)]) (fun q a => q ++ a)
                   (str "out.mp3") overlay_start empty_world))
     = Some ((fun q a => q ++ a)
               ((fun t : track => [Z.of_nat (length t)]) (combined_q overlay_start))
               ((fun t : track => [Z.of_nat (length t)]) (combined_a overlay_start))).
Proof.
  apply (google_export_with_mp3 (fun t => [Z.of_nat (length t)]) (fun q a => q ++ a)
           (str "out.mp3") overlay_start empty_world).
  reflexivity.
Defined.

(** * The length of the overlay *)

Section OverlayLength.



End OverlayLength.



(** * From the transcript to the audio file *)

Section WholeConversion.

Lemma split_qa_open_script ending_message l :
  Forall (fun t => plain (fst t) /\ plain (snd t)) l ->
  no_tag ending_message ->
  split_qa ending_message (clean_tss_markup (open_script l)) = map normalize_turn l.
Proof.
  intros F E. rewrite (clean_open_script l F). unfold split_qa.
  rewrite (findall_script [] l _ (Forall_nil _)), (findall_ending _ E), app_nil_r.
  - apply map_ext. now intros [q a].
  - apply (Forall_impl _ (P := fun t => plain (fst t) /\ plain (snd t))); [|exact F].
    intros t [P1 P2]. split; now apply plain_no_tag.
Qed.

End WholeConversion.

(** X22.  From the transcript to the audio file: for a transcript whose
    speaker tags are never closed (texts without [<] and newline), in a
    temporary directory without file of the audio format, when the
    service answers every call for the normalized texts of the turns,
    [convert_to_speech] with the model [openai] or [elevenlabs] returns
    normally, writes to [output_file] the clips of the turns end to end
    (question before answer), logs two lines and leaves the temporary
    directory as it was; [output_file] is a path outside the temporary
    directory. *)
Theorem convert_to_speech_of_unclosed_transcript
    listdir cfg svc google output_file w l clips :
  (forall fs, Permutation (listdir fs) (names fs)) ->
  no_superscript (audio_format cfg) = true ->
  (forall f, In f (names (temp_dir w)) -> endswith f (extension cfg) = false) ->
  in_temp_audio_dir cfg output_file = None ->
  Forall (fun t => plain (fst t) /\ plain (snd t)) l ->
  no_tag (ending_message cfg) ->
  mapM (call svc cfg) (calls_of cfg (map normalize_turn l)) = inr clips ->
  convert_to_speech listdir cfg svc svc google (str "openai") (open_script l)
    output_file w
  = (World (temp_dir w)
       (write_file output_file (concat clips) (outputs w))
       ((log w ++ [str "Merged audio saved to " ++ output_file])
        ++ [str "Audio saved to " ++ output_file]), inr tt)
  /\ convert_to_speech listdir cfg svc svc google (str "elevenlabs") (open_script l)
       output_file w
     = (World (temp_dir w)
          (write_file output_file (concat clips) (outputs w))
          ((log w ++ [str "Merged audio saved to " ++ output_file])
           ++ [str "Audio saved to " ++ output_file]), inr tt).
Proof.
  intros Hl Hf Hw Ho F E Hc. unfold convert_to_speech.
  change (text_eqb (str "openai") (str "elevenlabs")) with false.
  change (text_eqb (str "openai") (str "openai")) with true.
  change (text_eqb (str "elevenlabs") (str "elevenlabs")) with true.
  cbv iota.
  unfold convert_to_speech_openai, convert_to_speech_elevenlabs.
  rewrite (split_qa_open_script _ l F E).
  rewrite (openai_loop_ok cfg svc _ _ _ Hc), (elevenlabs_loop_ok cfg svc _ _ _ Hc).
  rewrite (finish_world listdir cfg Hl Hf output_file w clips Hw Ho).
  split; reflexivity.
Qed.

Lemma convert_to_speech_of_unclosed_transcript_witness :
  convert_to_speech names example_config
    (fun _ _ t => inr [Z.of_nat (length t)]) (fun _ _ t => inr [Z.of_nat (length t)])
    (fun _ _ w => (w, inr tt)) (str "openai")
    (str "<Person1>Hi<Person2>Hello <Person1>So?<Person2>Yes")
    (str "out.mp3") empty_world
  = (World [] [(str "out.mp3", [2; 5; 3; 3]%Z)]
       [str "Merged audio saved to out.mp3"; str "Audio saved to out.mp3"], inr tt)
  /\ convert_to_speech names example_config
       (fun _ _ t => inr [Z.of_nat (length t)]) (fun _ _ t => inr [Z.of_nat (length t)])
       (fun _ _ w => (w, inr tt)) (str "elevenlabs")
       (str "<Person1>Hi<Person2>Hello <Person1>So?<Person2>Yes")
       (str "out.mp3") empty_world
     = (World [] [(str "out.mp3", [2; 5; 3; 3]%Z)]
          [str "Merged audio saved to out.mp3"; str "Audio saved to out.mp3"], inr tt).
Proof.
  apply (convert_to_speech_of_unclosed_transcript names example_config
           (fun _ _ t => inr [Z.of_nat (length t)]) (fun _ _ w => (w, inr tt))
           (str "out.mp3") empty_world
           [(str "Hi", str "Hello "); (str "So?", str "Yes")]
           [[2]; [5]; [3]; [3]]%Z).
  - intros fs. apply Permutation_refl.
  - reflexivity.
  - intros f [].
  - reflexivity.
  - repeat constructor; discriminate.
  - simpl. intros H. repeat (destruct H as [H|H]; [discriminate|]). exact H.
  - vm_compute. reflexivity.
Defined.
